(** * Dynamic MCP server: the asynchronous job subsystem of [src/main.js]

    A shallow embedding of the job registry, the timeout supervisor, the
    process runner and the dispatch policy, and of the prompt builder, the
    command-line parser and the logging configuration, followed by the
    theorems that settle the specification's claims and by further
    properties of the code. The source is the variant of [main.js] with job
    timeouts and logging.

    The program is single-threaded: it runs one callback to its end before
    the next one starts. A function of the source becomes a function on the
    program state ([World]) that also takes what the function reads from
    outside ([Ambient]: the clock, the environment, the working directory);
    the callbacks the source leaves with a timer or with the promise of a
    subprocess are kept in the state and run by the events of the loop. *)

From Stdlib Require Import ZArith String Ascii List Bool Lia.
From Stdlib Require Import Decimal DecimalString DecimalZ DecimalN DecimalPos.
From stdpp Require Import gmap strings.

Local Open Scope string_scope.

(** ** JavaScript numbers

    Every number the modelled code touches is an integer-valued IEEE-754
    double, [NaN] or an infinity: counters, clock readings, exit codes and the
    results of [Number.parseInt]. *)
Module JS.

Inductive number : Type :=
  | NaN
  | Infinity (negative : bool)
  | Num (z : Z).

(** Nearest double to a non-negative integer, ties to the even significand
    (53 significant bits); exact up to [2^53]. *)
Definition round53 (m : Z) : Z :=
  let e := (Z.log2 m - 52)%Z in
  if (e <=? 0)%Z then m
  else
    let q := Z.shiftr m e in
    let r := Z.land m (Z.ones e) in
    let half := Z.shiftl 1 (e - 1) in
    let q' := if (half <? r)%Z || ((r =? half)%Z && Z.odd q) then (q + 1)%Z else q in
    Z.shiftl q' e.

Definition round_double (z : Z) : Z := (Z.sgn z * round53 (Z.abs z))%Z.

(** The number value of a mathematical integer: magnitudes that round to
    [2^1024] overflow to an infinity. *)
Definition of_Z (z : Z) : number :=
  let r := round_double z in
  if (2 ^ 1024 <=? Z.abs r)%Z then Infinity (z <? 0)%Z else Num r.

Definition isFinite (x : number) : bool :=
  match x with Num _ => true | _ => false end.

(** [x > 0]; every comparison with [NaN] is false. *)
Definition gt0 (x : number) : bool :=
  match x with
  | NaN => false
  | Infinity negative => negb negative
  | Num z => (0 <? z)%Z
  end.

Definition MAX_SAFE : Z := (2 ^ 53)%Z.

(** [++c] on a number holding an integer. *)
Definition incr (c : Z) : Z := round_double (c + 1).

(** *** Number to string *)

Definition decimal (z : Z) : string := NilZero.string_of_int (Z.to_int z).

Definition nb_dec_digits (m : Z) : Z := Z.of_nat (Decimal.nb_digits (N.to_uint (Z.to_N m))).

(** The candidates with at most [k] significant digits around [v], when one
    of them rounds to [v]: the closer one, the even one on a tie. *)
Definition candidate (v : Z) (k : Z) : option Z :=
  let p := (10 ^ Z.max 0 (nb_dec_digits v - k))%Z in
  let lo := (v / p * p)%Z in
  let hi := (lo + p)%Z in
  let okl := (round53 lo =? v)%Z in
  let okh := (round53 hi =? v)%Z in
  if okl && okh then
    if (v - lo <? hi - v)%Z then Some lo
    else if (hi - v <? v - lo)%Z then Some hi
    else if Z.even (lo / p) then Some lo else Some hi
  else if okl then Some lo
  else if okh then Some hi
  else None.

Fixpoint shortest_from (v : Z) (k : Z) (fuel : nat) : Z :=
  match fuel with
  | O => v
  | S fuel' =>
      match candidate v k with
      | Some x => x
      | None => shortest_from v (k + 1) fuel'
      end
  end.

(** The decimal with the fewest significant digits whose number value is [v]. *)
Definition shortest (v : Z) : Z := shortest_from v 1 17.

Fixpoint strip_zeros_rev (l : list ascii) : list ascii :=
  match l with
  | "0"%char :: l' => strip_zeros_rev l'
  | _ => l
  end.

Definition significant (x : Z) : list ascii :=
  rev (strip_zeros_rev (rev (list_ascii_of_string (decimal x)))).

Definition exponent_form (x : Z) : string :=
  let n := nb_dec_digits x in
  match significant x with
  | [] => "0"
  | [d] => String d ("e+" ++ decimal (n - 1))
  | d :: ds => String d ("." ++ string_of_list_ascii ds ++ "e+" ++ decimal (n - 1))
  end.

(** [Number::toString] in radix 10 on a finite integer-valued number. Safe
    integers print as their decimal numeral; larger ones print the shortest
    digits that identify the double, zero-padded below [10^21] and in exponent
    notation from there on. *)
Definition toStringZ (v : Z) : string :=
  if (Z.abs v <=? MAX_SAFE)%Z then decimal v
  else
    let x := shortest (Z.abs v) in
    (if (v <? 0)%Z then "-" else "") ++
    (if (nb_dec_digits x <=? 21)%Z then decimal x else exponent_form x).

Definition toString (x : number) : string :=
  match x with
  | NaN => "NaN"
  | Infinity negative => if negative then "-Infinity" else "Infinity"
  | Num z => toStringZ z
  end.

(** *** [Number.parseInt(string, 10)]

    The argument is the value of an environment variable, kept as the
    operating system hands it over: a sequence of bytes, UTF-8 for anything
    outside ASCII. *)

Definition byte (c : ascii) : N := N_of_ascii c.

(** WhiteSpace and LineTerminator code points of one byte. *)
Definition ws1 (a : ascii) : bool :=
  let x := byte a in ((9 <=? x)%N && (x <=? 13)%N) || (x =? 32)%N.

(** U+00A0. *)
Definition ws2 (a b : ascii) : bool := (byte a =? 194)%N && (byte b =? 160)%N.

(** U+1680, U+2000..U+200A, U+2028, U+2029, U+202F, U+205F, U+3000, U+FEFF. *)
Definition ws3 (a b c : ascii) : bool :=
  let x := byte a in let y := byte b in let z := byte c in
  ((x =? 225)%N && (y =? 154)%N && (z =? 128)%N)
  || ((x =? 226)%N && (y =? 128)%N
      && (((128 <=? z)%N && (z <=? 138)%N) || (z =? 168)%N || (z =? 169)%N || (z =? 175)%N))
  || ((x =? 226)%N && (y =? 129)%N && (z =? 159)%N)
  || ((x =? 227)%N && (y =? 128)%N && (z =? 128)%N)
  || ((x =? 239)%N && (y =? 187)%N && (z =? 191)%N).

Fixpoint trimStart (s : string) : string :=
  match s with
  | EmptyString => s
  | String a s1 =>
      if ws1 a then trimStart s1
      else
        match s1 with
        | EmptyString => s
        | String b s2 =>
            if ws2 a b then trimStart s2
            else
              match s2 with
              | EmptyString => s
              | String c s3 => if ws3 a b c then trimStart s3 else s
              end
        end
  end.

Definition is_digit (a : ascii) : bool := (48 <=? byte a)%N && (byte a <=? 57)%N.

Definition digit_value (a : ascii) : Z := (Z.of_N (byte a) - 48)%Z.

(** The longest prefix of radix-10 digits. *)
Fixpoint digits_prefix (s : string) : list ascii :=
  match s with
  | String a s' => if is_digit a then a :: digits_prefix s' else []
  | EmptyString => []
  end.

Definition mathInt (ds : list ascii) : Z :=
  fold_left (fun acc d => (acc * 10 + digit_value d)%Z) ds 0%Z.

Definition parseInt (input : string) : number :=
  let s := trimStart input in
  let '(sign, s) :=
    match s with
    | String "-"%char rest => ((-1)%Z, rest)
    | String "+"%char rest => (1%Z, rest)
    | _ => (1%Z, s)
    end in
  match digits_prefix s with
  | [] => NaN
  | ds => of_Z (sign * mathInt ds)
  end.

End JS.

(** ** Data model *)

Inductive JobStatus : Type := running | completed | failed.

Definition is_running (s : JobStatus) : bool :=
  match s with running => true | _ => false end.

Record TaskResult : Type := mkTaskResult {
  exitCode : Z;
  stdout : string;
  stderr : string;
}.

(** A record of the [jobs] map. [completedAt] and [timedOut] are absent
    ([None]) until a finalizer writes them. *)
Record Job : Type := mkJob {
  status : JobStatus;
  toolName : string;
  startedAt : string;
  result : option TaskResult;
  timeoutMs : JS.number;
  completedAt : option string;
  timedOut : option bool;
}.

(** [CLI_CONFIG]; the keys are the values [ConfigSchemas.Config] admits for
    [model]. *)
Inductive Model : Type := claude | codex | gemini.

Record CliConfig : Type := mkCli {
  command : string;
  baseArgs : list string;
}.

Definition CLI_CONFIG (model : Model) : CliConfig :=
  match model with
  | claude => mkCli "claude" ["--dangerously-skip-permissions"; "-p"]
  | codex =>
      mkCli "codex"
        ["--dangerously-bypass-approvals-and-sandbox"; "--search"; "exec";
         "--dangerously-bypass-approvals-and-sandbox"; "--skip-git-repo-check"]
  | gemini => mkCli "gemini" ["-y"; "-p"]
  end.

(** [ConfigSchemas.ConfigTool] and [ConfigSchemas.Config], the fields the
    dispatch reads. *)
Record Tool : Type := mkTool {
  name : string;
  description : string;
  async : option bool;
}.

Record Config : Type := mkConfig {
  model : Model;
  modelId : option string;
  tools : list Tool;
}.

(** What the [execa] promise settles to. *)
Record ExecaResult : Type := mkExeca {
  r_exitCode : option Z;
  r_stdout : option string;
  r_stderr : option string;
}.

Inductive Settlement : Type :=
  | Fulfilled (r : ExecaResult)
  | Rejected (message : string).

(** Completion of a JavaScript body: a value, or a thrown error (for an
    [async] function, the promise fulfilled or rejected). *)
Inductive Completion (A : Type) : Type :=
  | Normal (v : A)
  | Throw (message : string).
Arguments Normal {A} v.
Arguments Throw {A} message.

Definition bind {A B} (c : Completion A) (k : A -> Completion B) : Completion B :=
  match c with
  | Normal v => k v
  | Throw message => Throw message
  end.

Definition try_catch {A} (body : Completion A) (handler : string -> Completion A) : Completion A :=
  match body with
  | Normal v => Normal v
  | Throw message => handler message
  end.

Definition await (s : Settlement) : Completion ExecaResult :=
  match s with
  | Fulfilled r => Normal r
  | Rejected message => Throw message
  end.

(** *** The process and its surroundings

    The logger and [execa] are collaborators of the modelled code. A logger,
    when there is one, returns normally from every call ([createLogger]
    swallows the errors of its stream); the state keeps the calls made. The
    [execa] call hands back the child process, which is also the promise of
    its result: a failure to spawn is a rejection of that promise. *)

Inductive LogLevel : Type := log_error | log_warn | log_info | log_debug | log_trace.

Record Logger : Type := mkLogger { destination : string }.

Record LogCall : Type := mkLogCall {
  sink : string;
  level : LogLevel;
  category : string;
  message : string;
}.

Inductive Signal : Type := SIGTERM | SIGKILL.

Record Child : Type := mkChild {
  file : string;
  arguments : list string;
  workdir : string;
  hasKill : bool;
}.

(** The callbacks a [setTimeout] can hold, with what their closures capture. *)
Inductive TimerCallback : Type :=
  | JobTimeout (jobId toolName : string) (timeoutMs : JS.number)
      (logger : option Logger) (child : nat)
  | KillEscalation (child : nat).

Record Timer : Type := mkTimer {
  callback : TimerCallback;
  delay : JS.number;
}.

(** What [finalizeJob] captures; it is reached through the [then] and [catch]
    callbacks of the subprocess. *)
Record Finalizer : Type := mkFinalizer {
  f_jobId : string;
  f_timeoutId : option nat;
  f_toolName : string;
  f_logger : option Logger;
}.

(** What one run of a function reads from outside the program: [Date.now()],
    [new Date().toISOString()], [process.env.DYNAMIC_MCP_JOB_TIMEOUT_MS],
    [process.cwd()], and whether the value [execa] returns has a [kill]
    method. *)
Record Ambient : Type := mkAmbient {
  dateNow : Z;
  isoNow : string;
  jobTimeoutEnv : option string;
  processCwd : string;
  childHasKill : bool;
}.

Record World : Type := mkWorld {
  jobs : gmap string Job;
  jobIdCounter : Z;
  timers : gmap nat Timer;
  timerSeq : nat;
  children : list Child;
  settling : gmap nat Finalizer;
  signals : list (nat * Signal);
  logged : list LogCall;
}.

Definition initial : World :=
  mkWorld ∅ 0 ∅ 0 [] ∅ [] [].

Definition with_jobs (f : gmap string Job -> gmap string Job) (w : World) : World :=
  mkWorld (f (jobs w)) (jobIdCounter w) (timers w) (timerSeq w) (children w)
    (settling w) (signals w) (logged w).

Definition with_jobIdCounter (c : Z) (w : World) : World :=
  mkWorld (jobs w) c (timers w) (timerSeq w) (children w) (settling w)
    (signals w) (logged w).

Definition with_timers (f : gmap nat Timer -> gmap nat Timer) (w : World) : World :=
  mkWorld (jobs w) (jobIdCounter w) (f (timers w)) (timerSeq w) (children w)
    (settling w) (signals w) (logged w).

Definition with_settling (f : gmap nat Finalizer -> gmap nat Finalizer) (w : World) : World :=
  mkWorld (jobs w) (jobIdCounter w) (timers w) (timerSeq w) (children w)
    (f (settling w)) (signals w) (logged w).

(** Node arms a timer with the delay it is given when that is a number from
    1 to [TIMEOUT_MAX], and with 1 ms otherwise: for [NaN], for an infinity,
    for a delay below 1 and for one that does not fit a 32-bit signed
    integer. *)
Definition TIMEOUT_MAX : Z := (2 ^ 31 - 1)%Z.

Definition armed (ms : JS.number) : JS.number :=
  match ms with
  | JS.Num z => if (1 <=? z)%Z && (z <=? TIMEOUT_MAX)%Z then JS.Num z else JS.Num 1
  | _ => JS.Num 1
  end.

(** The timer is kept with the delay it is armed with. *)
Definition setTimeout (cb : TimerCallback) (ms : JS.number) (w : World) : nat * World :=
  let id := timerSeq w in
  (id, mkWorld (jobs w) (jobIdCounter w) (<[id := mkTimer cb (armed ms)]> (timers w)) (S id)
         (children w) (settling w) (signals w) (logged w)).

Definition clearTimeout (id : nat) (w : World) : World := with_timers (delete id) w.

Definition kill (child : nat) (sig : Signal) (w : World) : World :=
  mkWorld (jobs w) (jobIdCounter w) (timers w) (timerSeq w) (children w)
    (settling w) ((child, sig) :: signals w) (logged w).

Definition log (logger : option Logger) (l : LogLevel) (cat msg : string) (w : World) : World :=
  match logger with
  | Some lg =>
      mkWorld (jobs w) (jobIdCounter w) (timers w) (timerSeq w) (children w)
        (settling w) (signals w) (mkLogCall (destination lg) l cat msg :: logged w)
  | None => w
  end.

(** A string or [undefined] in a condition: [undefined] and [""] are falsy. *)
Definition truthy (s : option string) : bool :=
  match s with
  | Some (String _ _) => true
  | _ => false
  end.

(** [[...cliConfig.baseArgs, task]], then [args.unshift("--model", modelId)]
    when [modelId] is given. *)
Definition cliArgs (cfg : CliConfig) (modelId : option string) (task : string) : list string :=
  let args := (baseArgs cfg ++ [task])%list in
  if truthy modelId then "--model" :: default "" modelId :: args else args.

(** The [execa] call: the child is spawned with [cwd || process.cwd()] and
    is known by its position among the children. *)
Definition execa (a : Ambient) (cfg : CliConfig) (args : list string) (cwd : option string)
    (w : World) : nat * World :=
  let child := length (children w) in
  let dir := if truthy cwd then default "" cwd else processCwd a in
  (child, mkWorld (jobs w) (jobIdCounter w) (timers w) (timerSeq w)
            (children w ++ [mkChild (command cfg) args dir (childHasKill a)])%list
            (settling w) (signals w) (logged w)).

(** ** Job identifiers and the timeout budget *)

Definition DEFAULT_JOB_TIMEOUT_MS : JS.number := JS.Num (20 * 60 * 1000).

Definition jobIdOf (now counter : Z) : string :=
  "job_" ++ JS.toStringZ now ++ "_" ++ JS.toStringZ counter.

Definition generateJobId (a : Ambient) (w : World) : string * World :=
  let c := JS.incr (jobIdCounter w) in
  (jobIdOf (dateNow a) c, with_jobIdCounter c w).

Definition resolveJobTimeoutMs (a : Ambient) : JS.number :=
  let parsed := JS.parseInt (default "" (jobTimeoutEnv a)) in
  if JS.isFinite parsed && JS.gt0 parsed then parsed else DEFAULT_JOB_TIMEOUT_MS.

Definition resolveToolAsyncFlag (tool : Tool) (serverAsync : bool) : bool :=
  match async tool with
  | Some b => b
  | None => serverAsync
  end.

(** ** The process runner

    [outcome] is what the awaited [execa] call comes to: its promise
    fulfilled, or an error thrown by the call or by the [await]. *)

Definition executeTask (a : Ambient) (model : Model) (modelId : option string)
    (task : string) (cwd : option string) (outcome : Settlement) (w : World)
    : Completion TaskResult * World :=
  let cliConfig := CLI_CONFIG model in
  let args := cliArgs cliConfig modelId task in
  let '(_, w) := execa a cliConfig args cwd w in
  (try_catch
     (bind (await outcome) (fun r =>
        Normal (mkTaskResult (default (-1)%Z (r_exitCode r))
                  (default "" (r_stdout r)) (default "" (r_stderr r)))))
     (fun message => Normal (mkTaskResult (-1) "" message)),
   w).

(** ** Asynchronous jobs *)

(** The callback of the job's timer. *)
Definition onJobTimeout (a : Ambient) (jobId tool : string) (budget : JS.number)
    (logger : option Logger) (child : nat) (w : World) : World :=
  match jobs w !! jobId with
  | None => w
  | Some job =>
      if negb (is_running (status job)) then w
      else
        let w :=
          with_jobs
            (insert jobId
               (mkJob failed (toolName job) (startedAt job)
                  (Some (mkTaskResult (-1) "" ("Timed out after " ++ JS.toString budget ++ "ms")))
                  (timeoutMs job) (Some (isoNow a)) (Some true))) w in
        let w := log logger log_warn "steps" "job_timed_out" w in
        match children w !! child with
        | Some c =>
            if hasKill c then
              let w := kill child SIGTERM w in
              snd (setTimeout (KillEscalation child) (JS.Num 5000) w)
            else w
        | None => w
        end
  end.

Definition finalizeJob (a : Ambient) (f : Finalizer) (st : JobStatus) (res : TaskResult)
    (w : World) : World :=
  match jobs w !! f_jobId f with
  | None => w
  | Some job =>
      if negb (is_running (status job)) then w
      else
        let w :=
          match f_timeoutId f with
          | Some id => clearTimeout id w
          | None => w
          end in
        let w :=
          with_jobs
            (insert (f_jobId f)
               (mkJob st (toolName job) (startedAt job) (Some res) (timeoutMs job)
                  (Some (isoNow a)) (timedOut job))) w in
        log (f_logger f)
          (match st with completed => log_info | _ => log_warn end)
          "steps" "job_finished" w
  end.

(** [subprocess.then(...)]. *)
Definition onFulfilled (a : Ambient) (f : Finalizer) (r : ExecaResult) (w : World) : World :=
  let code := default (-1)%Z (r_exitCode r) in
  finalizeJob a f (if (code =? 0)%Z then completed else failed)
    (mkTaskResult code (default "" (r_stdout r)) (default "" (r_stderr r))) w.

(** [.catch(...)]. *)
Definition onRejected (a : Ambient) (f : Finalizer) (message : string) (w : World) : World :=
  finalizeJob a f failed (mkTaskResult (-1) "" message) w.

Definition startTaskAsync (a : Ambient) (model : Model) (modelId : option string)
    (task : string) (cwd : option string) (tool : string) (logger : option Logger)
    (w : World) : string * World :=
  let '(jobId, w) := generateJobId a w in
  let budget := resolveJobTimeoutMs a in
  let w := with_jobs (insert jobId (mkJob running tool (isoNow a) None budget None None)) w in
  let w := log logger log_info "steps" "job_started" w in
  let cliConfig := CLI_CONFIG model in
  let args := cliArgs cliConfig modelId task in
  let '(child, w) := execa a cliConfig args cwd w in
  let '(timeoutId, w) :=
    if JS.gt0 budget then
      let '(id, w) := setTimeout (JobTimeout jobId tool budget logger child) budget w in
      (Some id, w)
    else (None, w) in
  (jobId, with_settling (insert child (mkFinalizer jobId timeoutId tool logger)) w).

(** ** Tool handlers *)

Inductive Structured : Type :=
  | JobHandle (jobId : string) (st : JobStatus) (msg : string)
  | Direct (r : TaskResult)
  | Snapshot (jobId : string) (st : JobStatus) (tool started : string)
      (completed_at : option string) (res : option TaskResult)
  | NotFound (jobId : string) (st : JobStatus) (error : string).

Record Response : Type := mkResponse {
  content : string;
  structuredContent : Structured;
  isError : bool;
}.

Definition nl : string := String "010"%char EmptyString.

Definition statusName (s : JobStatus) : string :=
  match s with
  | running => "running"
  | completed => "completed"
  | failed => "failed"
  end.

(** The handler registered for a tool whose resolved flag is true. [fullTask]
    is what [buildTaskPrompt] composed from the parameters. *)
Definition asyncToolHandler (a : Ambient) (cfg : Config) (tool : Tool)
    (logger : option Logger) (fullTask : string) (cwd : option string) (w : World)
    : Completion Response * World :=
  let w := log logger log_info "requests" "tool_request" w in
  let '(jobId, w) :=
    startTaskAsync a (model cfg) (modelId cfg) fullTask cwd (name tool) logger w in
  let w := log logger log_info "responses" "tool_response" w in
  (Normal
     (mkResponse
        ("Job started: " ++ jobId ++ nl ++ "Status: running" ++ nl ++ nl
         ++ "Use 'check-job-status' tool with this jobId to poll for completion.")
        (JobHandle jobId running
           ("Job started. Use 'check-job-status' with jobId '" ++ jobId
            ++ "' to check progress."))
        false),
   w).

(** The handler registered for a tool whose resolved flag is false; [outcome]
    is what the awaited subprocess settles to. *)
Definition syncToolHandler (a : Ambient) (cfg : Config) (tool : Tool)
    (logger : option Logger) (fullTask : string) (cwd : option string)
    (outcome : Settlement) (w : World) : Completion Response * World :=
  let w := log logger log_info "requests" "tool_request" w in
  let '(c, w) := executeTask a (model cfg) (modelId cfg) fullTask cwd outcome w in
  match c with
  | Throw message => (Throw message, w)
  | Normal res =>
      let w := log logger log_info "responses" "tool_response" w in
      (Normal
         (mkResponse ("stdout: " ++ stdout res ++ nl ++ "stderr: " ++ stderr res)
            (Direct res) (negb (exitCode res =? 0)%Z)),
       w)
  end.

(** The [check-job-status] handler of [main]. *)
Definition checkJobStatus (logger : option Logger) (jobId : string) (w : World)
    : Completion Response * World :=
  let w := log logger log_info "requests" "tool_request" w in
  match jobs w !! jobId with
  | None =>
      (Normal
         (mkResponse ("Error: Job not found: " ++ jobId)
            (NotFound jobId failed ("Job not found: " ++ jobId)) true),
       w)
  | Some job =>
      let textContent :=
        if is_running (status job) then
          "Job " ++ jobId ++ " is still running (started: " ++ startedAt job ++ ")." ++ nl
          ++ "Poll again to check for completion."
        else
          "Job " ++ jobId ++ " " ++ statusName (status job) ++ " (completed: "
          ++ default "undefined" (completedAt job) ++ ")" ++ nl ++ nl
          ++ "stdout: " ++ default "" (stdout <$> result job) ++ nl
          ++ "stderr: " ++ default "" (stderr <$> result job) in
      let w := log logger log_info "responses" "tool_response" w in
      (Normal
         (mkResponse textContent
            (Snapshot jobId (status job) (toolName job) (startedAt job)
               (completedAt job) (result job))
            (match status job with failed => true | _ => false end)),
       w)
  end.

(** *** Registration *)

Inductive Handler : Type :=
  | AsyncTool (tool : Tool) (logger : option Logger)
  | SyncTool (tool : Tool) (logger : option Logger).

Record Registration : Type := mkRegistration {
  registeredName : string;
  registeredDescription : string;
  handler : Handler;
}.

(** The calls to [server.registerTool], in order, and [hasAsyncTools]. *)
Definition registerConfiguredTools (cfg : Config) (serverAsync : bool)
    (loggerOf : Tool -> option Logger) : list Registration * bool :=
  fold_left
    (fun '(registered, hasAsyncTools) tool =>
       let toolLogger := loggerOf tool in
       let toolAsync := resolveToolAsyncFlag tool serverAsync in
       if toolAsync then
         (registered ++
            [mkRegistration (name tool)
               (description tool ++ nl ++ nl
                ++ "This tool runs asynchronously and returns a job ID. Use 'check-job-status' to poll for completion.")
               (AsyncTool tool toolLogger)],
          true)
       else
         (registered ++ [mkRegistration (name tool) (description tool) (SyncTool tool toolLogger)],
          hasAsyncTools))%list
    (tools cfg) ([], false).

(** Running a registered handler on one invocation. *)
Definition invoke (a : Ambient) (cfg : Config) (h : Handler) (fullTask : string)
    (cwd : option string) (outcome : Settlement) (w : World)
    : Completion Response * World :=
  match h with
  | AsyncTool tool logger => asyncToolHandler a cfg tool logger fullTask cwd w
  | SyncTool tool logger => syncToolHandler a cfg tool logger fullTask cwd outcome w
  end.

(** ** The event loop

    The program runs one callback at a time: a tool invocation, a status
    query, the settlement of a subprocess started by [startTaskAsync], or a
    timer. A synchronous invocation is one event: what it does before and
    after its [await] touches the same parts of the state. *)

Definition settle (a : Ambient) (child : nat) (s : Settlement) (w : World) : World :=
  match settling w !! child with
  | None => w
  | Some f =>
      let w := with_settling (delete child) w in
      match s with
      | Fulfilled r => onFulfilled a f r w
      | Rejected msg => onRejected a f msg w
      end
  end.

Definition fire (a : Ambient) (id : nat) (w : World) : World :=
  match timers w !! id with
  | None => w
  | Some t =>
      let w := with_timers (delete id) w in
      match callback t with
      | JobTimeout jobId tool budget logger child =>
          onJobTimeout a jobId tool budget logger child w
      | KillEscalation child => kill child SIGKILL w
      end
  end.

Inductive Event : Type :=
  | Invoke (a : Ambient) (cfg : Config) (h : Handler) (fullTask : string)
      (cwd : option string) (outcome : Settlement)
  | Query (logger : option Logger) (jobId : string)
  | Settle (a : Ambient) (child : nat) (s : Settlement)
  | Fire (a : Ambient) (id : nat).

Definition step (w : World) (e : Event) : World :=
  match e with
  | Invoke a cfg h fullTask cwd outcome => snd (invoke a cfg h fullTask cwd outcome w)
  | Query logger jobId => snd (checkJobStatus logger jobId w)
  | Settle a child s => settle a child s w
  | Fire a id => fire a id w
  end.

Definition run (w : World) (es : list Event) : World := fold_left step es w.

(** ** Predicates used in the statements *)

(** [c] does not occur in [s]. *)
Fixpoint free_of (c : ascii) (s : string) : bool :=
  match s with
  | EmptyString => true
  | String a s' => negb (Ascii.eqb a c) && free_of c s'
  end.

Definition terminal (s : JobStatus) : Prop := s = completed \/ s = failed.

(** [s] begins with a decimal digit. *)
Definition starts_with_digit (s : string) : bool :=
  match s with
  | String a _ => JS.is_digit a
  | EmptyString => false
  end.

(** What is left of a string once [Number.parseInt] has skipped its leading
    white space and one sign: the place where it looks for digits. *)
Definition unsigned_part (s : string) : string :=
  match JS.trimStart s with
  | String "-"%char rest => rest
  | String "+"%char rest => rest
  | t => t
  end.

(** What one callback can do to the registry and the counter: nothing, the
    finalization of one running job, or the creation of one job. *)
Inductive Change (w w' : World) : Prop :=
  | Unchanged :
      jobs w' = jobs w -> jobIdCounter w' = jobIdCounter w -> Change w w'
  | Finalized (jobId : string) (job : Job) (st : JobStatus) (res : TaskResult)
      (at_ : string) (flag : option bool) :
      jobs w !! jobId = Some job ->
      status job = running ->
      terminal st ->
      jobs w' =
        <[jobId := mkJob st (toolName job) (startedAt job) (Some res) (timeoutMs job)
                     (Some at_) flag]> (jobs w) ->
      jobIdCounter w' = jobIdCounter w ->
      Change w w'
  | Created (now : Z) (job : Job) :
      status job = running ->
      result job = None ->
      jobs w' = <[jobIdOf now (JS.incr (jobIdCounter w)) := job]> (jobs w) ->
      jobIdCounter w' = JS.incr (jobIdCounter w) ->
      Change w w'.

(** The identifiers in the registry were issued by the counter. *)
Definition issued (w : World) : Prop :=
  (0 <= jobIdCounter w)%Z /\
  forall k job, jobs w !! k = Some job ->
    exists now c, k = jobIdOf now c /\ (0 < c)%Z /\
      ((jobIdCounter w < JS.MAX_SAFE)%Z -> (c <= jobIdCounter w)%Z).

(** Every pending job timer belongs to a job of the registry and carries the
    budget stored in it. *)
Definition timers_agree (w : World) : Prop :=
  forall id jobId tool budget lg child d,
    timers w !! id = Some (mkTimer (JobTimeout jobId tool budget lg child) d) ->
    (id < timerSeq w)%nat /\
    exists job, jobs w !! jobId = Some job /\ timeoutMs job = budget.

(** [result] is [null] exactly on running jobs. *)
Definition result_matches_status (w : World) : Prop :=
  forall k job, jobs w !! k = Some job -> (result job = None <-> status job = running).

(** ** A concrete scenario

    The setting of the timeout test in [__tests__/main.test.js]: one job of
    tool ["test-tool"] on model [gemini], started in a fresh process. *)

Definition demo_ambient (override : option string) : Ambient :=
  mkAmbient 1700000000000 "2023-11-14T22:13:20.000Z" override "/srv" true.

Definition demo_config : Config :=
  mkConfig gemini (Some "gemini-pro") [mkTool "test-tool" "a tool" (Some true)].

Definition demo_tool : Tool := mkTool "test-tool" "a tool" (Some true).

Definition demo_start (override : option string) : string * World :=
  startTaskAsync (demo_ambient override) gemini (Some "gemini-pro") "test prompt"
    (Some "/test/dir") "test-tool" None initial.

(** The job is started through its tool ... *)
Definition demo_started : list Event :=
  [Invoke (demo_ambient (Some "10")) demo_config (AsyncTool demo_tool None) "test prompt"
     (Some "/test/dir") (Rejected "")].

(** ... its timer fires ... *)
Definition demo_timed_out : list Event :=
  demo_started ++ [Fire (demo_ambient (Some "10")) 0].

(** ... and the subprocess exits with code 0 afterwards. *)
Definition demo_late_exit : list Event :=
  [Settle (demo_ambient (Some "10")) 0 (Fulfilled (mkExeca (Some 0%Z) (Some "done") None))].

Definition demo_jobId : string := "job_1700000000000_1".

Definition demo_running_job : Job :=
  mkJob running "test-tool" "2023-11-14T22:13:20.000Z" None (JS.Num 10) None None.

Definition demo_failed_job : Job :=
  mkJob failed "test-tool" "2023-11-14T22:13:20.000Z"
    (Some (mkTaskResult (-1) "" "Timed out after 10ms")) (JS.Num 10)
    (Some "2023-11-14T22:13:20.000Z") (Some true).

(** ** Records, signals and subprocesses along a run *)

(** A property of every record of the registry. *)
Definition jobs_forall (P : Job -> Prop) (w : World) : Prop :=
  forall k job, jobs w !! k = Some job -> P job.

(** How the fields of a record go together. *)
Definition consistent (job : Job) : Prop :=
  match status job with
  | running => result job = None /\ completedAt job = None /\ timedOut job = None
  | completed =>
      (exists out err, result job = Some (mkTaskResult 0 out err)) /\
      completedAt job <> None /\ timedOut job = None
  | failed =>
      (exists res, result job = Some res /\ exitCode res <> 0%Z) /\
      completedAt job <> None /\
      (timedOut job = None \/
       (timedOut job = Some true /\
        exists budget,
          result job
          = Some (mkTaskResult (-1) "" ("Timed out after " ++ JS.toString budget ++ "ms"))))
  end.

(** Graceful before forceful: a child is sent [SIGKILL], or has a timer that
    will send it, only after it was sent [SIGTERM]. *)
Definition graceful_first (w : World) : Prop :=
  (forall child, In (child, SIGKILL) (signals w) -> In (child, SIGTERM) (signals w)) /\
  (forall id child d, timers w !! id = Some (mkTimer (KillEscalation child) d) ->
     In (child, SIGTERM) (signals w) /\ d = JS.Num 5000).

(** The events that start a job. *)
Definition is_async_invocation (e : Event) : bool :=
  match e with
  | Invoke _ _ (AsyncTool _ _) _ _ _ => true
  | _ => false
  end.

(** The subprocess an invocation spawns. *)
Definition spawned (e : Event) : list Child :=
  match e with
  | Invoke a cfg _ fullTask cwd _ =>
      [mkChild (command (CLI_CONFIG (model cfg)))
         (cliArgs (CLI_CONFIG (model cfg)) (modelId cfg) fullTask)
         (if truthy cwd then default "" cwd else processCwd a) (childHasKill a)]
  | _ => []
  end.

(** The completion callback and the subprocess of the scenario's job. *)
Definition demo_finalizer : Finalizer := mkFinalizer demo_jobId (Some 0%nat) "test-tool" None.

Definition demo_child : Child :=
  mkChild "gemini" ["--model"; "gemini-pro"; "-y"; "-p"; "test prompt"] "/test/dir" true.

(** Every running job is watched from both sides: its timeout timer is
    pending, with the budget stored in the record, and so is the completion
    callback of its subprocess. Timers and callbacks are known by numbers
    already handed out, and the timer a callback would clear is the one of
    its own job. *)
Definition supervised (w : World) : Prop :=
  (forall id t, timers w !! id = Some t -> (id < timerSeq w)%nat) /\
  (forall child f, settling w !! child = Some f ->
     (child < length (children w))%nat /\
     forall id, f_timeoutId f = Some id ->
       (id < timerSeq w)%nat /\
       forall t, timers w !! id = Some t ->
         exists tool budget lg, callback t = JobTimeout (f_jobId f) tool budget lg child) /\
  (forall jobId job, jobs w !! jobId = Some job -> status job = running ->
     exists id tool lg child,
       timers w !! id
       = Some (mkTimer (JobTimeout jobId tool (timeoutMs job) lg child)
                 (armed (timeoutMs job))) /\
       settling w !! child = Some (mkFinalizer jobId (Some id) tool lg)).

(** ** Prompts

    The parameters of a tool call form a JSON object. [V] is the type of its
    values, [render v] is [String(v ?? "")], [stringify] is [JSON.stringify]
    and [inherited k] is the property [k] of [Object.prototype], which
    [toolParams[k]] reads when the object has no property [k] of its own. *)

Section Prompts.

Variable V : Type.
Variable render : V -> string.
Variable stringify : gmap string V -> string.
Variable inherited : string -> option V.

(** The longest run of characters other than [}] at the head of [s], and
    what follows it: the greedy [[^}]+]. *)
Fixpoint span_key (s : string) : string * string :=
  match s with
  | EmptyString => (EmptyString, EmptyString)
  | String c s' =>
      if Ascii.eqb c "}" then (EmptyString, s)
      else let '(key, rest) := span_key s' in (String c key, rest)
  end.

(** A match of [/\{\{([^}]+)\}\}/] at the head of [s]: the captured key and
    the text after the match. A shorter run than the greedy one is followed
    by a character other than [}], so backtracking finds no other match. *)
Definition match_placeholder (s : string) : option (string * string) :=
  match s with
  | String a (String b s') =>
      if Ascii.eqb a "{" && Ascii.eqb b "{" then
        match span_key s' with
        | (String c key, String d (String e rest)) =>
            if Ascii.eqb d "}" && Ascii.eqb e "}" then Some (String c key, rest) else None
        | _ => None
        end
      else None
  | _ => None
  end.

(** The replacement callback. *)
Definition placeholder_value (params : gmap string V) (key : string) : string :=
  match params !! key with
  | Some v => render v
  | None => ""
  end.

(** [String.prototype.replace] with the global pattern: the matches are
    looked for from left to right, each search starting where the last match
    ended. [fuel] bounds the number of positions visited. *)
Fixpoint replace_placeholders (fuel : nat) (params : gmap string V) (s : string) : string :=
  match fuel with
  | O => s
  | S fuel =>
      match match_placeholder s with
      | Some (key, rest) => placeholder_value params key ++ replace_placeholders fuel params rest
      | None =>
          match s with
          | EmptyString => EmptyString
          | String c s' => String c (replace_placeholders fuel params s')
          end
      end
  end.

Definition substitutePromptVariables (template : option string) (params : gmap string V)
    : string :=
  let safeTemplate := if truthy template then default "" template else "" in
  replace_placeholders (String.length safeTemplate) params safeTemplate.

Inductive InputType : Type := type_string | type_number | type_boolean | type_array | type_object.

Record ConfigInput : Type := mkInput {
  input_name : string;
  input_type : InputType;
  input_description : string;
  input_required : bool;
}.

Definition is_type_string (t : InputType) : bool :=
  match t with type_string => true | _ => false end.

(** [toolParams[k]]. *)
Definition get_property (params : gmap string V) (k : string) : option V :=
  match params !! k with
  | Some v => Some v
  | None => inherited k
  end.

(** [inputs] is [tool.inputs || []]. *)
Definition buildTaskPrompt (inputs : list ConfigInput) (toolPromptTemplate : option string)
    (toolParams : gmap string V) (promptPrefix : option string) : string :=
  let task :=
    if truthy toolPromptTemplate then substitutePromptVariables toolPromptTemplate toolParams
    else
      match List.find (fun input => is_type_string (input_type input)) inputs with
      | Some firstStringInput =>
          match get_property toolParams (input_name firstStringInput) with
          | Some v => render v
          | None => ""
          end
      | None => stringify toolParams
      end in
  if truthy promptPrefix then default "" promptPrefix ++ nl ++ task else task.

End Prompts.

Arguments placeholder_value {V} render params key.
Arguments replace_placeholders {V} render fuel params s.
Arguments substitutePromptVariables {V} render template params.
Arguments get_property {V} inherited params k.
Arguments buildTaskPrompt {V} render stringify inherited inputs toolPromptTemplate toolParams
  promptPrefix.

(** [c] occurs twice in a row in [s]. *)
Fixpoint doubled (c : ascii) (s : string) : bool :=
  match s with
  | String a (String b _ as s') => (Ascii.eqb a c && Ascii.eqb b c) || doubled c s'
  | _ => false
  end.

(** The keys of the placeholders the replacement finds in a template, from
    left to right. *)
Fixpoint placeholder_keys (fuel : nat) (s : string) : list string :=
  match fuel with
  | O => []
  | S fuel =>
      match match_placeholder s with
      | Some (key, rest) => key :: placeholder_keys fuel rest
      | None =>
          match s with
          | EmptyString => []
          | String _ s' => placeholder_keys fuel s'
          end
      end
  end.

Definition placeholders (template : string) : list string :=
  placeholder_keys (String.length template) template.

(** Parameters whose text looks like a placeholder. *)
Definition demo_params : gmap string string := {[ "name" := "{{age}}" ]}.

(** ** The command line

    [argv] is [process.argv] from index 2 on. [process.exit] ends the
    program: [Exits] carries the exit code and the lines written with
    [console.error]. *)

Inductive Outcome (A : Type) : Type :=
  | Returns (a : A)
  | Exits (code : Z) (errors : list string).
Arguments Returns {A} a.
Arguments Exits {A} code errors.

(** [loggingArgs]: a field is [None] while the property is not set;
    [arg_logPayloads] is set to [true] only. *)
Record LoggingArgs : Type := mkLoggingArgs {
  arg_level : option string;
  arg_format : option string;
  arg_destination : option string;
  arg_categories : option string;
  arg_logPayloads : bool;
  arg_payloadMaxChars : option JS.number;
}.

Record CliArgs : Type := mkCliArgs {
  configPath : option string;
  promptArg : option string;
  asyncArg : bool;
  handshakeAndExitArg : bool;
  loggingArgs : LoggingArgs;
  logDisabled : bool;
}.

Definition no_args : CliArgs :=
  mkCliArgs None None false false (mkLoggingArgs None None None None false None) false.

Definition with_logging (f : LoggingArgs -> LoggingArgs) (st : CliArgs) : CliArgs :=
  mkCliArgs (configPath st) (promptArg st) (asyncArg st) (handshakeAndExitArg st)
    (f (loggingArgs st)) (logDisabled st).

(** [x = process.argv[++i]; if (!x) { console.error(message); process.exit(1) }]
    and the rest of the loop. *)
Definition requireValue {A} (rest : list string) (message : string)
    (k : string -> list string -> Outcome A) : Outcome A :=
  match rest with
  | value :: rest' => if truthy (Some value) then k value rest' else Exits 1 [message]
  | [] => Exits 1 [message]
  end.

Fixpoint parseArgv (argv : list string) (st : CliArgs) : Outcome CliArgs :=
  match argv with
  | [] => Returns st
  | arg :: rest =>
      if String.eqb arg "--config" then
        requireValue rest "Error: --config requires a value (file path)"
          (fun value rest' =>
             parseArgv rest'
               (mkCliArgs (Some value) (promptArg st) (asyncArg st) (handshakeAndExitArg st)
                  (loggingArgs st) (logDisabled st)))
      else if String.eqb arg "--prompt" || String.eqb arg "-p" then
        requireValue rest "Error: --prompt requires a value (string or file path)"
          (fun value rest' =>
             parseArgv rest'
               (mkCliArgs (configPath st) (Some value) (asyncArg st) (handshakeAndExitArg st)
                  (loggingArgs st) (logDisabled st)))
      else if String.eqb arg "--async" then
        parseArgv rest
          (mkCliArgs (configPath st) (promptArg st) true (handshakeAndExitArg st)
             (loggingArgs st) (logDisabled st))
      else if String.eqb arg "--handshake-and-exit" then
        parseArgv rest
          (mkCliArgs (configPath st) (promptArg st) (asyncArg st) true
             (loggingArgs st) (logDisabled st))
      else if String.eqb arg "--log-level" then
        requireValue rest "Error: --log-level requires a value"
          (fun value rest' =>
             parseArgv rest'
               (with_logging
                  (fun l => mkLoggingArgs (Some value) (arg_format l) (arg_destination l)
                              (arg_categories l) (arg_logPayloads l) (arg_payloadMaxChars l))
                  st))
      else if String.eqb arg "--log-format" then
        requireValue rest "Error: --log-format requires a value"
          (fun value rest' =>
             parseArgv rest'
               (with_logging
                  (fun l => mkLoggingArgs (arg_level l) (Some value) (arg_destination l)
                              (arg_categories l) (arg_logPayloads l) (arg_payloadMaxChars l))
                  st))
      else if String.eqb arg "--log-destination" then
        requireValue rest "Error: --log-destination requires a value"
          (fun value rest' =>
             parseArgv rest'
               (with_logging
                  (fun l => mkLoggingArgs (arg_level l) (arg_format l) (Some value)
                              (arg_categories l) (arg_logPayloads l) (arg_payloadMaxChars l))
                  st))
      else if String.eqb arg "--log-categories" then
        requireValue rest "Error: --log-categories requires a value"
          (fun value rest' =>
             parseArgv rest'
               (with_logging
                  (fun l => mkLoggingArgs (arg_level l) (arg_format l) (arg_destination l)
                              (Some value) (arg_logPayloads l) (arg_payloadMaxChars l))
                  st))
      else if String.eqb arg "--log-payloads" then
        parseArgv rest
          (with_logging
             (fun l => mkLoggingArgs (arg_level l) (arg_format l) (arg_destination l)
                         (arg_categories l) true (arg_payloadMaxChars l))
             st)
      else if String.eqb arg "--log-payload-max-chars" then
        let message := "Error: --log-payload-max-chars requires a positive integer value" in
        match rest with
        | value :: rest' =>
            let parsed := JS.parseInt value in
            if negb (JS.isFinite parsed) || negb (JS.gt0 parsed) then Exits 1 [message]
            else
              parseArgv rest'
                (with_logging
                   (fun l => mkLoggingArgs (arg_level l) (arg_format l) (arg_destination l)
                               (arg_categories l) (arg_logPayloads l) (Some parsed))
                   st)
        | [] => Exits 1 [message]
        end
      else if String.eqb arg "--no-logging" then
        parseArgv rest
          (mkCliArgs (configPath st) (promptArg st) (asyncArg st) (handshakeAndExitArg st)
             (loggingArgs st) true)
      else parseArgv rest st
  end.

Definition parseCliArgs (argv : list string) : Outcome CliArgs :=
  match parseArgv argv no_args with
  | Exits code errors => Exits code errors
  | Returns st =>
      if truthy (configPath st) then Returns st
      else
        Exits 1
          ["Usage: dynamic-mcp-server --config <path> [--prompt <string|file>] [--async] [--handshake-and-exit]";
           "Error: a path to a config file must be provided with --config."]
  end.

(** What the parser has set comes from the arguments. *)
Definition from_argv (argv : list string) (st : CliArgs) : Prop :=
  (forall p, configPath st = Some p -> p <> "" /\ In p argv /\ In "--config" argv) /\
  (forall p, promptArg st = Some p ->
     p <> "" /\ In p argv /\ (In "--prompt" argv \/ In "-p" argv)) /\
  (asyncArg st = true -> In "--async" argv) /\
  (handshakeAndExitArg st = true -> In "--handshake-and-exit" argv) /\
  (logDisabled st = true -> In "--no-logging" argv) /\
  (forall v, arg_level (loggingArgs st) = Some v -> v <> "" /\ In v argv) /\
  (forall v, arg_format (loggingArgs st) = Some v -> v <> "" /\ In v argv) /\
  (forall v, arg_destination (loggingArgs st) = Some v -> v <> "" /\ In v argv) /\
  (forall v, arg_categories (loggingArgs st) = Some v -> v <> "" /\ In v argv) /\
  (arg_logPayloads (loggingArgs st) = true -> In "--log-payloads" argv) /\
  (forall n, arg_payloadMaxChars (loggingArgs st) = Some n ->
     exists z, n = JS.Num z /\ (0 < z)%Z).

(** The options that read the argument after them. *)
Definition takes_value (arg : string) : bool :=
  existsb (String.eqb arg)
    ["--config"; "--prompt"; "-p"; "--log-level"; "--log-format"; "--log-destination";
     "--log-categories"; "--log-payload-max-chars"].

(** ** Logging configuration

    Logging is configured in the configuration file, in the environment and
    on the command line. [normalizeLoggingOverrides] reads the three of them
    alike, as objects whose fields are booleans, texts and numbers.

    [toLowerCase] stands for [String.prototype.toLowerCase], and
    [inherited_property name] tells whether [LOG_LEVELS[name]] is defined
    without [name] being one of the five levels: [LOG_LEVELS] is a plain
    object, so that is the case for the names it inherits from
    [Object.prototype], ["constructor"] for one. [normalizeLogLevel] lets
    such a name through. [LOG_LEVELS] maps it to a function or an object,
    which compares with a number as [NaN] does. *)

Module Logging.

(** A normalized level: one of [LOG_LEVEL_ORDER], ["off"], or an inherited
    name. *)
Inductive LevelSetting : Type := Level (l : LogLevel) | off | inherited (name : string).

(** [LOG_LEVELS[config.level] ?? LOG_LEVELS.info]. *)
Inductive LevelValue : Type := rank (z : Z) | not_a_number.

Inductive Category : Type := requests | responses | steps.

Inductive Format : Type := json | pretty.

Definition LOG_LEVELS (l : LogLevel) : Z :=
  match l with
  | log_error => 0
  | log_warn => 1
  | log_info => 2
  | log_debug => 3
  | log_trace => 4
  end.

Definition LOG_CATEGORY_VALUES : list Category := [requests; responses; steps].

Definition category_eqb (a b : Category) : bool :=
  match a, b with
  | requests, requests | responses, responses | steps, steps => true
  | _, _ => false
  end.

(** The level a text names in [LOG_LEVELS]. *)
Definition level_named (s : string) : option LogLevel :=
  if String.eqb s "error" then Some log_error
  else if String.eqb s "warn" then Some log_warn
  else if String.eqb s "info" then Some log_info
  else if String.eqb s "debug" then Some log_debug
  else if String.eqb s "trace" then Some log_trace
  else None.

(** The category a text names in [LOG_CATEGORY_VALUES]. *)
Definition category_named (s : string) : option Category :=
  if String.eqb s "requests" then Some requests
  else if String.eqb s "responses" then Some responses
  else if String.eqb s "steps" then Some steps
  else None.

(** The text of a normalized level. *)
Definition level_text (v : LevelSetting) : string :=
  match v with
  | Level log_error => "error"
  | Level log_warn => "warn"
  | Level log_info => "info"
  | Level log_debug => "debug"
  | Level log_trace => "trace"
  | off => "off"
  | inherited name => name
  end.

(** A resolved configuration. [payloadMaxChars] is [null] or a number;
    [disabledByCli] is [false] where the object has no such property. *)
Record LoggingConfig : Type := mkLoggingConfig {
  enabled : bool;
  level : LevelSetting;
  format : Format;
  destination : string;
  categories : list Category;
  logPayloads : bool;
  payloadMaxChars : option JS.number;
  disabledByCli : bool;
}.

Definition DEFAULT_LOGGING : LoggingConfig :=
  mkLoggingConfig true (Level log_info) json "stderr" LOG_CATEGORY_VALUES false None false.

(** [categories] as given: a text or an array of texts. *)
Inductive CategoriesInput : Type := text (s : string) | array (l : list string).

(** What [normalizeLoggingOverrides] reads of its argument: a field is [None]
    when the property is missing or not of the type the function asks for. *)
Record LoggingInput : Type := mkLoggingInput {
  in_enabled : option bool;
  in_level : option string;
  in_format : option string;
  in_destination : option string;
  in_categories : option CategoriesInput;
  in_logPayloads : option bool;
  in_payloadMaxChars : option JS.number;
}.

(** The object [normalizeLoggingOverrides] builds: a field is [None] while
    the property is not set. *)
Record Overrides : Type := mkOverrides {
  o_enabled : option bool;
  o_logPayloads : option bool;
  o_level : option LevelSetting;
  o_format : option Format;
  o_destination : option string;
  o_categories : option (list Category);
  o_payloadMaxChars : option JS.number;
}.

(** The variables of [process.env] that [resolveLoggingConfig] reads. *)
Record Env : Type := mkEnv {
  DYNAMIC_MCP_LOG_ENABLED : option string;
  DYNAMIC_MCP_LOG_LEVEL : option string;
  DYNAMIC_MCP_LOG_FORMAT : option string;
  DYNAMIC_MCP_LOG_DESTINATION : option string;
  DYNAMIC_MCP_LOG_CATEGORIES : option string;
  DYNAMIC_MCP_LOG_PAYLOADS_ENABLED : option string;
  DYNAMIC_MCP_LOG_PAYLOAD_MAX_CHARS : option string;
}.

(** [String.prototype.trim] on UTF-8 bytes: [trimEnd] reads the bytes from
    the last one. *)
Fixpoint trimEnd_rev (l : list ascii) : list ascii :=
  match l with
  | [] => l
  | c :: l1 =>
      if JS.ws1 c then trimEnd_rev l1
      else
        match l1 with
        | [] => l
        | b :: l2 =>
            if JS.ws2 b c then trimEnd_rev l2
            else
              match l2 with
              | [] => l
              | a :: l3 => if JS.ws3 a b c then trimEnd_rev l3 else l
              end
        end
  end.

Definition trimEnd (s : string) : string :=
  string_of_list_ascii (rev (trimEnd_rev (rev (list_ascii_of_string s)))).

Definition trim (s : string) : string := trimEnd (JS.trimStart s).

(** [s.split(",")]. *)
Fixpoint split_comma (s : string) : list string :=
  match s with
  | EmptyString => [EmptyString]
  | String c s' =>
      if Ascii.eqb c "," then EmptyString :: split_comma s'
      else
        match split_comma s' with
        | item :: items => String c item :: items
        | [] => [String c EmptyString]
        end
  end.

Section Builtins.

Variable toLowerCase : string -> string.
Variable inherited_property : string -> bool.

Definition parseBooleanEnv (value : option string) : option bool :=
  match value with
  | None => None
  | Some value =>
      let normalized := toLowerCase (trim value) in
      if existsb (String.eqb normalized) ["1"; "true"; "yes"; "on"] then Some true
      else if existsb (String.eqb normalized) ["0"; "false"; "no"; "off"] then Some false
      else None
  end.

Definition normalizeLogLevel (value : option string) : option LevelSetting :=
  match value with
  | None => None
  | Some value =>
      let normalized := toLowerCase (trim value) in
      if String.eqb normalized "off" then Some off
      else
        match level_named normalized with
        | Some l => Some (Level l)
        | None => if inherited_property normalized then Some (inherited normalized) else None
        end
  end.

Definition normalizeLogFormat (value : option string) : option Format :=
  match value with
  | None => None
  | Some value =>
      let normalized := toLowerCase (trim value) in
      if String.eqb normalized "json" then Some json
      else if String.eqb normalized "pretty" then Some pretty
      else None
  end.

Definition normalizeLogCategories (value : option CategoriesInput)
    : option (list Category) :=
  match value with
  | None | Some (text EmptyString) => None
  | Some value =>
      let raw :=
        match value with
        | array items => items
        | text s => split_comma s
        end in
      let normalized :=
        List.filter (fun item => truthy (Some item))
          (map (fun item => toLowerCase (trim item)) raw) in
      if existsb (String.eqb "all") normalized then Some LOG_CATEGORY_VALUES
      else
        match omap category_named normalized with
        | [] => None
        | categories => Some categories
        end
  end.

Definition normalizeLoggingOverrides (input : option LoggingInput) : Overrides :=
  match input with
  | None => mkOverrides None None None None None None None
  | Some input =>
      mkOverrides (in_enabled input) (in_logPayloads input)
        (match normalizeLogLevel (in_level input) with
         | Some l => if truthy (Some (level_text l)) then Some l else None
         | None => None
         end)
        (normalizeLogFormat (in_format input))
        (match in_destination input with
         | Some d => if truthy (Some (trim d)) then Some (trim d) else None
         | None => None
         end)
        (normalizeLogCategories (in_categories input))
        (match in_payloadMaxChars input with
         | Some n => if JS.isFinite n && JS.gt0 n then Some n else None
         | None => None
         end)
  end.

(** [{ ...baseConfig, ...overrides }]. *)
Definition spread (baseConfig : LoggingConfig) (overrides : Overrides) : LoggingConfig :=
  mkLoggingConfig
    (default (enabled baseConfig) (o_enabled overrides))
    (default (level baseConfig) (o_level overrides))
    (default (format baseConfig) (o_format overrides))
    (default (destination baseConfig) (o_destination overrides))
    (default (categories baseConfig) (o_categories overrides))
    (default (logPayloads baseConfig) (o_logPayloads overrides))
    (match o_payloadMaxChars overrides with
     | Some n => Some n
     | None => payloadMaxChars baseConfig
     end)
    (disabledByCli baseConfig).

Definition with_enabled (b : bool) (c : LoggingConfig) : LoggingConfig :=
  mkLoggingConfig b (level c) (format c) (destination c) (categories c) (logPayloads c)
    (payloadMaxChars c) (disabledByCli c).

Definition is_off (l : LevelSetting) : bool :=
  match l with
  | off => true
  | _ => false
  end.

(** The object [envOverrides] of [resolveLoggingConfig]. *)
Definition envOverrides (env : Env) : LoggingInput :=
  mkLoggingInput
    (parseBooleanEnv (DYNAMIC_MCP_LOG_ENABLED env))
    (DYNAMIC_MCP_LOG_LEVEL env)
    (DYNAMIC_MCP_LOG_FORMAT env)
    (DYNAMIC_MCP_LOG_DESTINATION env)
    (text <$> DYNAMIC_MCP_LOG_CATEGORIES env)
    (parseBooleanEnv (DYNAMIC_MCP_LOG_PAYLOADS_ENABLED env))
    (Some (JS.parseInt (default "" (DYNAMIC_MCP_LOG_PAYLOAD_MAX_CHARS env)))).

Definition resolveLoggingConfig (configLogging cliLogging : option LoggingInput)
    (logDisabled : bool) (env : Env) : LoggingConfig :=
  let resolved := DEFAULT_LOGGING in
  let resolved := spread resolved (normalizeLoggingOverrides configLogging) in
  let resolved := spread resolved (normalizeLoggingOverrides (Some (envOverrides env))) in
  let resolved := spread resolved (normalizeLoggingOverrides cliLogging) in
  let disabledByCli := logDisabled in
  let resolved :=
    if disabledByCli || is_off (level resolved) then with_enabled false resolved
    else resolved in
  mkLoggingConfig (enabled resolved) (level resolved) (format resolved) (destination resolved)
    (categories resolved) (logPayloads resolved) (payloadMaxChars resolved) disabledByCli.

Definition resolveToolLoggingConfig (baseConfig : option LoggingConfig)
    (toolLogging : option LoggingInput) : option LoggingConfig :=
  match baseConfig with
  | None => None
  | Some baseConfig =>
      if disabledByCli baseConfig then Some (with_enabled false baseConfig)
      else
        let overrides := normalizeLoggingOverrides toolLogging in
        let merged := spread baseConfig overrides in
        let merged :=
          match o_enabled overrides with
          | Some b => with_enabled b merged
          | None => with_enabled (enabled baseConfig) merged
          end in
        let merged :=
          match o_level overrides with
          | Some off => with_enabled false merged
          | _ => merged
          end in
        Some merged
  end.

End Builtins.

(** The [loggingArgs] of the command line as [resolveLoggingConfig] reads
    them. *)
Definition cliLogging (args : LoggingArgs) : LoggingInput :=
  mkLoggingInput None (arg_level args) (arg_format args) (arg_destination args)
    (text <$> arg_categories args)
    (if arg_logPayloads args then Some true else None)
    (arg_payloadMaxChars args).

(** What the closures of a logger hold. *)
Record LoggerState : Type := mkLoggerState {
  config : LoggingConfig;
  levelValue : LevelValue;
  categorySet : list Category;
}.

Definition createLogger (loggingConfig : option LoggingConfig) : LoggerState :=
  let config := default DEFAULT_LOGGING loggingConfig in
  mkLoggerState config
    (match level config with
     | Level l => rank (LOG_LEVELS l)
     | off => rank (LOG_LEVELS log_info)
     | inherited _ => not_a_number
     end)
    (categories config).

(** [levelValue >= LOG_LEVELS.debug]. *)
Definition shouldLogPayloads (lg : LoggerState) : bool :=
  logPayloads (config lg)
  || match levelValue lg with
     | rank v => (LOG_LEVELS log_debug <=? v)%Z
     | not_a_number => false
     end.

(** [levelRank > levelValue] is false when [levelValue] is not a number. *)
Definition shouldLog (lg : LoggerState) (l : LogLevel) (category : Category) : bool :=
  if negb (enabled (config lg)) then false
  else if match levelValue lg with
          | rank v => (v <? LOG_LEVELS l)%Z
          | not_a_number => false
          end then false
  else if (length (categorySet lg) =? 0)%nat then false
  else if negb (existsb (category_eqb category) (categorySet lg)) then false
  else true.

End Logging.

(** The loggers of [main]: the server's, and the one [registerConfiguredTools]
    makes for a tool with the [logging] block [toolLogging]. *)
Definition serverLogger (toLowerCase : string -> string) (inherited_property : string -> bool)
    (configLogging : option Logging.LoggingInput) (args : CliArgs) (env : Logging.Env)
    : Logging.LoggerState :=
  Logging.createLogger
    (Some (Logging.resolveLoggingConfig toLowerCase inherited_property configLogging
             (Some (Logging.cliLogging (loggingArgs args))) (logDisabled args) env)).

Definition toolLogger (toLowerCase : string -> string) (inherited_property : string -> bool)
    (configLogging : option Logging.LoggingInput) (args : CliArgs) (env : Logging.Env)
    (toolLogging : option Logging.LoggingInput) : Logging.LoggerState :=
  Logging.createLogger
    (Logging.resolveToolLoggingConfig toLowerCase inherited_property
       (Some (Logging.resolveLoggingConfig toLowerCase inherited_property configLogging
                (Some (Logging.cliLogging (loggingArgs args))) (logDisabled args) env))
       toolLogging).

(** [toLowerCase] on ASCII text, for the examples. *)
Definition ascii_toLowerCase (s : string) : string :=
  string_of_list_ascii
    (map (fun c =>
            let n := N_of_ascii c in
            if (65 <=? n)%N && (n <=? 90)%N then ascii_of_N (n + 32) else c)
       (list_ascii_of_string s)).

(** The names [Object.prototype] has in every engine, for the examples. *)
Definition standard_inherited (name : string) : bool :=
  existsb (String.eqb name)
    ["constructor"; "hasOwnProperty"; "isPrototypeOf"; "propertyIsEnumerable";
     "toLocaleString"; "toString"; "valueOf"; "__proto__"].

(** * Properties of the number primitives *)

(** ** Evaluation on known values *)

Example toString_safe : JS.toStringZ 1200000 = "1200000".
Proof. reflexivity. Qed.

Example toString_neg : JS.toStringZ (-42) = "-42".
Proof. reflexivity. Qed.

Example toString_2_64 : JS.toStringZ (2 ^ 64) = "18446744073709552000".
Proof. vm_compute. reflexivity. Qed.

Example toString_1e21 : JS.toStringZ (10 ^ 21) = "1e+21".
Proof. vm_compute. reflexivity. Qed.

Example toString_2_70 : JS.toStringZ (2 ^ 70) = "1.1805916207174113e+21".
Proof. vm_compute. reflexivity. Qed.

Example toString_max : JS.toStringZ ((2 ^ 53 - 1) * 2 ^ 971) = "1.7976931348623157e+308".
Proof. vm_compute. reflexivity. Qed.

Example incr_saturates : JS.incr (2 ^ 53) = (2 ^ 53)%Z.
Proof. vm_compute. reflexivity. Qed.

Example of_Z_overflow : JS.of_Z (2 ^ 1024 - 2 ^ 970) = JS.Infinity false.
Proof. vm_compute. reflexivity. Qed.

Example of_Z_max : JS.of_Z (2 ^ 1024 - 2 ^ 970 - 1) = JS.Num ((2 ^ 53 - 1) * 2 ^ 971).
Proof. vm_compute. reflexivity. Qed.

Example parseInt_plain : JS.parseInt "1234" = JS.Num 1234.
Proof. reflexivity. Qed.

Example parseInt_suffix : JS.parseInt "  +12abc" = JS.Num 12.
Proof. reflexivity. Qed.

Example parseInt_neg : JS.parseInt "-5" = JS.Num (-5).
Proof. reflexivity. Qed.

Example parseInt_empty : JS.parseInt "" = JS.NaN.
Proof. reflexivity. Qed.

Example parseInt_word : JS.parseInt "abc" = JS.NaN.
Proof. reflexivity. Qed.

(** ** Exact and saturating arithmetic *)

Section Rounding.
Local Open Scope Z_scope.

Lemma MAX_SAFE_eq : JS.MAX_SAFE = 9007199254740992%Z.
Proof. reflexivity. Qed.

Lemma round53_small (m : Z) : (0 <= m < 2 ^ 53)%Z -> JS.round53 m = m.
Proof.
  intros [H0 H1]. unfold JS.round53.
  assert (Z.log2 m <= 52)%Z as Hl.
  { destruct (Z.eq_dec m 0) as [->|Hne]; [cbn; lia|].
    assert (Z.log2 m < 53)%Z by (apply Z.log2_lt_pow2; lia). lia. }
  destruct (Z.leb_spec (Z.log2 m - 52) 0); [reflexivity | lia].
Qed.

Lemma round53_exact (m : Z) : (0 <= m <= 2 ^ 53)%Z -> JS.round53 m = m.
Proof.
  intros [H0 H1]. destruct (Z.eq_dec m (2 ^ 53)) as [->|Hne].
  - vm_compute. reflexivity.
  - apply round53_small. lia.
Qed.

Lemma round53_big (m : Z) : (2 ^ 53 <= m)%Z -> (2 ^ 53 <= JS.round53 m)%Z.
Proof.
  intros Hm. unfold JS.round53.
  assert (53 <= Z.log2 m)%Z as Hl.
  { change 53%Z with (Z.log2 (2 ^ 53)). apply Z.log2_le_mono. exact Hm. }
  destruct (Z.leb_spec (Z.log2 m - 52) 0) as [He|He]; [lia|].
  set (e := (Z.log2 m - 52)%Z) in *.
  cbv zeta.
  rewrite Z.shiftl_mul_pow2 by lia.
  rewrite Z.shiftr_div_pow2 by lia.
  assert (0 < 2 ^ e)%Z as Hp by (apply Z.pow_pos_nonneg; lia).
  assert (2 ^ 52 <= m / 2 ^ e)%Z as Hq.
  { apply Z.div_le_lower_bound; [exact Hp|].
    rewrite Z.mul_comm, <- Z.pow_add_r by lia.
    replace (52 + e)%Z with (Z.log2 m) by (unfold e; lia).
    apply Z.log2_spec.
    assert (0 < 2 ^ 53)%Z by (apply Z.pow_pos_nonneg; lia). lia. }
  assert (2 ^ 1 <= 2 ^ e)%Z as Hp2 by (apply Z.pow_le_mono_r; lia).
  change (2 ^ 1)%Z with 2%Z in Hp2.
  change (2 ^ 53)%Z with (2 ^ 52 * 2)%Z.
  destruct (_ || _); nia.
Qed.

Lemma round_double_exact (z : Z) : 0 <= z <= 2 ^ 53 -> JS.round_double z = z.
Proof.
  intros H. unfold JS.round_double.
  rewrite (Z.abs_eq z) by lia. rewrite round53_exact by lia.
  destruct z; cbn; lia.
Qed.

Lemma incr_exact (c : Z) : 0 <= c < JS.MAX_SAFE -> JS.incr c = c + 1.
Proof.
  rewrite MAX_SAFE_eq. intros H. unfold JS.incr.
  apply round_double_exact. change (2 ^ 53) with 9007199254740992. lia.
Qed.

Lemma incr_big (c : Z) : JS.MAX_SAFE <= c -> JS.MAX_SAFE <= JS.incr c.
Proof.
  rewrite MAX_SAFE_eq. intros H. unfold JS.incr, JS.round_double.
  rewrite (Z.abs_eq (c + 1)) by lia.
  assert (2 ^ 53 <= JS.round53 (c + 1)) as Hr.
  { apply round53_big. change (2 ^ 53) with 9007199254740992. lia. }
  change (2 ^ 53) with 9007199254740992 in Hr.
  replace (Z.sgn (c + 1)) with 1 by (symmetry; apply Z.sgn_pos; lia).
  lia.
Qed.

Lemma of_Z_safe (z : Z) : 0 <= z <= JS.MAX_SAFE -> JS.of_Z z = JS.Num z.
Proof.
  rewrite MAX_SAFE_eq. intros H. unfold JS.of_Z.
  rewrite round_double_exact by (change (2 ^ 53) with 9007199254740992; lia).
  destruct (Z.leb_spec (2 ^ 1024) (Z.abs z)) as [Hbig|]; [|reflexivity].
  exfalso. rewrite Z.abs_eq in Hbig by lia.
  assert (2 ^ 53 < 2 ^ 1024) by (apply Z.pow_lt_mono_r; lia).
  change (2 ^ 53) with 9007199254740992 in *. lia.
Qed.

End Rounding.

(** ** Decimal numerals *)

Lemma free_of_digits (d : uint) : free_of "_" (NilEmpty.string_of_uint d) = true.
Proof. induction d; cbn; auto. Qed.

Lemma free_of_decimal (z : Z) : free_of "_" (JS.decimal z) = true.
Proof.
  unfold JS.decimal, NilZero.string_of_int, NilZero.string_of_uint.
  destruct (Z.to_int z) as [d|d]; destruct d; cbn; auto using free_of_digits.
Qed.

Lemma to_int_proper (z : Z) : Z.to_int z <> Pos Nil /\ Z.to_int z <> Neg Nil.
Proof.
  destruct z as [|p|p]; cbn; split; try discriminate;
    intros H; injection H as H; exact (DecimalPos.Unsigned.to_uint_nonnil p H).
Qed.

Lemma decimal_inj (x y : Z) : JS.decimal x = JS.decimal y -> x = y.
Proof.
  unfold JS.decimal. intros H.
  destruct (to_int_proper x) as [Hx1 Hx2], (to_int_proper y) as [Hy1 Hy2].
  assert (Some (Z.to_int x) = Some (Z.to_int y)) as E.
  { rewrite <- (NilZero.isi (Z.to_int x)), <- (NilZero.isi (Z.to_int y)) by assumption.
    now rewrite H. }
  injection E as E. rewrite <- (DecimalZ.of_to x), <- (DecimalZ.of_to y). now rewrite E.
Qed.

Lemma toStringZ_safe (z : Z) : (Z.abs z <= JS.MAX_SAFE)%Z -> JS.toStringZ z = JS.decimal z.
Proof.
  intros H. unfold JS.toStringZ.
  destruct (Z.leb_spec (Z.abs z) JS.MAX_SAFE); [reflexivity | lia].
Qed.

Lemma append_nil_l (s : string) : "" ++ s = s.
Proof. reflexivity. Qed.

Lemma append_cons (c : ascii) (s t : string) : String c s ++ t = String c (s ++ t).
Proof. reflexivity. Qed.

Lemma underscore_not_free (b y : string) : free_of "_" (b ++ String "_" y) = false.
Proof.
  induction b as [|c b IH].
  - reflexivity.
  - rewrite append_cons. cbn [free_of]. rewrite IH. apply andb_false_r.
Qed.

(** Splitting at the last underscore. *)
Lemma split_last_underscore (a b x y : string) :
  free_of "_" x = true -> free_of "_" y = true ->
  a ++ String "_" x = b ++ String "_" y -> x = y.
Proof.
  intros Hx Hy. revert b.
  induction a as [|c a IH]; intros [|c' b] E;
    rewrite ?append_cons, ?append_nil_l in E; injection E; clear E; intros; subst.
  - reflexivity.
  - now rewrite underscore_not_free in Hx.
  - now rewrite underscore_not_free in Hy.
  - eauto.
Qed.

Lemma jobIdOf_counter_inj (t1 t2 c1 c2 : Z) :
  (Z.abs c1 <= JS.MAX_SAFE)%Z -> (Z.abs c2 <= JS.MAX_SAFE)%Z ->
  jobIdOf t1 c1 = jobIdOf t2 c2 -> c1 = c2.
Proof.
  intros H1 H2 E. unfold jobIdOf in E.
  rewrite !append_cons, !append_nil_l in E. injection E as E.
  apply split_last_underscore in E.
  - rewrite !toStringZ_safe in E by assumption. now apply decimal_inj.
  - rewrite toStringZ_safe by assumption. apply free_of_decimal.
  - rewrite toStringZ_safe by assumption. apply free_of_decimal.
Qed.

(** ** Parsing a decimal numeral *)

Lemma digits_prefix_numeral (d : uint) :
  JS.digits_prefix (NilEmpty.string_of_uint d)
  = list_ascii_of_string (NilEmpty.string_of_uint d).
Proof.
  induction d; cbn [NilEmpty.string_of_uint JS.digits_prefix list_ascii_of_string];
    [reflexivity
    | match goal with
      | |- context [JS.is_digit ?c] => change (JS.is_digit c) with true
      end; cbv iota; congruence ..].
Qed.

Lemma fold_digits_acc (d : uint) : forall acc : positive,
  fold_left (fun acc d => (acc * 10 + JS.digit_value d)%Z)
    (list_ascii_of_string (NilEmpty.string_of_uint d)) (Z.pos acc)
  = Z.pos (Pos.of_uint_acc d acc).
Proof.
  induction d; intros acc; cbn [NilEmpty.string_of_uint list_ascii_of_string fold_left Pos.of_uint_acc];
    [reflexivity
    | rewrite <- IHd; f_equal;
      match goal with
      | |- context [JS.digit_value ?c] =>
          let v := eval vm_compute in (JS.digit_value c) in
          change (JS.digit_value c) with v
      end; lia ..].
Qed.

Lemma mathInt_numeral (d : uint) :
  JS.mathInt (list_ascii_of_string (NilEmpty.string_of_uint d)) = Z.of_N (Pos.of_uint d).
Proof.
  unfold JS.mathInt.
  induction d; cbn [NilEmpty.string_of_uint list_ascii_of_string fold_left Pos.of_uint];
    [reflexivity | exact IHd | apply fold_digits_acc ..].
Qed.

Lemma trimStart_digit (a : ascii) (s : string) :
  JS.is_digit a = true -> JS.trimStart (String a s) = String a s.
Proof.
  intros H.
  assert (JS.ws1 a = false /\ (forall b, JS.ws2 a b = false) /\ (forall b c, JS.ws3 a b c = false))
    as (H1 & H2 & H3).
  { destruct a as [[] [] [] [] [] [] [] []]; try discriminate H; repeat split; reflexivity. }
  cbn [JS.trimStart]. rewrite H1.
  destruct s as [|b [|c s]]; rewrite ?H2, ?H3; reflexivity.
Qed.

Lemma parseInt_leading_digit (a : ascii) (s : string) :
  JS.is_digit a = true ->
  JS.parseInt (String a s) = JS.of_Z (JS.mathInt (JS.digits_prefix (String a s))).
Proof.
  intros H. unfold JS.parseInt. rewrite trimStart_digit by assumption.
  assert (JS.digits_prefix (String a s) = a :: JS.digits_prefix s) as E
    by (cbn; now rewrite H).
  destruct a as [[] [] [] [] [] [] [] []]; try discriminate H;
    rewrite E; f_equal; lia.
Qed.

Lemma parseInt_decimal (n : Z) :
  (0 < n)%Z -> JS.parseInt (JS.decimal n) = JS.of_Z n.
Proof.
  intros Hn. destruct n as [|p|p]; try lia.
  unfold JS.decimal. cbn [Z.to_int NilZero.string_of_int].
  pose proof (DecimalPos.Unsigned.to_uint_nonnil p) as Hnil.
  pose proof (DecimalPos.Unsigned.of_to p) as Hof.
  assert (NilZero.string_of_uint (Pos.to_uint p) = NilEmpty.string_of_uint (Pos.to_uint p)) as ->
    by (destruct (Pos.to_uint p); [contradiction | reflexivity ..]).
  assert (JS.parseInt (NilEmpty.string_of_uint (Pos.to_uint p))
          = JS.of_Z (JS.mathInt (JS.digits_prefix (NilEmpty.string_of_uint (Pos.to_uint p))))) as ->.
  { destruct (Pos.to_uint p); [contradiction | apply parseInt_leading_digit; reflexivity ..]. }
  rewrite digits_prefix_numeral, mathInt_numeral, Hof. reflexivity.
Qed.

(** A numeral is read up to the first character that is not a digit. *)
Lemma digits_prefix_none (s : string) :
  starts_with_digit s = false -> JS.digits_prefix s = [].
Proof. destruct s as [|c s]; cbn; [reflexivity | now intros ->]. Qed.

Lemma digits_prefix_numeral_app (d : uint) (rest : string) :
  starts_with_digit rest = false ->
  JS.digits_prefix (NilEmpty.string_of_uint d ++ rest)
  = list_ascii_of_string (NilEmpty.string_of_uint d).
Proof.
  intros Hrest.
  induction d; cbn [NilEmpty.string_of_uint list_ascii_of_string];
    [rewrite append_nil_l; now apply digits_prefix_none
    | rewrite append_cons; cbn [JS.digits_prefix];
      match goal with
      | |- context [JS.is_digit ?c] => change (JS.is_digit c) with true
      end; cbv iota; congruence ..].
Qed.

Lemma numeral_nonempty (p : positive) :
  exists c t, NilEmpty.string_of_uint (Pos.to_uint p) = String c t /\ JS.is_digit c = true.
Proof.
  pose proof (DecimalPos.Unsigned.to_uint_nonnil p) as Hnil.
  destruct (Pos.to_uint p); [contradiction | cbn; eauto ..].
Qed.

Lemma numeral_NilZero (p : positive) :
  NilZero.string_of_uint (Pos.to_uint p) = NilEmpty.string_of_uint (Pos.to_uint p).
Proof.
  pose proof (DecimalPos.Unsigned.to_uint_nonnil p) as Hnil.
  destruct (Pos.to_uint p); [contradiction | reflexivity ..].
Qed.

Lemma trimStart_sign (c : ascii) (s : string) :
  c = "-"%char \/ c = "+"%char -> JS.trimStart (String c s) = String c s.
Proof.
  intros [-> | ->]; cbn [JS.trimStart];
    (destruct s as [|b [|b' s]]; [reflexivity | reflexivity |]);
    match goal with
    | |- context [JS.ws1 ?c] => change (JS.ws1 c) with false
    end; cbv iota;
    match goal with
    | |- context [JS.ws2 ?c ?b] => change (JS.ws2 c b) with false
    end; cbv iota;
    match goal with
    | |- context [JS.ws3 ?c ?b ?b'] => change (JS.ws3 c b b') with false
    end; reflexivity.
Qed.

(** The decimal numeral of any integer, followed by anything that does not
    go on with a digit, is read as that integer. *)
Lemma parseInt_numeral_then (n : Z) (rest : string) :
  starts_with_digit rest = false -> JS.parseInt (JS.decimal n ++ rest) = JS.of_Z n.
Proof.
  intros Hrest. destruct n as [|p|p].
  - change (JS.decimal 0) with "0". rewrite append_cons, append_nil_l.
    rewrite parseInt_leading_digit by reflexivity.
    cbn [JS.digits_prefix]. change (JS.is_digit "0") with true. cbv iota.
    now rewrite digits_prefix_none.
  - unfold JS.decimal. cbn [Z.to_int NilZero.string_of_int]. rewrite numeral_NilZero.
    destruct (numeral_nonempty p) as (c & t & E & Hc).
    assert (JS.parseInt (NilEmpty.string_of_uint (Pos.to_uint p) ++ rest)
            = JS.of_Z (JS.mathInt (JS.digits_prefix
                                     (NilEmpty.string_of_uint (Pos.to_uint p) ++ rest)))) as ->.
    { rewrite E, append_cons. now apply parseInt_leading_digit. }
    rewrite digits_prefix_numeral_app, mathInt_numeral, DecimalPos.Unsigned.of_to by assumption.
    reflexivity.
  - unfold JS.decimal. cbn [Z.to_int NilZero.string_of_int]. rewrite numeral_NilZero.
    rewrite append_cons. unfold JS.parseInt. rewrite trimStart_sign by now left.
    cbv beta iota zeta. rewrite digits_prefix_numeral_app by assumption.
    pose proof (mathInt_numeral (Pos.to_uint p)) as Hm.
    rewrite DecimalPos.Unsigned.of_to in Hm.
    destruct (numeral_nonempty p) as (c & t & E & _). rewrite E in *.
    cbn [list_ascii_of_string] in *. rewrite Hm. reflexivity.
Qed.

(** Without a digit after the white space and the sign there is no number. *)
Lemma parseInt_no_digit (s : string) :
  starts_with_digit (unsigned_part s) = false -> JS.parseInt s = JS.NaN.
Proof.
  unfold unsigned_part, JS.parseInt. destruct (JS.trimStart s) as [|c t].
  - reflexivity.
  - destruct c as [[] [] [] [] [] [] [] []]; intros H; now rewrite (digits_prefix_none _ H).
Qed.

Lemma parseInt_space (c : ascii) (rest : string) :
  JS.ws1 c = true -> JS.parseInt (String c rest) = JS.parseInt rest.
Proof. intros H. unfold JS.parseInt. cbn [JS.trimStart]. now rewrite H. Qed.

Lemma parseInt_plus (rest : string) :
  starts_with_digit rest = true -> JS.parseInt ("+" ++ rest) = JS.parseInt rest.
Proof.
  intros H. destruct rest as [|c rest]; [discriminate H|]. cbn in H.
  rewrite append_cons, append_nil_l, (parseInt_leading_digit c rest H).
  unfold JS.parseInt. rewrite trimStart_sign by now right. cbv beta iota zeta.
  cbn [JS.digits_prefix]. rewrite H.
  f_equal. lia.
Qed.

Lemma round53_nonneg (m : Z) : (0 <= m)%Z -> (0 <= JS.round53 m)%Z.
Proof.
  intros H. destruct (Z.le_gt_cases m (2 ^ 53)).
  - rewrite round53_exact; lia.
  - pose proof (round53_big m). lia.
Qed.

(** The number of an integer that is not positive is not positive. *)
Lemma of_Z_nonpositive (n : Z) :
  (n <= 0)%Z ->
  match JS.of_Z n with
  | JS.Num z => (z <= 0)%Z
  | _ => True
  end.
Proof.
  intros H. unfold JS.of_Z. destruct (_ <=? _)%Z; [exact I|].
  unfold JS.round_double. pose proof (round53_nonneg (Z.abs n)). nia.
Qed.

(** The number of an integer above [2^53] is at least [2^53], or infinite. *)
Lemma of_Z_beyond (n : Z) :
  (JS.MAX_SAFE < n)%Z ->
  match JS.of_Z n with
  | JS.Num z => (JS.MAX_SAFE <= z)%Z
  | JS.Infinity negative => negative = false
  | JS.NaN => False
  end.
Proof.
  intros H. rewrite MAX_SAFE_eq in *. unfold JS.of_Z.
  assert (JS.round_double n = JS.round53 n) as ->.
  { unfold JS.round_double. rewrite Z.sgn_pos, Z.abs_eq by lia. lia. }
  destruct (_ <=? _)%Z.
  - destruct (Z.ltb_spec n 0); [lia | reflexivity].
  - pose proof (round53_big n). change (2 ^ 53)%Z with 9007199254740992%Z in *. lia.
Qed.

Lemma resolveJobTimeoutMs_cases (a : Ambient) :
  resolveJobTimeoutMs a =
    match JS.parseInt (default "" (jobTimeoutEnv a)) with
    | JS.Num z => if (0 <? z)%Z then JS.Num z else JS.Num 1200000
    | _ => JS.Num 1200000
    end.
Proof.
  unfold resolveJobTimeoutMs.
  destruct (JS.parseInt _) as [| neg | z]; reflexivity.
Qed.

Lemma resolveJobTimeoutMs_positive (a : Ambient) :
  exists z, resolveJobTimeoutMs a = JS.Num z /\ (0 < z)%Z.
Proof.
  rewrite resolveJobTimeoutMs_cases.
  destruct (JS.parseInt _) as [| neg | z]; try (exists 1200000%Z; split; [reflexivity | lia]).
  destruct (Z.ltb_spec 0 z); [exists z | exists 1200000%Z]; split; auto; lia.
Qed.

(** ** The delay of a timer *)

Lemma armed_cases (ms : JS.number) :
  armed ms = match ms with
             | JS.Num z => if (1 <=? z)%Z && (z <=? 2147483647)%Z then JS.Num z else JS.Num 1
             | _ => JS.Num 1
             end.
Proof. reflexivity. Qed.

(** A budget that [resolveJobTimeoutMs] returns is armed as it is when it
    fits a timer. *)
Lemma armed_within (a : Ambient) (z : Z) :
  resolveJobTimeoutMs a = JS.Num z -> (z <= TIMEOUT_MAX)%Z ->
  armed (resolveJobTimeoutMs a) = resolveJobTimeoutMs a.
Proof.
  intros Hz Hmax. destruct (resolveJobTimeoutMs_positive a) as (z' & Hz' & Hpos).
  rewrite Hz in Hz'. injection Hz' as <-. rewrite Hz. unfold armed.
  destruct (Z.leb_spec 1 z); [|lia]. destruct (Z.leb_spec z TIMEOUT_MAX); [reflexivity | lia].
Qed.

(** Beyond that the timer is armed with 1 ms. *)
Lemma armed_beyond (z : Z) : (TIMEOUT_MAX < z)%Z -> armed (JS.Num z) = JS.Num 1.
Proof.
  intros H. unfold armed. destruct (Z.leb_spec z TIMEOUT_MAX); [lia|].
  now rewrite andb_false_r.
Qed.

(** An override beyond what a timer holds: the record and the callback keep
    the budget of 3,000,000,000 ms, the timer is armed with 1 ms. *)
Example oversized_budget_armed_with_1ms :
  resolveJobTimeoutMs (demo_ambient (Some "3000000000")) = JS.Num 3000000000 /\
  timers (snd (demo_start (Some "3000000000"))) !! 0%nat
  = Some (mkTimer (JobTimeout demo_jobId "test-tool" (JS.Num 3000000000) None 0) (JS.Num 1)).
Proof. split; vm_compute; reflexivity. Qed.

(** * The registry along a run *)

(** ** Effects of the callbacks *)

Lemma log_jobs lg l c m w : jobs (log lg l c m w) = jobs w.
Proof. now destruct lg. Qed.

Lemma log_counter lg l c m w : jobIdCounter (log lg l c m w) = jobIdCounter w.
Proof. now destruct lg. Qed.

Lemma terminal_not_running (s : JobStatus) : terminal s <-> is_running s = false.
Proof. unfold terminal. destruct s; cbn; intuition congruence. Qed.

Lemma finalizeJob_skip a f st res w job :
  jobs w !! f_jobId f = Some job -> is_running (status job) = false ->
  finalizeJob a f st res w = w.
Proof. intros H1 H2. unfold finalizeJob. now rewrite H1, H2. Qed.

Lemma onJobTimeout_skip a jobId tool budget lg child w job :
  jobs w !! jobId = Some job -> is_running (status job) = false ->
  onJobTimeout a jobId tool budget lg child w = w.
Proof. intros H1 H2. unfold onJobTimeout. now rewrite H1, H2. Qed.

Lemma finalizeJob_change a f st res w :
  terminal st -> Change w (finalizeJob a f st res w).
Proof.
  intros Hst. unfold finalizeJob.
  destruct (jobs w !! f_jobId f) as [job|] eqn:Hjob; [|now apply Unchanged].
  destruct (is_running (status job)) eqn:Hrun; cbn [negb]; [|now apply Unchanged].
  apply (Finalized w _ (f_jobId f) job st res (isoNow a) (timedOut job)); auto.
  - now destruct (status job).
  - rewrite log_jobs. now destruct (f_timeoutId f).
  - rewrite log_counter. now destruct (f_timeoutId f).
Qed.

Lemma onJobTimeout_change a jobId tool budget lg child w :
  Change w (onJobTimeout a jobId tool budget lg child w).
Proof.
  unfold onJobTimeout.
  destruct (jobs w !! jobId) as [job|] eqn:Hjob; [|now apply Unchanged].
  destruct (is_running (status job)) eqn:Hrun; cbn [negb]; [|now apply Unchanged].
  apply (Finalized w _ jobId job failed
           (mkTaskResult (-1) "" ("Timed out after " ++ JS.toString budget ++ "ms"))
           (isoNow a) (Some true)); auto.
  - now destruct (status job).
  - now right.
  - destruct lg; cbn; destruct (_ !! child) as [c|]; try destruct (hasKill c); reflexivity.
  - destruct lg; cbn; destruct (_ !! child) as [c|]; try destruct (hasKill c); reflexivity.
Qed.

Lemma onJobTimeout_effect a jobId tool budget lg child w job :
  jobs w !! jobId = Some job -> is_running (status job) = true ->
  jobs (onJobTimeout a jobId tool budget lg child w)
  = <[jobId := mkJob failed (toolName job) (startedAt job)
                 (Some (mkTaskResult (-1) "" ("Timed out after " ++ JS.toString budget ++ "ms")))
                 (timeoutMs job) (Some (isoNow a)) (Some true)]> (jobs w) /\
  ((timers (onJobTimeout a jobId tool budget lg child w) = timers w /\
    timerSeq (onJobTimeout a jobId tool budget lg child w) = timerSeq w) \/
   (timers (onJobTimeout a jobId tool budget lg child w)
    = <[timerSeq w := mkTimer (KillEscalation child) (JS.Num 5000)]> (timers w) /\
    timerSeq (onJobTimeout a jobId tool budget lg child w) = S (timerSeq w))).
Proof.
  intros Hjob Hrun. unfold onJobTimeout. rewrite Hjob, Hrun. cbn [negb].
  destruct lg; cbn; destruct (_ !! child) as [c|]; try destruct (hasKill c); cbn; auto.
Qed.

Lemma fire_job_timeout a w id jobId tool budget d lg child job :
  timers w !! id = Some (mkTimer (JobTimeout jobId tool budget lg child) d) ->
  jobs w !! jobId = Some job ->
  status job = running ->
  jobs (fire a id w) !! jobId
  = Some (mkJob failed (toolName job) (startedAt job)
            (Some (mkTaskResult (-1) "" ("Timed out after " ++ JS.toString budget ++ "ms")))
            (timeoutMs job) (Some (isoNow a)) (Some true)).
Proof.
  intros Ht Hl Hrun. unfold fire. rewrite Ht. cbn [callback].
  unfold onJobTimeout. cbn [jobs with_timers]. rewrite Hl, Hrun. cbn [is_running negb].
  destruct lg; cbn; destruct (_ !! child) as [c|]; try destruct (hasKill c);
    cbn; now rewrite lookup_insert_eq.
Qed.

Lemma finalizeJob_other a f st res w k job :
  jobs w !! k = Some job -> is_running (status job) = false ->
  jobs (finalizeJob a f st res w) !! k = Some job.
Proof.
  intros Hl Hrun. unfold finalizeJob.
  destruct (jobs w !! f_jobId f) as [job0|] eqn:Hjob; [|assumption].
  destruct (is_running (status job0)) eqn:Hrun0; cbn [negb]; [|assumption].
  rewrite log_jobs.
  assert (f_jobId f <> k) as Hne by (intros E; rewrite E in Hjob; congruence).
  destruct (f_timeoutId f); cbn; now rewrite lookup_insert_ne.
Qed.

Lemma settle_other a child s w k job :
  jobs w !! k = Some job -> is_running (status job) = false ->
  jobs (settle a child s w) !! k = Some job.
Proof.
  intros Hl Hrun. unfold settle.
  destruct (settling w !! child) as [f|]; [|assumption].
  destruct s; now apply finalizeJob_other.
Qed.

Lemma startTaskAsync_effect a m mid task cwd tool lg w :
  fst (startTaskAsync a m mid task cwd tool lg w)
    = jobIdOf (dateNow a) (JS.incr (jobIdCounter w)) /\
  jobs (snd (startTaskAsync a m mid task cwd tool lg w))
    = <[jobIdOf (dateNow a) (JS.incr (jobIdCounter w)) :=
          mkJob running tool (isoNow a) None (resolveJobTimeoutMs a) None None]> (jobs w) /\
  jobIdCounter (snd (startTaskAsync a m mid task cwd tool lg w)) = JS.incr (jobIdCounter w).
Proof.
  unfold startTaskAsync, generateJobId, execa, setTimeout.
  destruct lg, (JS.gt0 (resolveJobTimeoutMs a)); cbn; auto.
Qed.

Lemma startTaskAsync_timers a m mid task cwd tool lg w :
  timers (snd (startTaskAsync a m mid task cwd tool lg w))
  = <[timerSeq w :=
        mkTimer (JobTimeout (jobIdOf (dateNow a) (JS.incr (jobIdCounter w))) tool
                   (resolveJobTimeoutMs a) lg (length (children w)))
          (armed (resolveJobTimeoutMs a))]> (timers w) /\
  timerSeq (snd (startTaskAsync a m mid task cwd tool lg w)) = S (timerSeq w).
Proof.
  destruct (resolveJobTimeoutMs_positive a) as (z & Hz & Hpos).
  unfold startTaskAsync, generateJobId, execa, setTimeout.
  rewrite Hz. cbn [JS.gt0].
  destruct (Z.ltb_spec 0 z); [|lia].
  destruct lg; cbn; auto.
Qed.

Lemma startTaskAsync_timer a m mid task cwd tool lg w :
  timers (snd (startTaskAsync a m mid task cwd tool lg w)) !! timerSeq w
    = Some (mkTimer
              (JobTimeout (fst (startTaskAsync a m mid task cwd tool lg w)) tool
                 (resolveJobTimeoutMs a) lg (length (children w)))
              (armed (resolveJobTimeoutMs a))) /\
  settling (snd (startTaskAsync a m mid task cwd tool lg w)) !! length (children w)
    = Some (mkFinalizer (fst (startTaskAsync a m mid task cwd tool lg w))
              (Some (timerSeq w)) tool lg).
Proof.
  destruct (resolveJobTimeoutMs_positive a) as (z & Hz & Hpos).
  unfold startTaskAsync, generateJobId, execa, setTimeout.
  rewrite Hz. cbn [JS.gt0].
  destruct (Z.ltb_spec 0 z); [|lia].
  destruct lg; cbn; rewrite !lookup_insert_eq; auto.
Qed.

Lemma executeTask_frame a m mid task cwd outcome w :
  jobs (snd (executeTask a m mid task cwd outcome w)) = jobs w /\
  jobIdCounter (snd (executeTask a m mid task cwd outcome w)) = jobIdCounter w.
Proof. unfold executeTask, execa. cbn. auto. Qed.

Lemma executeTask_settles a m mid task cwd outcome w :
  fst (executeTask a m mid task cwd outcome w)
  = Normal
      match outcome with
      | Fulfilled r =>
          mkTaskResult (default (-1)%Z (r_exitCode r)) (default "" (r_stdout r))
            (default "" (r_stderr r))
      | Rejected msg => mkTaskResult (-1) "" msg
      end.
Proof. unfold executeTask, execa. destruct outcome; reflexivity. Qed.

Lemma step_change (w : World) (e : Event) : Change w (step w e).
Proof.
  destruct e as [a cfg h fullTask cwd outcome | lg jobId | a child s | a id]; cbn [step].
  - destruct h as [tool lg | tool lg]; cbn [invoke].
    + unfold asyncToolHandler.
      destruct (startTaskAsync_effect a (model cfg) (modelId cfg) fullTask cwd (name tool) lg
                  (log lg log_info "requests" "tool_request" w)) as (Hid & Hjobs & Hc).
      destruct (startTaskAsync _ _ _ _ _ _ _ _) as [jobId w1]. cbn in *.
      rewrite log_jobs, log_counter in *.
      eapply (Created w _ (dateNow a)); rewrite ?log_jobs, ?log_counter; eauto; reflexivity.
    + unfold syncToolHandler.
      destruct (executeTask_frame a (model cfg) (modelId cfg) fullTask cwd outcome
                  (log lg log_info "requests" "tool_request" w)) as (Hjobs & Hc).
      destruct (executeTask _ _ _ _ _ _ _) as [[res|msg] w1]; cbn in *;
        rewrite ?log_jobs, ?log_counter in *;
        apply Unchanged; rewrite ?log_jobs, ?log_counter; assumption.
  - unfold checkJobStatus. rewrite log_jobs.
    destruct (jobs w !! jobId); cbn; apply Unchanged; now rewrite ?log_jobs, ?log_counter.
  - unfold settle. destruct (settling w !! child) as [f|]; [|now apply Unchanged].
    destruct s as [r|msg].
    + unfold onFulfilled.
      match goal with
      | |- Change _ (finalizeJob ?a ?f ?st ?res ?w') =>
          assert (Change w' (finalizeJob a f st res w')) as H
      end.
      { apply finalizeJob_change. destruct (_ =? _)%Z; [now left | now right]. }
      destruct H; [eapply Unchanged | eapply Finalized | eapply Created]; eauto.
    + unfold onRejected.
      match goal with
      | |- Change _ (finalizeJob ?a ?f ?st ?res ?w') =>
          assert (Change w' (finalizeJob a f st res w')) as H
      end.
      { apply finalizeJob_change. now right. }
      destruct H; [eapply Unchanged | eapply Finalized | eapply Created]; eauto.
  - unfold fire. destruct (timers w !! id) as [t|]; [|now apply Unchanged].
    destruct (callback t) as [jobId tool budget lg child | child].
    + match goal with
      | |- Change _ (onJobTimeout ?a ?j ?t ?b ?l ?c ?w') =>
          assert (Change w' (onJobTimeout a j t b l c w')) as H by apply onJobTimeout_change
      end.
      destruct H; [eapply Unchanged | eapply Finalized | eapply Created]; eauto.
    + now apply Unchanged.
Qed.

(** Only an asynchronous invocation adds a key to the registry. *)
Lemma finalizeJob_absent a f st res w k :
  jobs w !! k = None -> jobs (finalizeJob a f st res w) !! k = None.
Proof.
  intros Hk. unfold finalizeJob.
  destruct (jobs w !! f_jobId f) as [job|] eqn:Hjob; [|assumption].
  destruct (is_running (status job)); cbn [negb]; [|assumption].
  rewrite log_jobs.
  assert (f_jobId f <> k) as Hne by (intros E; rewrite E in Hjob; congruence).
  destruct (f_timeoutId f); cbn; now rewrite lookup_insert_ne.
Qed.

Lemma onJobTimeout_absent a jobId tool budget lg child w k :
  jobs w !! k = None -> jobs (onJobTimeout a jobId tool budget lg child w) !! k = None.
Proof.
  intros Hk.
  destruct (jobs w !! jobId) as [job|] eqn:Hjob.
  2:{ unfold onJobTimeout. now rewrite Hjob. }
  destruct (is_running (status job)) eqn:Hrun.
  2:{ erewrite onJobTimeout_skip; eauto. }
  destruct (onJobTimeout_effect a jobId tool budget lg child w job Hjob Hrun) as (-> & _).
  rewrite lookup_insert_ne; [assumption|]. intros E. rewrite E in Hjob. congruence.
Qed.

Lemma step_creates w e k :
  jobs w !! k = None -> is_Some (jobs (step w e) !! k) ->
  exists a cfg tool lg fullTask cwd outcome,
    e = Invoke a cfg (AsyncTool tool lg) fullTask cwd outcome.
Proof.
  intros Hk Hsome.
  destruct e as [a cfg [tool lg | tool lg] fullTask cwd outcome | lg jobId | a child s | a id];
    [eauto 10 | exfalso ..]; cbn [step invoke] in Hsome.
  - destruct (executeTask_frame a (model cfg) (modelId cfg) fullTask cwd outcome
                (log lg log_info "requests" "tool_request" w)) as (Hj & _).
    unfold syncToolHandler in Hsome.
    destruct (executeTask _ _ _ _ _ _ _) as [[res|msg] w1]; cbn [snd] in *;
      rewrite ?log_jobs, Hj, log_jobs, Hk in Hsome; now destruct Hsome.
  - unfold checkJobStatus in Hsome. rewrite log_jobs in Hsome.
    destruct (jobs w !! jobId); cbn [snd] in Hsome;
      rewrite ?log_jobs, Hk in Hsome; now destruct Hsome.
  - unfold settle in Hsome. destruct (settling w !! child) as [f|].
    + destruct s; unfold onFulfilled, onRejected in Hsome;
        rewrite finalizeJob_absent in Hsome by exact Hk; now destruct Hsome.
    + rewrite Hk in Hsome. now destruct Hsome.
  - unfold fire in Hsome. destruct (timers w !! id) as [t|].
    + destruct (callback t); [rewrite onJobTimeout_absent in Hsome by exact Hk | cbn in Hsome;
        rewrite Hk in Hsome]; now destruct Hsome.
    + rewrite Hk in Hsome. now destruct Hsome.
Qed.

(** ** Identifiers and statuses *)

Lemma change_counter_big w w' :
  Change w w' -> (JS.MAX_SAFE <= jobIdCounter w)%Z -> (JS.MAX_SAFE <= jobIdCounter w')%Z.
Proof.
  intros [Hj Hc | ? ? ? ? ? ? _ _ _ _ Hc | ? ? _ _ _ Hc] H; rewrite Hc; auto using incr_big.
Qed.

Lemma run_cons w e es : run w (e :: es) = run (step w e) es.
Proof. reflexivity. Qed.

Lemma run_app w es1 es2 : run w (es1 ++ es2) = run (run w es1) es2.
Proof. apply fold_left_app. Qed.

Lemma run_counter_big es : forall w,
  (JS.MAX_SAFE <= jobIdCounter w)%Z -> (JS.MAX_SAFE <= jobIdCounter (run w es))%Z.
Proof.
  induction es as [|e es IH]; intros w H; [exact H|].
  rewrite run_cons. apply IH. eapply change_counter_big; eauto using step_change.
Qed.

Lemma step_counter_safe w e :
  (jobIdCounter (step w e) < JS.MAX_SAFE)%Z -> (jobIdCounter w < JS.MAX_SAFE)%Z.
Proof.
  intros H. destruct (Z_lt_le_dec (jobIdCounter w) JS.MAX_SAFE) as [|Hge]; [assumption|].
  pose proof (change_counter_big _ _ (step_change w e) Hge). lia.
Qed.

Lemma run_counter_safe es w :
  (jobIdCounter (run w es) < JS.MAX_SAFE)%Z -> (jobIdCounter w < JS.MAX_SAFE)%Z.
Proof.
  intros H. destruct (Z_lt_le_dec (jobIdCounter w) JS.MAX_SAFE) as [|Hge]; [assumption|].
  pose proof (run_counter_big es _ Hge). lia.
Qed.

(** The counter grows by at most one per callback, so a run of fewer than
    [2^53] callbacks keeps it in the exact range. *)
Lemma run_counter_steps es : forall w,
  (0 <= jobIdCounter w)%Z ->
  (jobIdCounter w + Z.of_nat (length es) <= JS.MAX_SAFE)%Z ->
  (jobIdCounter (run w es) <= jobIdCounter w + Z.of_nat (length es))%Z.
Proof.
  induction es as [|e es IH]; intros w Hw Hlen; [cbn; lia|].
  rewrite run_cons. cbn [length] in *.
  assert (jobIdCounter w <= jobIdCounter (step w e) <= jobIdCounter w + 1)%Z as Hs.
  { destruct (step_change w e) as [_ Hc | ? ? ? ? ? ? _ _ _ _ Hc | ? ? _ _ _ Hc]; rewrite Hc;
      rewrite ?incr_exact by lia; lia. }
  specialize (IH (step w e)). lia.
Qed.

Lemma short_run_safe es :
  (Z.of_nat (length es) < JS.MAX_SAFE)%Z -> (jobIdCounter (run initial es) < JS.MAX_SAFE)%Z.
Proof.
  intros H. pose proof (run_counter_steps es initial) as Hs. cbn [jobIdCounter initial] in Hs. lia.
Qed.

Lemma issued_fresh w now :
  issued w -> (jobIdCounter w < JS.MAX_SAFE)%Z ->
  jobs w !! jobIdOf now (JS.incr (jobIdCounter w)) = None.
Proof.
  intros [H0 Hk] Hc.
  destruct (jobs w !! _) as [job|] eqn:E; [exfalso|reflexivity].
  destruct (Hk _ _ E) as (now' & c & Hid & Hpos & Hle).
  specialize (Hle Hc). rewrite incr_exact in Hid by lia.
  apply jobIdOf_counter_inj in Hid; lia.
Qed.

Lemma change_issued w w' : Change w w' -> issued w -> issued w'.
Proof.
  intros Hch [H0 Hk].
  destruct Hch as [Hj Hc | id job st res at_ flag Hjob _ _ Hj Hc | now job _ _ Hj Hc].
  - split; rewrite ?Hc, ?Hj; auto.
  - split; rewrite ?Hc; auto. intros k job' Hl. rewrite Hj in Hl.
    destruct (decide (id = k)) as [->|Hne].
    + eauto.
    + rewrite lookup_insert_ne in Hl by assumption. eauto.
  - assert (0 <= JS.incr (jobIdCounter w) /\
            (JS.incr (jobIdCounter w) < JS.MAX_SAFE ->
             JS.incr (jobIdCounter w) = jobIdCounter w + 1))%Z as [Hi0 Hi1].
    { destruct (Z_lt_le_dec (jobIdCounter w) JS.MAX_SAFE) as [Hlt|Hge].
      - rewrite incr_exact by lia. lia.
      - pose proof (incr_big _ Hge) as Hb. rewrite MAX_SAFE_eq in *. lia. }
    split; rewrite ?Hc; auto. intros k job' Hl. rewrite Hj in Hl.
    destruct (decide (jobIdOf now (JS.incr (jobIdCounter w)) = k)) as [<-|Hne].
    + exists now, (JS.incr (jobIdCounter w)). split; [reflexivity|]. split; [|lia].
      destruct (Z_lt_le_dec (jobIdCounter w) JS.MAX_SAFE) as [Hlt|Hge].
      * rewrite incr_exact by lia. lia.
      * pose proof (incr_big _ Hge) as Hb. rewrite MAX_SAFE_eq in *. lia.
    + rewrite lookup_insert_ne in Hl by assumption.
      destruct (Hk _ _ Hl) as (now' & c & Hid & Hpos & Hle).
      exists now', c. split; [assumption|]. split; [assumption|].
      intros Hlt. specialize (Hi1 Hlt). lia.
Qed.

Lemma issued_initial : issued initial.
Proof. split; [cbn; lia|]. intros k job H. cbn in H. now rewrite lookup_empty in H. Qed.

Lemma run_issued es : forall w, issued w -> issued (run w es).
Proof.
  induction es as [|e es IH]; intros w H; [exact H|].
  rewrite run_cons. apply IH. eapply change_issued; eauto using step_change.
Qed.

Lemma change_status w w' k job :
  Change w w' -> issued w -> (jobIdCounter w' < JS.MAX_SAFE)%Z ->
  jobs w !! k = Some job ->
  exists job', jobs w' !! k = Some job' /\
    (job' = job \/ (status job = running /\ terminal (status job'))).
Proof.
  intros Hch Hiss Hlt Hl.
  pose proof (change_counter_big _ _ Hch) as Hbig.
  destruct Hch as [Hj Hc | id job0 st res at_ flag Hjob Hrun Hst Hj Hc | now job0 _ _ Hj Hc];
    rewrite Hj.
  - eauto.
  - destruct (decide (id = k)) as [->|Hne].
    + rewrite Hl in Hjob. injection Hjob as <-. rewrite lookup_insert_eq. eauto.
    + rewrite lookup_insert_ne by assumption. eauto.
  - assert (jobIdCounter w < JS.MAX_SAFE)%Z as Hsafe by lia.
    destruct (decide (jobIdOf now (JS.incr (jobIdCounter w)) = k)) as [<-|Hne].
    + rewrite issued_fresh in Hl by assumption. discriminate.
    + rewrite lookup_insert_ne by assumption. eauto.
Qed.

Lemma run_status es : forall w k job,
  issued w -> (jobIdCounter (run w es) < JS.MAX_SAFE)%Z ->
  jobs w !! k = Some job ->
  exists job', jobs (run w es) !! k = Some job' /\
    (job' = job \/ (status job = running /\ terminal (status job'))).
Proof.
  induction es as [|e es IH]; intros w k job Hiss Hlt Hl; [eauto|].
  rewrite run_cons in *.
  assert (jobIdCounter (step w e) < JS.MAX_SAFE)%Z as Hstep.
  { destruct (Z_lt_le_dec (jobIdCounter (step w e)) JS.MAX_SAFE) as [|Hge]; [assumption|].
    pose proof (run_counter_big es _ Hge). lia. }
  destruct (change_status _ _ k job (step_change w e) Hiss Hstep Hl) as (job1 & Hl1 & H1).
  destruct (IH (step w e) k job1 (change_issued _ _ (step_change w e) Hiss) Hlt Hl1)
    as (job2 & Hl2 & H2).
  exists job2. split; [assumption|].
  destruct H1 as [->|[Hr1 Ht1]]; [assumption|].
  destruct H2 as [->|[Hr2 _]]; [now right|].
  rewrite Hr2 in Ht1. destruct Ht1; discriminate.
Qed.

Lemma change_result_matches w w' :
  Change w w' -> result_matches_status w -> result_matches_status w'.
Proof.
  intros Hch Hinv k job' Hl.
  destruct Hch as [Hj Hc | id job st res at_ flag Hjob Hrun Hst Hj Hc | now job Hrun Hres Hj Hc];
    rewrite Hj in Hl.
  - eauto.
  - destruct (decide (id = k)) as [->|Hne].
    + rewrite lookup_insert_eq in Hl. injection Hl as <-. cbn.
      split; [discriminate|]. intros ->. destruct Hst; discriminate.
    + rewrite lookup_insert_ne in Hl by assumption. eauto.
  - destruct (decide (jobIdOf now (JS.incr (jobIdCounter w)) = k)) as [<-|Hne].
    + rewrite lookup_insert_eq in Hl. injection Hl as <-. now rewrite Hrun, Hres.
    + rewrite lookup_insert_ne in Hl by assumption. eauto.
Qed.

Lemma run_result_matches es : forall w,
  result_matches_status w -> result_matches_status (run w es).
Proof.
  induction es as [|e es IH]; intros w H; [exact H|].
  rewrite run_cons. apply IH. eapply change_result_matches; eauto using step_change.
Qed.

(** A key of the registry was put there by an asynchronous invocation of the
    run. *)
Lemma run_inserted es : forall w k,
  jobs w !! k = None -> is_Some (jobs (run w es) !! k) ->
  exists es1 a cfg tool lg fullTask cwd outcome es2,
    es = (es1 ++ Invoke a cfg (AsyncTool tool lg) fullTask cwd outcome :: es2)%list /\
    jobs (run w es1) !! k = None /\
    is_Some (jobs (step (run w es1)
                     (Invoke a cfg (AsyncTool tool lg) fullTask cwd outcome)) !! k).
Proof.
  induction es as [|e es IH]; intros w k Hk Hsome.
  - cbn in Hsome. rewrite Hk in Hsome. now destruct Hsome.
  - rewrite run_cons in Hsome.
    destruct (jobs (step w e) !! k) as [job|] eqn:Hstep.
    + destruct (step_creates w e k Hk) as (a & cfg & tool & lg & ft & cwd & o & ->);
        [rewrite Hstep; eauto|].
      exists [], a, cfg, tool, lg, ft, cwd, o, es.
      split; [reflexivity|]. split; [exact Hk|]. cbn [run fold_left]. rewrite Hstep. eauto.
    + destruct (IH (step w e) k Hstep Hsome)
        as (es1 & a & cfg & tool & lg & ft & cwd & o & es2 & -> & Hnone & Hin).
      exists (e :: es1), a, cfg, tool, lg, ft, cwd, o, es2.
      split; [reflexivity|]. rewrite run_cons. split; assumption.
Qed.

(** ** Pending timers *)

Lemma finalizeJob_timers_agree a f st res w :
  timers_agree w -> timers_agree (finalizeJob a f st res w).
Proof.
  intros Hinv. unfold finalizeJob.
  destruct (jobs w !! f_jobId f) as [job|] eqn:Hjob; [|assumption].
  destruct (is_running (status job)); cbn [negb]; [|assumption].
  intros id jobId tool budget lg child d Ht.
  assert (timers w !! id = Some (mkTimer (JobTimeout jobId tool budget lg child) d)) as Ht0.
  { destruct (f_logger f), (f_timeoutId f) as [tid|]; cbn in Ht; try exact Ht;
      (destruct (decide (tid = id)) as [->|Hne];
       [now rewrite lookup_delete_eq in Ht | now rewrite lookup_delete_ne in Ht]). }
  destruct (Hinv _ _ _ _ _ _ _ Ht0) as (Hlt & job0 & Hl0 & Hb).
  split; [destruct (f_logger f), (f_timeoutId f); exact Hlt|].
  rewrite log_jobs.
  destruct (decide (f_jobId f = jobId)) as [E|Hne].
  - rewrite E in *. rewrite Hjob in Hl0. injection Hl0 as <-.
    eexists. split; [destruct (f_timeoutId f); cbn; apply lookup_insert_eq|]. exact Hb.
  - exists job0. split; [|exact Hb].
    destruct (f_timeoutId f); cbn; now rewrite lookup_insert_ne.
Qed.

Lemma onJobTimeout_timers_agree a jobId0 tool0 budget0 lg0 child0 w :
  timers_agree w -> timers_agree (onJobTimeout a jobId0 tool0 budget0 lg0 child0 w).
Proof.
  intros Hinv.
  destruct (jobs w !! jobId0) as [job|] eqn:Hjob.
  2:{ unfold onJobTimeout. now rewrite Hjob. }
  destruct (is_running (status job)) eqn:Hrun.
  2:{ erewrite onJobTimeout_skip; eauto. }
  destruct (onJobTimeout_effect a jobId0 tool0 budget0 lg0 child0 w job Hjob Hrun)
    as (Hj & Ht).
  intros id jobId tool budget lg child d Hl. rewrite Hj.
  assert (timers w !! id = Some (mkTimer (JobTimeout jobId tool budget lg child) d) /\
          (timerSeq w <= timerSeq (onJobTimeout a jobId0 tool0 budget0 lg0 child0 w))%nat)
    as (Hl0 & Hseq).
  { destruct Ht as [[Ht Hs] | [Ht Hs]]; rewrite Ht in Hl; rewrite Hs.
    - split; [exact Hl | lia].
    - destruct (decide (timerSeq w = id)) as [<-|Hne].
      + rewrite lookup_insert_eq in Hl. discriminate.
      + rewrite lookup_insert_ne in Hl by assumption. split; [exact Hl | lia]. }
  destruct (Hinv _ _ _ _ _ _ _ Hl0) as (Hlt & job0 & Hjob0 & Hb).
  split; [lia|].
  destruct (decide (jobId0 = jobId)) as [<-|Hne].
  - rewrite Hjob in Hjob0. injection Hjob0 as <-.
    eexists. split; [apply lookup_insert_eq | exact Hb].
  - exists job0. split; [now rewrite lookup_insert_ne | exact Hb].
Qed.

Lemma startTaskAsync_timers_agree a m mid task cwd tool lg w :
  issued w -> (jobIdCounter w < JS.MAX_SAFE)%Z ->
  timers_agree w -> timers_agree (snd (startTaskAsync a m mid task cwd tool lg w)).
Proof.
  intros Hiss Hsafe Hinv.
  destruct (startTaskAsync_effect a m mid task cwd tool lg w) as (_ & Hj & _).
  destruct (startTaskAsync_timers a m mid task cwd tool lg w) as (Ht & Hs).
  pose proof (issued_fresh w (dateNow a) Hiss Hsafe) as Hfresh.
  intros id jobId tool' budget lg' child d Hl. rewrite Hj, Hs. rewrite Ht in Hl.
  destruct (decide (timerSeq w = id)) as [<-|Hne].
  - rewrite lookup_insert_eq in Hl. injection Hl as <- <- <- <- <- <-.
    split; [lia|]. eexists. split; [apply lookup_insert_eq | reflexivity].
  - rewrite lookup_insert_ne in Hl by assumption.
    destruct (Hinv _ _ _ _ _ _ _ Hl) as (Hlt & job0 & Hjob0 & Hb).
    split; [lia|]. exists job0. split; [|exact Hb].
    rewrite lookup_insert_ne; [assumption|]. intros E. rewrite E in Hfresh. congruence.
Qed.

Lemma log_timers_agree lg l c m w : timers_agree w -> timers_agree (log lg l c m w).
Proof. now destruct lg. Qed.

Lemma step_timers_agree w e :
  issued w -> (jobIdCounter w < JS.MAX_SAFE)%Z ->
  timers_agree w -> timers_agree (step w e).
Proof.
  intros Hiss Hsafe Hinv.
  destruct e as [a cfg h fullTask cwd outcome | lg jobId | a child s | a id]; cbn [step].
  - destruct h as [tool lg | tool lg]; cbn [invoke].
    + unfold asyncToolHandler.
      pose proof (startTaskAsync_timers_agree a (model cfg) (modelId cfg) fullTask cwd
                    (name tool) lg (log lg log_info "requests" "tool_request" w)) as H.
      destruct (startTaskAsync _ _ _ _ _ _ _ _) as [jobId w1]. cbn [snd] in *.
      apply log_timers_agree, H; auto using log_timers_agree.
      * destruct lg; exact Hiss.
      * now rewrite log_counter.
    + unfold syncToolHandler, executeTask, execa.
      destruct outcome, lg; exact Hinv.
  - unfold checkJobStatus. rewrite log_jobs.
    destruct (jobs w !! jobId), lg; exact Hinv.
  - unfold settle. destruct (settling w !! child) as [f|]; [|assumption].
    destruct s; apply finalizeJob_timers_agree; exact Hinv.
  - unfold fire. destruct (timers w !! id) as [t|] eqn:Ht; [|assumption].
    assert (timers_agree (with_timers (delete id) w)) as Hdel.
    { intros id' jobId tool budget lg child d Hl. cbn in Hl.
      destruct (decide (id = id')) as [->|Hne].
      - now rewrite lookup_delete_eq in Hl.
      - rewrite lookup_delete_ne in Hl by assumption. exact (Hinv _ _ _ _ _ _ _ Hl). }
    destruct (callback t) as [jobId tool budget lg child | child].
    + now apply onJobTimeout_timers_agree.
    + exact Hdel.
Qed.

Lemma run_timers_agree es : forall w,
  issued w -> (jobIdCounter (run w es) < JS.MAX_SAFE)%Z ->
  timers_agree w -> timers_agree (run w es).
Proof.
  induction es as [|e es IH]; intros w Hiss Hsafe Hinv; [exact Hinv|].
  rewrite run_cons in *.
  assert (jobIdCounter w < JS.MAX_SAFE)%Z as Hw.
  { destruct (Z_lt_le_dec (jobIdCounter w) JS.MAX_SAFE) as [|Hge]; [assumption|].
    pose proof (run_counter_big es _ (change_counter_big _ _ (step_change w e) Hge)). lia. }
  apply IH; auto using step_timers_agree.
  eapply change_issued; eauto using step_change.
Qed.

Lemma timers_agree_initial : timers_agree initial.
Proof. intros id jobId tool budget lg child d H. cbn in H. now rewrite lookup_empty in H. Qed.

Create HintDb loop.
#[local] Hint Resolve issued_initial run_issued timers_agree_initial step_change : loop.

(** ** Registration *)

Lemma registerConfiguredTools_fold serverAsync loggerOf (ts : list Tool) :
  forall (acc : list Registration) (b : bool),
  fold_left
    (fun '(registered, hasAsyncTools) tool =>
       let toolLogger := loggerOf tool in
       let toolAsync := resolveToolAsyncFlag tool serverAsync in
       if toolAsync then
         (registered ++
            [mkRegistration (name tool)
               (description tool ++ nl ++ nl
                ++ "This tool runs asynchronously and returns a job ID. Use 'check-job-status' to poll for completion.")
               (AsyncTool tool toolLogger)],
          true)
       else
         (registered ++ [mkRegistration (name tool) (description tool) (SyncTool tool toolLogger)],
          hasAsyncTools))%list
    ts (acc, b)
  = ((acc ++ map (fun tool =>
               if resolveToolAsyncFlag tool serverAsync then
                 mkRegistration (name tool)
                   (description tool ++ nl ++ nl
                    ++ "This tool runs asynchronously and returns a job ID. Use 'check-job-status' to poll for completion.")
                   (AsyncTool tool (loggerOf tool))
               else mkRegistration (name tool) (description tool) (SyncTool tool (loggerOf tool)))
             ts)%list,
     b || existsb (fun tool => resolveToolAsyncFlag tool serverAsync) ts).
Proof.
  induction ts as [|t ts IH]; intros acc b; cbn [fold_left map existsb].
  - now rewrite app_nil_r, orb_false_r.
  - destruct (resolveToolAsyncFlag t serverAsync) eqn:E; cbv zeta; rewrite IH, <- app_assoc; cbn [app].
    + now rewrite orb_true_r.
    + reflexivity.
Qed.

(** * The claims of the specification *)

(** ** The job lifecycle *)

(** C1. Between any two points of a run, a job of the registry is still there
    and either its record is the same or it went from [running] to
    [completed] or [failed]; once its status is terminal the record never
    changes again, and the completion callback, the error callback and the
    timeout handler of that job leave the whole program state as it is. The
    run is one in which the counter of identifiers stays in the range where
    [++jobIdCounter] is exact, as it does in every run of fewer than [2^53]
    callbacks ([short_run_safe]). *)
Theorem first_finalizer_wins (es1 es2 : list Event) (jobId : string) (job : Job) :
  jobs (run initial es1) !! jobId = Some job ->
  (jobIdCounter (run (run initial es1) es2) < JS.MAX_SAFE)%Z ->
  exists job',
    jobs (run (run initial es1) es2) !! jobId = Some job' /\
    (job' = job \/ (status job = running /\ terminal (status job'))) /\
    (terminal (status job) ->
       job' = job /\
       (forall a f r, f_jobId f = jobId ->
          onFulfilled a f r (run initial es1) = run initial es1) /\
       (forall a f msg, f_jobId f = jobId ->
          onRejected a f msg (run initial es1) = run initial es1) /\
       (forall a tool budget lg child,
          onJobTimeout a jobId tool budget lg child (run initial es1) = run initial es1)).
Proof.
  intros Hl Hsafe.
  destruct (run_status es2 (run initial es1) jobId job) as (job' & Hl' & Hcase);
    auto with loop.
  exists job'. split; [assumption|]. split; [assumption|].
  intros Hterm.
  assert (is_running (status job) = false) as Hrun by now apply terminal_not_running.
  split; [|split; [|split]].
  - destruct Hcase as [->|[Hr _]]; [reflexivity|].
    rewrite Hr in Hrun. discriminate.
  - intros a f r <-. unfold onFulfilled. eapply finalizeJob_skip; eauto.
  - intros a f msg <-. unfold onRejected. eapply finalizeJob_skip; eauto.
  - intros a tool budget lg child. eapply onJobTimeout_skip; eauto.
Qed.

(** C1 on the scenario: the job has timed out, then its subprocess exits. *)
Lemma first_finalizer_wins_witness :
  exists job',
    jobs (run (run initial demo_timed_out) demo_late_exit) !! demo_jobId = Some job' /\
    (job' = demo_failed_job \/
     (status demo_failed_job = running /\ terminal (status job'))) /\
    (terminal (status demo_failed_job) ->
       job' = demo_failed_job /\
       (forall a f r, f_jobId f = demo_jobId ->
          onFulfilled a f r (run initial demo_timed_out) = run initial demo_timed_out) /\
       (forall a f msg, f_jobId f = demo_jobId ->
          onRejected a f msg (run initial demo_timed_out) = run initial demo_timed_out) /\
       (forall a tool budget lg child,
          onJobTimeout a demo_jobId tool budget lg child (run initial demo_timed_out)
          = run initial demo_timed_out)).
Proof.
  apply (first_finalizer_wins demo_timed_out demo_late_exit demo_jobId demo_failed_job).
  - vm_compute. reflexivity.
  - vm_compute. reflexivity.
Defined.

(** ** The timeout supervisor *)

(** C2. When the timer of a job fires while the job is still [running], the
    record becomes [failed] with [timedOut] true, [completedAt] stamped and
    the result [{exitCode: -1, stdout: "", stderr: "Timed out after
    <timeoutMs>ms"}]; after that the completion and error callbacks of the
    same job change nothing, and no settlement of any subprocess alters the
    record. In a state the program reaches, the budget the timer prints is
    the [timeoutMs] of the job. *)
Theorem timeout_finalizes_as_failed (a : Ambient) (w : World) (id : nat)
    (jobId tool : string) (budget d : JS.number) (lg : option Logger) (child : nat) (job : Job) :
  timers w !! id = Some (mkTimer (JobTimeout jobId tool budget lg child) d) ->
  jobs w !! jobId = Some job ->
  status job = running ->
  let timed :=
    mkJob failed (toolName job) (startedAt job)
      (Some (mkTaskResult (-1) "" ("Timed out after " ++ JS.toString budget ++ "ms")))
      (timeoutMs job) (Some (isoNow a)) (Some true) in
  jobs (fire a id w) !! jobId = Some timed /\
  (forall a' f r, f_jobId f = jobId -> onFulfilled a' f r (fire a id w) = fire a id w) /\
  (forall a' f msg, f_jobId f = jobId -> onRejected a' f msg (fire a id w) = fire a id w) /\
  (forall a' child' s, jobs (settle a' child' s (fire a id w)) !! jobId = Some timed) /\
  (forall es, w = run initial es -> (jobIdCounter w < JS.MAX_SAFE)%Z ->
     budget = timeoutMs job).
Proof.
  intros Ht Hl Hrun timed.
  pose proof (fire_job_timeout a w id jobId tool budget d lg child job Ht Hl Hrun) as Hf.
  fold timed in Hf.
  split; [exact Hf|]. split; [|split; [|split]].
  - intros a' f r <-. unfold onFulfilled. eapply finalizeJob_skip; eauto.
  - intros a' f msg <-. unfold onRejected. eapply finalizeJob_skip; eauto.
  - intros a' child' s. now apply settle_other.
  - intros es -> Hsafe.
    destruct (run_timers_agree es initial issued_initial Hsafe timers_agree_initial
                _ _ _ _ _ _ _ Ht) as (_ & job0 & Hl0 & Hb).
    congruence.
Qed.

(** C2 on the scenario: the job is started with a budget of 10 ms and its
    timer fires. *)
Lemma timeout_finalizes_as_failed_witness :
  jobs (fire (demo_ambient (Some "10")) 0 (run initial demo_started)) !! demo_jobId
  = Some demo_failed_job /\
  JS.Num 10 = timeoutMs demo_running_job.
Proof.
  destruct (timeout_finalizes_as_failed (demo_ambient (Some "10")) (run initial demo_started)
              0 demo_jobId "test-tool" (JS.Num 10) (JS.Num 10) None 0 demo_running_job)
    as (H1 & _ & _ & _ & H5).
  - vm_compute. reflexivity.
  - vm_compute. reflexivity.
  - reflexivity.
  - split; [exact H1|]. apply (H5 demo_started); [reflexivity | vm_compute; reflexivity].
Defined.

(** C4 fails as stated: with the override set to ["0"], and to ["-5"], the
    job gets the default budget and a timer is attached. *)
Lemma nonpositive_override_keeps_timer :
  JS.parseInt "0" = JS.Num 0 /\
  JS.parseInt "-5" = JS.Num (-5) /\
  timers (snd (demo_start (Some "0"))) !! 0%nat
    = Some (mkTimer (JobTimeout demo_jobId "test-tool" (JS.Num 1200000) None 0)
              (JS.Num 1200000)) /\
  timers (snd (demo_start (Some "-5"))) !! 0%nat
    = Some (mkTimer (JobTimeout demo_jobId "test-tool" (JS.Num 1200000) None 0)
              (JS.Num 1200000)) /\
  timers (snd (demo_start (Some "0"))) <> timers initial.
Proof.
  repeat split; try (vm_compute; reflexivity).
  intros H.
  assert (timers (snd (demo_start (Some "0"))) !! 0%nat = timers initial !! 0%nat) as E
    by now rewrite H.
  vm_compute in E. discriminate E.
Qed.

(** C4, amended. Whatever the override holds, the budget of a new job is
    positive and [startTaskAsync] attaches a timer for that budget, which the
    job's finalizer will clear. The timer is armed with the budget itself
    whenever the budget is within the [2^31 - 1] ms a timer of Node can
    hold. When the override parses to zero or to a negative number the
    budget is the default of 1,200,000 ms, and that is the delay of the
    timer. *)
Theorem timer_always_attached (a : Ambient) (m : Model) (mid : option string)
    (task : string) (cwd : option string) (tool : string) (lg : option Logger) (w : World) :
  let started := startTaskAsync a m mid task cwd tool lg w in
  JS.gt0 (resolveJobTimeoutMs a) = true /\
  timers (snd started) !! timerSeq w
    = Some (mkTimer
              (JobTimeout (fst started) tool (resolveJobTimeoutMs a) lg (length (children w)))
              (armed (resolveJobTimeoutMs a))) /\
  (forall z, resolveJobTimeoutMs a = JS.Num z -> (z <= TIMEOUT_MAX)%Z ->
     armed (resolveJobTimeoutMs a) = resolveJobTimeoutMs a) /\
  settling (snd started) !! length (children w)
    = Some (mkFinalizer (fst started) (Some (timerSeq w)) tool lg) /\
  (forall z, JS.parseInt (default "" (jobTimeoutEnv a)) = JS.Num z -> (z <= 0)%Z ->
     resolveJobTimeoutMs a = JS.Num 1200000 /\
     armed (resolveJobTimeoutMs a) = JS.Num 1200000).
Proof.
  intros started. subst started.
  destruct (startTaskAsync_timer a m mid task cwd tool lg w) as [Ht Hs].
  split; [|split; [exact Ht | split; [|split; [exact Hs|]]]].
  - destruct (resolveJobTimeoutMs_positive a) as (z & -> & Hpos). cbn.
    now apply Z.ltb_lt.
  - intros z Hz Hmax. now apply (armed_within a z).
  - intros z Hp Hz.
    assert (resolveJobTimeoutMs a = JS.Num 1200000) as ->; [|split; reflexivity].
    rewrite resolveJobTimeoutMs_cases, Hp.
    destruct (Z.ltb_spec 0 z); [lia | reflexivity].
Qed.

(** C4, amended, on the override ["-5"]. *)
Lemma timer_always_attached_witness :
  resolveJobTimeoutMs (demo_ambient (Some "-5")) = JS.Num 1200000.
Proof.
  destruct (timer_always_attached (demo_ambient (Some "-5")) gemini None "task" None
              "test-tool" None initial) as (_ & _ & _ & _ & H).
  apply (H (-5)%Z).
  - vm_compute. reflexivity.
  - lia.
Defined.

(** C5 fails as stated. [Number.parseInt] reads the digits an override
    begins with and ignores what follows them, so an override that is not
    an integer count of milliseconds can give a budget that is neither the
    override nor the default: ["30s"] gives 30 ms and ["12abc"] 12 ms, both
    non-numeric; ["1.9e3"], the number 1900, and ["1,200,000"] give 1 ms;
    and the positive integer ["9007199254740993"] gives 9007199254740992. *)
Lemma lenient_override_reading :
  resolveJobTimeoutMs (demo_ambient (Some "30s")) = JS.Num 30 /\
  resolveJobTimeoutMs (demo_ambient (Some "12abc")) = JS.Num 12 /\
  resolveJobTimeoutMs (demo_ambient (Some "1.9e3")) = JS.Num 1 /\
  resolveJobTimeoutMs (demo_ambient (Some "1,200,000")) = JS.Num 1 /\
  resolveJobTimeoutMs (demo_ambient (Some "9007199254740993")) = JS.Num 9007199254740992 /\
  resolveJobTimeoutMs (demo_ambient (Some "30s")) <> DEFAULT_JOB_TIMEOUT_MS.
Proof.
  repeat split; try (vm_compute; reflexivity).
  intros H. vm_compute in H. discriminate H.
Qed.

(** C5, amended. The budget is always a positive number of milliseconds: the
    number [Number.parseInt] reads from the override when that number is
    finite and positive, and the default of 20 minutes, 1,200,000 ms,
    otherwise, in particular when the override is absent. On the text of the
    override this means: the decimal numeral of [n] followed by anything
    that does not go on with a digit gives [n] for [n] from 1 to [2^53],
    the double nearest to [n] above that (the default when that is
    infinite), and the default for [n] zero or negative; an override with
    no digit after its leading white space and sign gives the default; a
    leading white space character, and a plus sign before a digit, change
    nothing. *)
Theorem timeout_budget_resolution (a : Ambient) :
  DEFAULT_JOB_TIMEOUT_MS = JS.Num 1200000 /\
  (jobTimeoutEnv a = None -> resolveJobTimeoutMs a = JS.Num 1200000) /\
  (forall z, JS.parseInt (default "" (jobTimeoutEnv a)) = JS.Num z -> (0 < z)%Z ->
     resolveJobTimeoutMs a = JS.Num z) /\
  (forall n, (0 < n <= JS.MAX_SAFE)%Z -> jobTimeoutEnv a = Some (JS.decimal n) ->
     resolveJobTimeoutMs a = JS.Num n) /\
  (forall z, JS.parseInt (default "" (jobTimeoutEnv a)) = JS.Num z -> (z <= 0)%Z ->
     resolveJobTimeoutMs a = JS.Num 1200000) /\
  (JS.isFinite (JS.parseInt (default "" (jobTimeoutEnv a))) = false ->
     resolveJobTimeoutMs a = JS.Num 1200000) /\
  (exists z, resolveJobTimeoutMs a = JS.Num z /\ (0 < z)%Z) /\
  (forall n rest, starts_with_digit rest = false ->
     jobTimeoutEnv a = Some (JS.decimal n ++ rest) ->
     ((0 < n <= JS.MAX_SAFE)%Z -> resolveJobTimeoutMs a = JS.Num n) /\
     ((JS.MAX_SAFE < n)%Z ->
        resolveJobTimeoutMs a
        = if JS.isFinite (JS.of_Z n) then JS.of_Z n else JS.Num 1200000) /\
     ((n <= 0)%Z -> resolveJobTimeoutMs a = JS.Num 1200000)) /\
  (forall s, jobTimeoutEnv a = Some s -> starts_with_digit (unsigned_part s) = false ->
     resolveJobTimeoutMs a = JS.Num 1200000) /\
  (forall c rest a', JS.ws1 c = true ->
     jobTimeoutEnv a = Some (String c rest) -> jobTimeoutEnv a' = Some rest ->
     resolveJobTimeoutMs a = resolveJobTimeoutMs a') /\
  (forall rest a', starts_with_digit rest = true ->
     jobTimeoutEnv a = Some ("+" ++ rest) -> jobTimeoutEnv a' = Some rest ->
     resolveJobTimeoutMs a = resolveJobTimeoutMs a').
Proof.
  split; [reflexivity|]. repeat apply conj.
  - intros H. rewrite resolveJobTimeoutMs_cases, H. reflexivity.
  - intros z Hp Hz. rewrite resolveJobTimeoutMs_cases, Hp.
    destruct (Z.ltb_spec 0 z); [reflexivity | lia].
  - intros n Hn H. rewrite resolveJobTimeoutMs_cases, H.
    change (default "" (Some (JS.decimal n))) with (JS.decimal n).
    rewrite parseInt_decimal, of_Z_safe by lia.
    destruct (Z.ltb_spec 0 n); [reflexivity | lia].
  - intros z Hp Hz. rewrite resolveJobTimeoutMs_cases, Hp.
    destruct (Z.ltb_spec 0 z); [lia | reflexivity].
  - intros H. rewrite resolveJobTimeoutMs_cases.
    destruct (JS.parseInt _); [reflexivity | reflexivity | discriminate H].
  - apply resolveJobTimeoutMs_positive.
  - intros n rest Hrest Henv.
    assert (resolveJobTimeoutMs a
            = match JS.of_Z n with
              | JS.Num z => if (0 <? z)%Z then JS.Num z else JS.Num 1200000
              | _ => JS.Num 1200000
              end) as ->.
    { rewrite resolveJobTimeoutMs_cases, Henv.
      change (default "" (Some (JS.decimal n ++ rest))) with (JS.decimal n ++ rest).
      now rewrite parseInt_numeral_then. }
    split; [|split]; intros Hn.
    + rewrite of_Z_safe by lia. destruct (Z.ltb_spec 0 n); [reflexivity | lia].
    + pose proof (of_Z_beyond n Hn) as Hb. rewrite MAX_SAFE_eq in Hb.
      destruct (JS.of_Z n) as [| neg | z]; [contradiction | reflexivity |].
      cbn [JS.isFinite]. destruct (Z.ltb_spec 0 z); [reflexivity | lia].
    + pose proof (of_Z_nonpositive n Hn) as Hb.
      destruct (JS.of_Z n) as [| neg | z]; [reflexivity | reflexivity |].
      destruct (Z.ltb_spec 0 z); [lia | reflexivity].
  - intros s Hs Hd. rewrite resolveJobTimeoutMs_cases, Hs.
    change (default "" (Some s)) with s. now rewrite parseInt_no_digit.
  - intros c rest a' Hc Ha Ha'. rewrite !resolveJobTimeoutMs_cases, Ha, Ha'.
    change (default "" (Some (String c rest))) with (String c rest).
    change (default "" (Some rest)) with rest. now rewrite parseInt_space.
  - intros rest a' Hd Ha Ha'. rewrite !resolveJobTimeoutMs_cases, Ha, Ha'.
    change (default "" (Some ("+" ++ rest))) with ("+" ++ rest).
    change (default "" (Some rest)) with rest. now rewrite parseInt_plus.
Qed.

(** C5 on the overrides ["1234"], absent, ["soon"], ["30s"], ["-5s"] and
    [" 40"]. *)
Lemma timeout_budget_resolution_witness :
  resolveJobTimeoutMs (demo_ambient (Some "1234")) = JS.Num 1234 /\
  resolveJobTimeoutMs (demo_ambient None) = JS.Num 1200000 /\
  resolveJobTimeoutMs (demo_ambient (Some "soon")) = JS.Num 1200000 /\
  resolveJobTimeoutMs (demo_ambient (Some "30s")) = JS.Num 30 /\
  resolveJobTimeoutMs (demo_ambient (Some "-5s")) = JS.Num 1200000 /\
  resolveJobTimeoutMs (demo_ambient (Some " 40"))
  = resolveJobTimeoutMs (demo_ambient (Some "40")).
Proof.
  repeat apply conj.
  - destruct (timeout_budget_resolution (demo_ambient (Some "1234"))) as (_ & _ & _ & H & _).
    apply (H 1234%Z); [rewrite MAX_SAFE_eq; lia | reflexivity].
  - destruct (timeout_budget_resolution (demo_ambient None)) as (_ & H & _).
    apply H. reflexivity.
  - destruct (timeout_budget_resolution (demo_ambient (Some "soon")))
      as (_ & _ & _ & _ & _ & _ & _ & _ & H & _).
    apply (H "soon"); reflexivity.
  - destruct (timeout_budget_resolution (demo_ambient (Some "30s")))
      as (_ & _ & _ & _ & _ & _ & _ & H & _).
    destruct (H 30%Z "s") as (H1 & _); [reflexivity | reflexivity |].
    apply H1. rewrite MAX_SAFE_eq. lia.
  - destruct (timeout_budget_resolution (demo_ambient (Some "-5s")))
      as (_ & _ & _ & _ & _ & _ & _ & H & _).
    destruct (H (-5)%Z "s") as (_ & _ & H3); [reflexivity | reflexivity |].
    apply H3. lia.
  - destruct (timeout_budget_resolution (demo_ambient (Some " 40")))
      as (_ & _ & _ & _ & _ & _ & _ & _ & _ & H & _).
    apply (H " "%char "40"); reflexivity.
Defined.

(** ** The registry invariant *)

(** C8. In every state the program reaches, [result] is [null] exactly for the
    jobs whose status is [running], so every [completed] or [failed] job
    holds a [TaskResult]. A new job satisfies it, and every callback of the
    event loop (tool invocation, natural completion, error, timeout)
    preserves it. *)
Theorem result_null_iff_running :
  result_matches_status initial /\
  (forall w e, result_matches_status w -> result_matches_status (step w e)) /\
  (forall es jobId job,
     jobs (run initial es) !! jobId = Some job ->
     (result job = None <-> status job = running) /\
     (terminal (status job) -> exists res, result job = Some res)).
Proof.
  assert (result_matches_status initial) as H0.
  { intros k job H. cbn in H. now rewrite lookup_empty in H. }
  split; [exact H0|]. split.
  - intros w e H. eapply change_result_matches; eauto using step_change.
  - intros es jobId job Hl.
    pose proof (run_result_matches es initial H0 jobId job Hl) as Hiff.
    split; [exact Hiff|].
    intros Hterm. destruct (result job) as [res|]; [eauto|].
    destruct Hiff as [Hrun _]. rewrite Hrun in Hterm by reflexivity.
    destruct Hterm; discriminate.
Qed.

(** C8 on the scenario: the job that timed out holds a result. *)
Lemma result_null_iff_running_witness :
  (result demo_failed_job = None <-> status demo_failed_job = running) /\
  (terminal (status demo_failed_job) -> exists res, result demo_failed_job = Some res).
Proof.
  destruct result_null_iff_running as (_ & _ & H).
  apply (H demo_timed_out demo_jobId demo_failed_job).
  vm_compute. reflexivity.
Defined.

(** ** The process runner and the dispatch *)

(** C6. For every model, model id, task and working directory, and whatever
    the subprocess does, the promise of [executeTask] is fulfilled, never
    rejected: with the subprocess's exit code, output and error output, where
    a missing one reads [-1], [""] and [""], or, when spawning or awaiting
    threw, with [{exitCode: -1, stdout: "", stderr: <error message>}]. *)
Theorem executeTask_always_resolves (a : Ambient) (m : Model) (mid : option string)
    (task : string) (cwd : option string) (outcome : Settlement) (w : World) :
  fst (executeTask a m mid task cwd outcome w)
  = Normal
      match outcome with
      | Fulfilled r =>
          mkTaskResult (default (-1)%Z (r_exitCode r)) (default "" (r_stdout r))
            (default "" (r_stderr r))
      | Rejected msg => mkTaskResult (-1) "" msg
      end.
Proof. apply executeTask_settles. Qed.

(** C3. The handler registered for a tool is chosen by the resolved flag, the
    tool's own [async] when it is a boolean and the server default otherwise.
    The handler of a flag [false] awaits [executeTask] and answers its
    [{exitCode, stdout, stderr}], an error exactly when the exit code is not
    0. The handler of a flag [true] answers [{jobId, status: "running",
    message}] with [isError] false whatever the subprocess will do: the job is
    in the registry, running, and its completion callback is still pending. *)
Theorem dispatch_by_resolved_flag (cfg : Config) (serverAsync : bool)
    (loggerOf : Tool -> option Logger) :
  (forall tool,
     resolveToolAsyncFlag tool serverAsync
     = match async tool with Some b => b | None => serverAsync end) /\
  map handler (fst (registerConfiguredTools cfg serverAsync loggerOf))
  = map (fun tool =>
           if resolveToolAsyncFlag tool serverAsync
           then AsyncTool tool (loggerOf tool)
           else SyncTool tool (loggerOf tool))
      (tools cfg) /\
  snd (registerConfiguredTools cfg serverAsync loggerOf)
  = existsb (fun tool => resolveToolAsyncFlag tool serverAsync) (tools cfg) /\
  (forall a tool lg fullTask cwd outcome w,
     exists text res,
       fst (executeTask a (model cfg) (modelId cfg) fullTask cwd outcome w) = Normal res /\
       fst (invoke a cfg (SyncTool tool lg) fullTask cwd outcome w)
       = Normal (mkResponse text (Direct res) (negb (exitCode res =? 0)%Z)) /\
       (negb (exitCode res =? 0)%Z = true <-> exitCode res <> 0%Z)) /\
  (forall a tool lg fullTask cwd outcome w,
     exists text jobId msg job,
       (forall outcome',
          invoke a cfg (AsyncTool tool lg) fullTask cwd outcome' w
          = invoke a cfg (AsyncTool tool lg) fullTask cwd outcome w) /\
       fst (invoke a cfg (AsyncTool tool lg) fullTask cwd outcome w)
       = Normal (mkResponse text (JobHandle jobId running msg) false) /\
       jobs (snd (invoke a cfg (AsyncTool tool lg) fullTask cwd outcome w)) !! jobId
       = Some job /\
       status job = running /\ result job = None /\
       exists child f,
         settling (snd (invoke a cfg (AsyncTool tool lg) fullTask cwd outcome w)) !! child
         = Some f /\ f_jobId f = jobId).
Proof.
  split; [reflexivity|]. split; [|split; [|split]].
  - unfold registerConfiguredTools. rewrite registerConfiguredTools_fold. cbn [fst app].
    rewrite map_map. apply map_ext. intros tool.
    now destruct (resolveToolAsyncFlag tool serverAsync).
  - unfold registerConfiguredTools. rewrite registerConfiguredTools_fold. reflexivity.
  - intros a tool lg fullTask cwd outcome w. cbn [invoke]. unfold syncToolHandler.
    pose proof (executeTask_settles a (model cfg) (modelId cfg) fullTask cwd outcome
                  (log lg log_info "requests" "tool_request" w)) as Hres.
    rewrite (executeTask_settles a (model cfg) (modelId cfg) fullTask cwd outcome w).
    destruct (executeTask _ _ _ _ _ _ (log _ _ _ _ _)) as [c w1]. cbn [fst] in Hres. subst c.
    cbn [fst]. eexists _, _. split; [reflexivity|]. split; [reflexivity|].
    rewrite negb_true_iff. apply Z.eqb_neq.
  - intros a tool lg fullTask cwd outcome w. cbn [invoke]. unfold asyncToolHandler.
    destruct (startTaskAsync_effect a (model cfg) (modelId cfg) fullTask cwd (name tool) lg
                (log lg log_info "requests" "tool_request" w)) as (Hid & Hjobs & _).
    destruct (startTaskAsync_timer a (model cfg) (modelId cfg) fullTask cwd (name tool) lg
                (log lg log_info "requests" "tool_request" w)) as (_ & Hset).
    destruct (startTaskAsync _ _ _ _ _ _ _ _) as [jobId w1]. cbn [fst snd] in *.
    subst jobId.
    eexists _, _, _, _. split; [reflexivity|]. split; [reflexivity|].
    rewrite log_jobs, Hjobs. split; [apply lookup_insert_eq|].
    split; [reflexivity|]. split; [reflexivity|].
    eexists _, _. split; [destruct lg; cbn; exact Hset | reflexivity].
Qed.

(** C3 on the scenario: the tool sets [async] itself, the server default is
    off. *)
Lemma dispatch_by_resolved_flag_witness :
  map handler (fst (registerConfiguredTools demo_config false (fun _ => None)))
  = [AsyncTool demo_tool None].
Proof.
  destruct (dispatch_by_resolved_flag demo_config false (fun _ => None)) as (_ & H & _).
  rewrite H. reflexivity.
Defined.

(** C10. A synchronous invocation leaves the job registry, the identifier
    counter, the timers and the pending completion callbacks exactly as
    they were, and so does [executeTask]; an asynchronous invocation stores
    one job, [running], under the identifier it returns, and it is the only
    callback of the event loop after which the registry has a new key. *)
Theorem sync_invocation_keeps_registry (a : Ambient) (cfg : Config) (tool : Tool)
    (lg : option Logger) (fullTask : string) (cwd : option string) (outcome : Settlement)
    (w : World) :
  let after_sync := snd (invoke a cfg (SyncTool tool lg) fullTask cwd outcome w) in
  let after_run := snd (executeTask a (model cfg) (modelId cfg) fullTask cwd outcome w) in
  let after_async := snd (invoke a cfg (AsyncTool tool lg) fullTask cwd outcome w) in
  (jobs after_sync = jobs w /\ jobIdCounter after_sync = jobIdCounter w /\
   timers after_sync = timers w /\ settling after_sync = settling w) /\
  (jobs after_run = jobs w /\ jobIdCounter after_run = jobIdCounter w /\
   timers after_run = timers w /\ settling after_run = settling w) /\
  jobs after_async
  = <[jobIdOf (dateNow a) (JS.incr (jobIdCounter w)) :=
        mkJob running (name tool) (isoNow a) None (resolveJobTimeoutMs a) None None]> (jobs w) /\
  (forall e k, jobs w !! k = None -> is_Some (jobs (step w e) !! k) ->
     exists a' cfg' tool' lg' fullTask' cwd' outcome',
       e = Invoke a' cfg' (AsyncTool tool' lg') fullTask' cwd' outcome').
Proof.
  cbv zeta. split; [|split; [|split; [|apply step_creates]]].
  - cbn [invoke]. unfold syncToolHandler, executeTask, execa.
    destruct outcome, lg; cbn; auto.
  - unfold executeTask, execa. cbn. auto.
  - cbn [invoke]. unfold asyncToolHandler.
    destruct (startTaskAsync_effect a (model cfg) (modelId cfg) fullTask cwd (name tool) lg
                (log lg log_info "requests" "tool_request" w)) as (_ & Hjobs & _).
    destruct (startTaskAsync _ _ _ _ _ _ _ _) as [jobId w1]. cbn [snd] in *.
    now rewrite log_jobs, Hjobs, log_jobs, log_counter.
Qed.

(** ** The status query *)

(** C7. The status query never throws. For an identifier that is not in the
    registry it answers [{jobId, status: "failed", error: "Job not found:
    <jobId>"}] with [isError] true; for one that is, it answers the snapshot
    of the job. It leaves the registry as it is, and an identifier is in the
    registry of a state the program reaches only if an asynchronous
    invocation of the run inserted it. *)
Theorem status_query_total (lg : option Logger) (jobId : string) (w : World) :
  (jobs w !! jobId = None ->
   fst (checkJobStatus lg jobId w)
   = Normal (mkResponse ("Error: Job not found: " ++ jobId)
               (NotFound jobId failed ("Job not found: " ++ jobId)) true)) /\
  (forall job, jobs w !! jobId = Some job ->
   exists text,
     fst (checkJobStatus lg jobId w)
     = Normal (mkResponse text
                 (Snapshot jobId (status job) (toolName job) (startedAt job)
                    (completedAt job) (result job))
                 (match status job with failed => true | _ => false end))) /\
  (exists resp, fst (checkJobStatus lg jobId w) = Normal resp) /\
  jobs (snd (checkJobStatus lg jobId w)) = jobs w /\
  (forall es, w = run initial es -> is_Some (jobs w !! jobId) ->
     exists es1 a cfg tool lg' fullTask cwd outcome es2,
       es = (es1 ++ Invoke a cfg (AsyncTool tool lg') fullTask cwd outcome :: es2)%list /\
       jobs (run initial es1) !! jobId = None /\
       is_Some (jobs (step (run initial es1)
                        (Invoke a cfg (AsyncTool tool lg') fullTask cwd outcome)) !! jobId)).
Proof.
  assert (forall es, w = run initial es -> is_Some (jobs w !! jobId) ->
     exists es1 a cfg tool lg' fullTask cwd outcome es2,
       es = (es1 ++ Invoke a cfg (AsyncTool tool lg') fullTask cwd outcome :: es2)%list /\
       jobs (run initial es1) !! jobId = None /\
       is_Some (jobs (step (run initial es1)
                        (Invoke a cfg (AsyncTool tool lg') fullTask cwd outcome)) !! jobId))
    as Hins.
  { intros es -> H. apply run_inserted; [|exact H]. cbn. apply lookup_empty. }
  unfold checkJobStatus. rewrite log_jobs.
  destruct (jobs w !! jobId) as [job|] eqn:E; cbn [fst snd]; rewrite ?log_jobs.
  - split; [discriminate|]. split; [|split; [eauto | split; [reflexivity | exact Hins]]].
    intros job' H. injection H as <-. eauto.
  - split; [reflexivity|]. split; [discriminate|].
    split; [eauto | split; [reflexivity | exact Hins]].
Qed.

(** C7 on the scenario: an identifier no job was stored under. *)
Lemma status_query_total_witness :
  fst (checkJobStatus None "job_0_0" (run initial demo_timed_out))
  = Normal (mkResponse "Error: Job not found: job_0_0"
              (NotFound "job_0_0" failed "Job not found: job_0_0") true).
Proof.
  destruct (status_query_total None "job_0_0" (run initial demo_timed_out)) as (H & _).
  apply H. vm_compute. reflexivity.
Defined.

(** ** Job identifiers *)

(** C9. A job started in any state the program reaches gets an identifier
    under which the registry holds no job, and the registry keeps every job
    ever stored; two jobs started at any two points of a run, back-to-back
    and within the same millisecond included, get distinct identifiers. The
    run is one in which the counter of identifiers stays in the range where
    [++jobIdCounter] is exact. *)
Theorem job_ids_distinct (es1 es2 : list Event)
    (a1 a2 : Ambient) (m1 m2 : Model) (mid1 mid2 : option string) (task1 task2 : string)
    (cwd1 cwd2 : option string) (tool1 tool2 : string) (lg1 lg2 : option Logger) :
  let w1 := run initial es1 in
  let first := startTaskAsync a1 m1 mid1 task1 cwd1 tool1 lg1 w1 in
  let w2 := run (snd first) es2 in
  let second := startTaskAsync a2 m2 mid2 task2 cwd2 tool2 lg2 w2 in
  (jobIdCounter w2 < JS.MAX_SAFE)%Z ->
  jobs w1 !! fst first = None /\
  jobs w2 !! fst second = None /\
  is_Some (jobs w2 !! fst first) /\
  fst second <> fst first.
Proof.
  intros w1 first w2 second Hsafe.
  destruct (startTaskAsync_effect a1 m1 mid1 task1 cwd1 tool1 lg1 w1) as (Hid1 & Hjobs1 & Hc1).
  destruct (startTaskAsync_effect a2 m2 mid2 task2 cwd2 tool2 lg2 w2) as (Hid2 & _ & _).
  fold first in Hid1, Hjobs1, Hc1. fold second in Hid2.
  assert (issued w1) as Hiss1 by (apply run_issued, issued_initial).
  assert (Change w1 (snd first)) as Hch.
  { eapply (Created w1 _ (dateNow a1)); [| | rewrite Hjobs1; reflexivity | exact Hc1];
      reflexivity. }
  assert (issued (snd first)) as Hiss by (eapply change_issued; eauto).
  assert (issued w2) as Hiss2 by now apply run_issued.
  assert (jobIdCounter (snd first) < JS.MAX_SAFE)%Z as Hsafe1.
  { destruct (Z_lt_le_dec (jobIdCounter (snd first)) JS.MAX_SAFE) as [|Hge]; [assumption|].
    pose proof (run_counter_big es2 _ Hge). fold w2 in H. lia. }
  assert (jobIdCounter w1 < JS.MAX_SAFE)%Z as Hsafe0.
  { destruct (Z_lt_le_dec (jobIdCounter w1) JS.MAX_SAFE) as [|Hge]; [assumption|].
    pose proof (change_counter_big _ _ Hch Hge). lia. }
  assert (jobs w2 !! fst second = None) as Hfresh2
    by (rewrite Hid2; now apply issued_fresh).
  assert (is_Some (jobs w2 !! fst first)) as Hkept.
  { assert (jobs (snd first) !! fst first
            = Some (mkJob running tool1 (isoNow a1) None (resolveJobTimeoutMs a1) None None))
      as Hl1 by (rewrite Hjobs1, Hid1; apply lookup_insert_eq).
    destruct (run_status es2 _ _ _ Hiss Hsafe Hl1) as (job' & Hl & _).
    fold w2 in Hl. eauto. }
  split; [rewrite Hid1; now apply issued_fresh|].
  split; [assumption|]. split; [assumption|].
  intros E. rewrite E in Hfresh2. rewrite Hfresh2 in Hkept. now destruct Hkept.
Qed.

(** C9 on two jobs started back-to-back in the same millisecond. *)
Lemma job_ids_distinct_witness :
  fst (startTaskAsync (demo_ambient None) gemini None "b" None "test-tool" None
         (snd (startTaskAsync (demo_ambient None) gemini None "a" None "test-tool" None initial)))
  <> fst (startTaskAsync (demo_ambient None) gemini None "a" None "test-tool" None initial).
Proof.
  apply (job_ids_distinct [] [] (demo_ambient None) (demo_ambient None) gemini gemini None None
           "a" "b" None None "test-tool" "test-tool" None None).
  vm_compute. reflexivity.
Defined.

(** * Further properties of the code *)

(** ** Completion and status queries *)

Lemma finalizeJob_effect a f st res w job :
  jobs w !! f_jobId f = Some job -> status job = running ->
  jobs (finalizeJob a f st res w)
  = <[f_jobId f := mkJob st (toolName job) (startedAt job) (Some res) (timeoutMs job)
                     (Some (isoNow a)) (timedOut job)]> (jobs w) /\
  timers (finalizeJob a f st res w)
  = match f_timeoutId f with Some id => delete id (timers w) | None => timers w end /\
  timerSeq (finalizeJob a f st res w) = timerSeq w /\
  settling (finalizeJob a f st res w) = settling w /\
  signals (finalizeJob a f st res w) = signals w /\
  children (finalizeJob a f st res w) = children w.
Proof.
  intros Hjob Hrun. unfold finalizeJob. rewrite Hjob, Hrun. cbn [is_running negb].
  destruct (f_logger f), (f_timeoutId f); cbn; auto 10.
Qed.

(** X1. When the subprocess of a running job settles, its completion callback
    writes the record: [completed] exactly when the exit code is 0 and
    [failed] otherwise, with the captured output ([-1] and empty texts for
    what is missing), or [failed] with [{exitCode: -1, stdout: "", stderr:
    <message>}] when the promise was rejected. [completedAt] is stamped and the
    other fields are kept. The callback is used up, no signal is sent, and
    the timer of the job is cleared: firing it afterwards does nothing. *)
Theorem natural_completion (a : Ambient) (child : nat) (w : World) (f : Finalizer) (job : Job) :
  settling w !! child = Some f ->
  jobs w !! f_jobId f = Some job ->
  status job = running ->
  (forall r,
     let code := default (-1)%Z (r_exitCode r) in
     jobs (settle a child (Fulfilled r) w) !! f_jobId f
     = Some (mkJob (if (code =? 0)%Z then completed else failed) (toolName job) (startedAt job)
               (Some (mkTaskResult code (default "" (r_stdout r)) (default "" (r_stderr r))))
               (timeoutMs job) (Some (isoNow a)) (timedOut job)) /\
     ((if (code =? 0)%Z then completed else failed) = completed <-> r_exitCode r = Some 0%Z)) /\
  (forall msg,
     jobs (settle a child (Rejected msg) w) !! f_jobId f
     = Some (mkJob failed (toolName job) (startedAt job) (Some (mkTaskResult (-1) "" msg))
               (timeoutMs job) (Some (isoNow a)) (timedOut job))) /\
  (forall s,
     settling (settle a child s w) !! child = None /\
     signals (settle a child s w) = signals w /\
     (forall id, f_timeoutId f = Some id ->
        timers (settle a child s w) !! id = None /\
        forall a', fire a' id (settle a child s w) = settle a child s w)).
Proof.
  intros Hs Hjob Hrun.
  assert (forall st res,
            let w' := finalizeJob a f st res (with_settling (delete child) w) in
            jobs w' = <[f_jobId f := mkJob st (toolName job) (startedAt job) (Some res)
                                       (timeoutMs job) (Some (isoNow a)) (timedOut job)]> (jobs w) /\
            timers w' = match f_timeoutId f with
                        | Some id => delete id (timers w) | None => timers w end /\
            settling w' = delete child (settling w) /\
            signals w' = signals w) as Hfin.
  { intros st res w'. subst w'.
    destruct (finalizeJob_effect a f st res (with_settling (delete child) w) job Hjob Hrun)
      as (H1 & H2 & _ & H4 & H5 & _).
    rewrite H1, H2, H4, H5. auto. }
  split; [|split].
  - intros r. unfold settle. rewrite Hs. unfold onFulfilled.
    destruct (Hfin (if (default (-1)%Z (r_exitCode r) =? 0)%Z then completed else failed)
                (mkTaskResult (default (-1)%Z (r_exitCode r)) (default "" (r_stdout r))
                   (default "" (r_stderr r)))) as (-> & _).
    split; [apply lookup_insert_eq|].
    destruct (r_exitCode r) as [c|]; cbn.
    + destruct (Z.eqb_spec c 0); split; congruence.
    + split; discriminate.
  - intros msg. unfold settle. rewrite Hs. unfold onRejected.
    destruct (Hfin failed (mkTaskResult (-1) "" msg)) as (-> & _). apply lookup_insert_eq.
  - intros s.
    assert (exists st res, settle a child s w
                           = finalizeJob a f st res (with_settling (delete child) w))
      as (st & res & ->).
    { unfold settle. rewrite Hs. destruct s; unfold onFulfilled, onRejected; eauto. }
    destruct (Hfin st res) as (_ & Ht & Hset & Hsig).
    split; [rewrite Hset; apply lookup_delete_eq|]. split; [exact Hsig|].
    intros id Hid. rewrite Hid in Ht.
    assert (timers (finalizeJob a f st res (with_settling (delete child) w)) !! id = None) as Hn
      by (rewrite Ht; apply lookup_delete_eq).
    split; [exact Hn|]. intros a'. unfold fire. now rewrite Hn.
Qed.

Lemma asyncToolHandler_state a cfg tool lg fullTask cwd w :
  let w' := snd (asyncToolHandler a cfg tool lg fullTask cwd w) in
  let jobId := jobIdOf (dateNow a) (JS.incr (jobIdCounter w)) in
  (exists text,
     fst (asyncToolHandler a cfg tool lg fullTask cwd w)
     = Normal (mkResponse text
                 (JobHandle jobId running
                    ("Job started. Use 'check-job-status' with jobId '" ++ jobId
                     ++ "' to check progress."))
                 false)) /\
  jobs w' = <[jobId := mkJob running (name tool) (isoNow a) None (resolveJobTimeoutMs a) None None]>
              (jobs w) /\
  settling w' = <[length (children w) := mkFinalizer jobId (Some (timerSeq w)) (name tool) lg]>
                  (settling w) /\
  timers w' = <[timerSeq w := mkTimer (JobTimeout jobId (name tool) (resolveJobTimeoutMs a) lg
                                         (length (children w)))
                                (armed (resolveJobTimeoutMs a))]> (timers w) /\
  timerSeq w' = S (timerSeq w) /\
  signals w' = signals w /\
  children w'
  = (children w ++
       [mkChild (command (CLI_CONFIG (model cfg)))
          (cliArgs (CLI_CONFIG (model cfg)) (modelId cfg) fullTask)
          (if truthy cwd then default "" cwd else processCwd a) (childHasKill a)])%list.
Proof.
  destruct (resolveJobTimeoutMs_positive a) as (z & Hz & Hpos).
  unfold asyncToolHandler, startTaskAsync, generateJobId, execa, setTimeout.
  rewrite Hz. cbn [JS.gt0]. destruct (Z.ltb_spec 0 z); [|lia].
  destruct lg; cbn; eauto 10.
Qed.

Lemma checkJobStatus_found lg jobId w job :
  jobs w !! jobId = Some job ->
  exists text,
    fst (checkJobStatus lg jobId w)
    = Normal (mkResponse text
                (Snapshot jobId (status job) (toolName job) (startedAt job)
                   (completedAt job) (result job))
                (match status job with failed => true | _ => false end)).
Proof.
  intros H. unfold checkJobStatus. rewrite log_jobs, H. cbn. eauto.
Qed.

Lemma settle_running a child s w f job :
  settling w !! child = Some f ->
  jobs w !! f_jobId f = Some job ->
  status job = running ->
  exists st res,
    match s with
    | Fulfilled r =>
        st = (if (default (-1)%Z (r_exitCode r) =? 0)%Z then completed else failed) /\
        res = mkTaskResult (default (-1)%Z (r_exitCode r)) (default "" (r_stdout r))
                (default "" (r_stderr r))
    | Rejected msg => st = failed /\ res = mkTaskResult (-1) "" msg
    end /\
    jobs (settle a child s w)
    = <[f_jobId f := mkJob st (toolName job) (startedAt job) (Some res) (timeoutMs job)
                       (Some (isoNow a)) (timedOut job)]> (jobs w) /\
    timers (settle a child s w)
    = match f_timeoutId f with Some id => delete id (timers w) | None => timers w end /\
    timerSeq (settle a child s w) = timerSeq w /\
    settling (settle a child s w) = delete child (settling w) /\
    signals (settle a child s w) = signals w /\
    children (settle a child s w) = children w.
Proof.
  intros Hs Hjob Hrun. unfold settle. rewrite Hs.
  destruct s as [r|msg]; unfold onFulfilled, onRejected;
    match goal with
    | |- context [finalizeJob ?a ?f ?st ?res ?w'] =>
        destruct (finalizeJob_effect a f st res w' job Hjob Hrun)
          as (H1 & H2 & H3 & H4 & H5 & H6);
        exists st, res; rewrite H1, H2, H3, H4, H5, H6
    end; auto 10.
Qed.

(** X2. A status query made right after an asynchronous invocation, with the
    identifier the invocation answered, finds the job: [running], with the
    tool's name and the start time, no completion time and no result, and
    [isError] false. *)
Theorem started_job_is_visible (a : Ambient) (cfg : Config) (tool : Tool)
    (lg lg' : option Logger) (fullTask : string) (cwd : option string) (outcome : Settlement)
    (w : World) :
  let started := invoke a cfg (AsyncTool tool lg) fullTask cwd outcome w in
  exists text jobId msg text',
    fst started = Normal (mkResponse text (JobHandle jobId running msg) false) /\
    fst (checkJobStatus lg' jobId (snd started))
    = Normal (mkResponse text' (Snapshot jobId running (name tool) (isoNow a) None None) false).
Proof.
  cbn [invoke].
  destruct (asyncToolHandler_state a cfg tool lg fullTask cwd w) as ((text & Hr) & Hj & _).
  set (job := mkJob running (name tool) (isoNow a) None (resolveJobTimeoutMs a) None None) in *.
  destruct (checkJobStatus_found lg' (jobIdOf (dateNow a) (JS.incr (jobIdCounter w)))
              (snd (asyncToolHandler a cfg tool lg fullTask cwd w)) job) as (text' & Hq).
  { rewrite Hj. apply lookup_insert_eq. }
  exists text. eexists _, _, text'. split; [exact Hr | exact Hq].
Qed.

(** X3. Invoke, exit, query: when the subprocess of a job that was just
    started exits, the next status query answers [completed] for exit code 0
    and [failed], with [isError], for any other (a missing code counts as
    [-1]); it carries the captured output and the completion time. *)
Theorem finished_job_is_reported (a a' : Ambient) (cfg : Config) (tool : Tool)
    (lg lg' : option Logger) (fullTask : string) (cwd : option string) (outcome : Settlement)
    (r : ExecaResult) (w : World) :
  let started := invoke a cfg (AsyncTool tool lg) fullTask cwd outcome w in
  let finished := settle a' (length (children w)) (Fulfilled r) (snd started) in
  let code := default (-1)%Z (r_exitCode r) in
  exists text jobId msg text',
    fst started = Normal (mkResponse text (JobHandle jobId running msg) false) /\
    fst (checkJobStatus lg' jobId finished)
    = Normal (mkResponse text'
                (Snapshot jobId (if (code =? 0)%Z then completed else failed) (name tool)
                   (isoNow a) (Some (isoNow a'))
                   (Some (mkTaskResult code (default "" (r_stdout r)) (default "" (r_stderr r)))))
                (negb (code =? 0)%Z)).
Proof.
  cbn [invoke].
  destruct (asyncToolHandler_state a cfg tool lg fullTask cwd w) as ((text & Hr) & Hj & Hs & _).
  set (jobId := jobIdOf (dateNow a) (JS.incr (jobIdCounter w))) in *.
  set (w1 := snd (asyncToolHandler a cfg tool lg fullTask cwd w)) in *.
  set (job := mkJob running (name tool) (isoNow a) None (resolveJobTimeoutMs a) None None) in *.
  destruct (settle_running a' (length (children w)) (Fulfilled r) w1
              (mkFinalizer jobId (Some (timerSeq w)) (name tool) lg) job)
    as (st & res & (-> & ->) & Hj' & _).
  { rewrite Hs. apply lookup_insert_eq. }
  { cbn [f_jobId]. rewrite Hj. apply lookup_insert_eq. }
  { reflexivity. }
  cbn [f_jobId] in Hj'.
  match type of Hj' with _ = <[_ := ?j]> _ =>
    destruct (checkJobStatus_found lg' jobId
                (settle a' (length (children w)) (Fulfilled r) w1) j) as (text' & Hq)
  end.
  { rewrite Hj'. apply lookup_insert_eq. }
  exists text. eexists _, _, text'. split; [exact Hr|].
  rewrite Hq. cbn. now destruct (_ =? _)%Z.
Qed.

(** ** Invariants of the records *)

Section RecordInvariant.

Variable P : Job -> Prop.

Hypothesis P_created : forall tool iso budget,
  P (mkJob running tool iso None budget None None).

Hypothesis P_finalized : forall job st res iso,
  P job -> status job = running ->
  (st = completed /\ exitCode res = 0%Z) \/ (st = failed /\ exitCode res <> 0%Z) ->
  P (mkJob st (toolName job) (startedAt job) (Some res) (timeoutMs job) (Some iso)
       (timedOut job)).

Hypothesis P_timed_out : forall job budget iso,
  P job -> status job = running ->
  P (mkJob failed (toolName job) (startedAt job)
       (Some (mkTaskResult (-1) "" ("Timed out after " ++ JS.toString budget ++ "ms")))
       (timeoutMs job) (Some iso) (Some true)).

Lemma jobs_forall_insert w w' k job :
  jobs_forall P w -> jobs w' = <[k := job]> (jobs w) -> P job -> jobs_forall P w'.
Proof.
  intros Hinv Hj Hp k' job' Hl. rewrite Hj in Hl.
  destruct (decide (k = k')) as [->|Hne].
  - rewrite lookup_insert_eq in Hl. now injection Hl as <-.
  - rewrite lookup_insert_ne in Hl by assumption. eauto.
Qed.

Lemma jobs_forall_same w w' : jobs_forall P w -> jobs w' = jobs w -> jobs_forall P w'.
Proof. intros Hinv Hj k job Hl. rewrite Hj in Hl. eauto. Qed.

Lemma step_jobs_forall w e : jobs_forall P w -> jobs_forall P (step w e).
Proof.
  intros Hinv.
  destruct e as [a cfg [tool lg | tool lg] fullTask cwd outcome | lg jobId | a child s | a id];
    cbn [step invoke].
  - destruct (asyncToolHandler_state a cfg tool lg fullTask cwd w) as (_ & Hj & _).
    eapply jobs_forall_insert; eauto.
  - eapply jobs_forall_same; eauto.
    unfold syncToolHandler, executeTask, execa. destruct outcome, lg; reflexivity.
  - eapply jobs_forall_same; eauto.
    unfold checkJobStatus. rewrite log_jobs. destruct (jobs w !! jobId), lg; reflexivity.
  - destruct (settling w !! child) as [f|] eqn:Hs.
    2:{ unfold settle. now rewrite Hs. }
    destruct (jobs w !! f_jobId f) as [job|] eqn:Hjob.
    2:{ eapply jobs_forall_same; eauto. unfold settle. rewrite Hs.
        destruct s; unfold onFulfilled, onRejected, finalizeJob; cbn [jobs with_settling];
          now rewrite Hjob. }
    destruct (is_running (status job)) eqn:Hrun.
    2:{ eapply jobs_forall_same; eauto. unfold settle. rewrite Hs.
        destruct s; unfold onFulfilled, onRejected;
          erewrite finalizeJob_skip; eauto. }
    assert (status job = running) as Hst by (destruct (status job); [reflexivity | discriminate ..]).
    destruct (settle_running a child s w f job Hs Hjob Hst) as (st & res & Hsr & Hj & _).
    eapply jobs_forall_insert; eauto. apply P_finalized; eauto.
    destruct s as [r|msg].
    + destruct Hsr as [-> ->]. cbn [exitCode].
      destruct (Z.eqb_spec (default (-1)%Z (r_exitCode r)) 0); auto.
    + destruct Hsr as [-> ->]. right. split; [reflexivity | discriminate].
  - unfold fire. destruct (timers w !! id) as [t|]; [|assumption].
    destruct (callback t) as [jobId tool budget lg child | child]; [|assumption].
    destruct (jobs w !! jobId) as [job|] eqn:Hjob.
    2:{ unfold onJobTimeout. cbn [jobs with_timers]. now rewrite Hjob. }
    destruct (is_running (status job)) eqn:Hrun.
    2:{ erewrite onJobTimeout_skip; eauto. }
    assert (status job = running) as Hst by (destruct (status job); [reflexivity | discriminate ..]).
    destruct (onJobTimeout_effect a jobId tool budget lg child (with_timers (delete id) w) job
                Hjob Hrun) as (Hj & _).
    eapply jobs_forall_insert; eauto.
Qed.

Lemma run_jobs_forall es : forall w, jobs_forall P w -> jobs_forall P (run w es).
Proof.
  induction es as [|e es IH]; intros w H; [exact H|].
  rewrite run_cons. apply IH, step_jobs_forall, H.
Qed.

Lemma reachable_jobs_forall es : jobs_forall P (run initial es).
Proof.
  apply run_jobs_forall. intros k job H. cbn in H. now rewrite lookup_empty in H.
Qed.

End RecordInvariant.

Lemma consistent_reachable es : jobs_forall consistent (run initial es).
Proof.
  apply reachable_jobs_forall.
  - intros tool iso budget. cbn. auto.
  - intros job st res iso Hc Hrun Hst. unfold consistent in *. rewrite Hrun in Hc.
    destruct Hc as (_ & _ & Hto). cbn. rewrite Hto.
    destruct Hst as [[-> Hcode] | [-> Hcode]].
    + split; [|split; [discriminate | reflexivity]].
      destruct res as [c out err]. cbn in Hcode. subst c. eauto.
    + split; [eauto|]. split; [discriminate | auto].
  - intros job budget iso Hc Hrun. cbn.
    split; [eexists; split; [reflexivity | discriminate]|].
    split; [discriminate|]. right. eauto.
Qed.

(** X4. In every state the program reaches, a job that has a result is
    [completed] exactly when the exit code of the result is 0 and [failed]
    exactly when it is not. *)
Theorem exit_code_decides_status (es : list Event) (jobId : string) (job : Job)
    (res : TaskResult) :
  jobs (run initial es) !! jobId = Some job ->
  result job = Some res ->
  (status job = completed <-> exitCode res = 0%Z) /\
  (status job = failed <-> exitCode res <> 0%Z).
Proof.
  intros Hl Hres. pose proof (consistent_reachable es jobId job Hl) as Hc.
  unfold consistent in Hc. destruct (status job).
  - destruct Hc as (Hn & _). congruence.
  - destruct Hc as ((out & err & Hr) & _). rewrite Hr in Hres. injection Hres as <-. cbn.
    split; split; intros; try reflexivity; try discriminate; lia.
  - destruct Hc as ((res' & Hr & Hne) & _). rewrite Hr in Hres. injection Hres as <-.
    split; split; intros; try reflexivity; try discriminate; try assumption. contradiction.
Qed.

(** X5. In every state the program reaches, [completedAt] is missing exactly
    on the running jobs, and [timedOut] is never [false]: it is absent or
    [true], and a job with [timedOut] true is [failed] with the result the
    timeout handler writes. *)
Theorem timed_out_only_by_supervisor (es : list Event) (jobId : string) (job : Job) :
  jobs (run initial es) !! jobId = Some job ->
  (completedAt job = None <-> status job = running) /\
  timedOut job <> Some false /\
  (timedOut job = Some true ->
   status job = failed /\
   exists budget,
     result job = Some (mkTaskResult (-1) "" ("Timed out after " ++ JS.toString budget ++ "ms"))).
Proof.
  intros Hl. pose proof (consistent_reachable es jobId job Hl) as Hc.
  unfold consistent in Hc. destruct (status job).
  - destruct Hc as (_ & Hca & Hto). rewrite Hca, Hto. repeat split; try discriminate; auto.
  - destruct Hc as (_ & Hca & Hto). rewrite Hto.
    repeat split; try discriminate; try contradiction.
  - destruct Hc as (_ & Hca & [Hto | (Hto & Hb)]); rewrite Hto;
      repeat split; try discriminate; try contradiction; auto.
Qed.

(** ** Escalation of the termination signals *)

Lemma fire_job_timeout_effect a w id jobId tool budget d lg child job :
  timers w !! id = Some (mkTimer (JobTimeout jobId tool budget lg child) d) ->
  jobs w !! jobId = Some job ->
  status job = running ->
  match children w !! child with
  | Some c =>
      if hasKill c then
        signals (fire a id w) = (child, SIGTERM) :: signals w /\
        timers (fire a id w)
        = <[timerSeq w := mkTimer (KillEscalation child) (JS.Num 5000)]> (delete id (timers w)) /\
        timerSeq (fire a id w) = S (timerSeq w)
      else
        signals (fire a id w) = signals w /\ timers (fire a id w) = delete id (timers w) /\
        timerSeq (fire a id w) = timerSeq w
  | None =>
      signals (fire a id w) = signals w /\ timers (fire a id w) = delete id (timers w) /\
      timerSeq (fire a id w) = timerSeq w
  end.
Proof.
  intros Ht Hl Hrun. unfold fire. rewrite Ht. cbn [callback].
  unfold onJobTimeout. cbn [jobs with_timers]. rewrite Hl, Hrun. cbn [is_running negb].
  destruct lg; cbn; destruct (_ !! child) as [c|]; try destruct (hasKill c); cbn; auto.
Qed.

Lemma step_signals w e :
  signals (step w e) = signals w \/
  exists child sig, signals (step w e) = (child, sig) :: signals w.
Proof.
  destruct e as [a cfg [tool lg | tool lg] fullTask cwd outcome | lg jobId | a child s | a id];
    cbn [step invoke].
  - left. now destruct (asyncToolHandler_state a cfg tool lg fullTask cwd w) as (_ & _ & _ & _ & _ & H & _).
  - left. unfold syncToolHandler, executeTask, execa. destruct outcome, lg; reflexivity.
  - left. unfold checkJobStatus. rewrite log_jobs. destruct (jobs w !! jobId), lg; reflexivity.
  - left. unfold settle. destruct (settling w !! child) as [f|]; [|reflexivity].
    destruct s; unfold onFulfilled, onRejected, finalizeJob; cbn [jobs with_settling];
      destruct (jobs w !! f_jobId f) as [job|]; try reflexivity;
      destruct (is_running (status job)); try reflexivity;
      destruct (f_logger f), (f_timeoutId f); reflexivity.
  - unfold fire. destruct (timers w !! id) as [t|]; [|now left].
    destruct (callback t) as [jobId tool budget lg child | child]; [|right; eauto].
    unfold onJobTimeout. cbn [jobs with_timers].
    destruct (jobs w !! jobId) as [job|]; [|now left].
    destruct (is_running (status job)); [|now left].
    destruct lg; cbn; destruct (_ !! child) as [c|]; try destruct (hasKill c); cbn; eauto.
Qed.

Lemma onJobTimeout_escalates a jobId tool budget lg child w :
  (signals (onJobTimeout a jobId tool budget lg child w) = signals w /\
   timers (onJobTimeout a jobId tool budget lg child w) = timers w) \/
  (signals (onJobTimeout a jobId tool budget lg child w) = (child, SIGTERM) :: signals w /\
   timers (onJobTimeout a jobId tool budget lg child w)
   = <[timerSeq w := mkTimer (KillEscalation child) (JS.Num 5000)]> (timers w)).
Proof.
  unfold onJobTimeout.
  destruct (jobs w !! jobId) as [job|]; [|now left].
  destruct (is_running (status job)); [|now left]. cbn [negb].
  destruct lg; cbn; destruct (_ !! child) as [c|]; try destruct (hasKill c); cbn; auto.
Qed.

Lemma finalizeJob_timers_sub a f st res w id t :
  timers (finalizeJob a f st res w) !! id = Some t -> timers w !! id = Some t.
Proof.
  unfold finalizeJob.
  destruct (jobs w !! f_jobId f) as [job|]; [|auto].
  destruct (is_running (status job)); [|auto]. cbn [negb].
  destruct (f_logger f), (f_timeoutId f) as [tid|]; cbn; auto;
    (destruct (decide (tid = id)) as [->|Hne];
     [now rewrite lookup_delete_eq | now rewrite lookup_delete_ne]).
Qed.

Lemma finalizeJob_signals a f st res w : signals (finalizeJob a f st res w) = signals w.
Proof.
  unfold finalizeJob.
  destruct (jobs w !! f_jobId f) as [job|]; [|auto].
  destruct (is_running (status job)); [|auto]. cbn [negb].
  destruct (f_logger f), (f_timeoutId f); reflexivity.
Qed.

Lemma step_graceful_first w e : graceful_first w -> graceful_first (step w e).
Proof.
  intros [Hk Ht].
  destruct e as [a cfg [tool lg | tool lg] fullTask cwd outcome | lg jobId | a child s | a id].
  - cbn [step invoke] in *.
    destruct (asyncToolHandler_state a cfg tool lg fullTask cwd w)
      as (_ & _ & _ & Htm & _ & Hsig & _).
    split.
    + intros child. rewrite Hsig. apply Hk.
    + intros id child d. rewrite Htm, Hsig. intros Hl.
      destruct (decide (timerSeq w = id)) as [<-|Hne].
      * rewrite lookup_insert_eq in Hl. discriminate.
      * rewrite lookup_insert_ne in Hl by assumption. eauto.
  - assert (signals (step w (Invoke a cfg (SyncTool tool lg) fullTask cwd outcome)) = signals w /\
            timers (step w (Invoke a cfg (SyncTool tool lg) fullTask cwd outcome)) = timers w)
      as [Hs Htm].
    { cbn [step invoke]. unfold syncToolHandler, executeTask, execa.
      destruct outcome, lg; split; reflexivity. }
    split; [intros child|intros id child d]; rewrite ?Hs, ?Htm; eauto.
  - assert (signals (step w (Query lg jobId)) = signals w /\
            timers (step w (Query lg jobId)) = timers w) as [Hs Htm].
    { cbn [step]. unfold checkJobStatus. rewrite log_jobs.
      destruct (jobs w !! jobId), lg; split; reflexivity. }
    split; [intros child'|intros id child' d]; rewrite ?Hs, ?Htm; eauto.
  - cbn [step]. unfold settle. destruct (settling w !! child) as [f|]; [|now split].
    assert (forall st res,
              graceful_first (finalizeJob a f st res (with_settling (delete child) w))) as H.
    { intros st res. split.
      - intros c. rewrite finalizeJob_signals. apply Hk.
      - intros id c d Hl. rewrite finalizeJob_signals.
        apply finalizeJob_timers_sub in Hl. eauto. }
    destruct s; apply H.
  - cbn [step]. unfold fire. destruct (timers w !! id) as [t|] eqn:Hid; [|now split].
    assert (forall id' t', delete id (timers w) !! id' = Some t' -> timers w !! id' = Some t')
      as Hdel.
    { intros id' t' Hl. destruct (decide (id = id')) as [->|Hne].
      - now rewrite lookup_delete_eq in Hl.
      - now rewrite lookup_delete_ne in Hl. }
    destruct t as [[jobId tool budget lg child | child] d0]; cbn [callback].
    + destruct (onJobTimeout_escalates a jobId tool budget lg child (with_timers (delete id) w))
        as [[Hs Htm] | [Hs Htm]]; cbn [signals timers timerSeq with_timers] in Hs, Htm.
      * split.
        -- intros c. rewrite Hs. apply Hk.
        -- intros id' c d. rewrite Hs, Htm. intros Hl. eauto.
      * split.
        -- intros c. rewrite Hs. intros [E|Hin]; [discriminate E | right; auto].
        -- intros id' c d. rewrite Hs, Htm. intros Hl.
           destruct (decide (timerSeq w = id')) as [<-|Hne].
           ++ rewrite lookup_insert_eq in Hl. injection Hl as <- <-.
              split; [now left | reflexivity].
           ++ rewrite lookup_insert_ne in Hl by assumption.
              destruct (Ht _ _ _ (Hdel _ _ Hl)). split; [now right | assumption].
    + destruct (Ht _ _ _ Hid) as [Hterm _]. cbn. split.
      * intros c' [E|Hin]; [injection E as <-; now right | right; auto].
      * intros id' c' d Hl. destruct (Ht _ _ _ (Hdel _ _ Hl)). split; [now right | assumption].
Qed.

Lemma run_graceful_first es : forall w, graceful_first w -> graceful_first (run w es).
Proof.
  induction es as [|e es IH]; intros w H; [exact H|].
  rewrite run_cons. apply IH, step_graceful_first, H.
Qed.

Lemma graceful_first_initial : graceful_first initial.
Proof.
  split; [intros child []|]. intros id child d H. cbn in H. now rewrite lookup_empty in H.
Qed.

(** X6. When the timer of a running job fires and its subprocess can be
    killed, the subprocess is sent [SIGTERM] at once and a second timer of
    5000 ms is set; when that one fires, the same subprocess is sent
    [SIGKILL], the timer is gone and the registry is as it was. When the
    subprocess has no [kill], no signal is sent and no timer is set. *)
Theorem timeout_escalation (a a' : Ambient) (w : World) (id : nat) (jobId tool : string)
    (budget d : JS.number) (lg : option Logger) (child : nat) (job : Job) (c : Child) :
  timers w !! id = Some (mkTimer (JobTimeout jobId tool budget lg child) d) ->
  jobs w !! jobId = Some job ->
  status job = running ->
  children w !! child = Some c ->
  if hasKill c then
    signals (fire a id w) = (child, SIGTERM) :: signals w /\
    timers (fire a id w) !! timerSeq w = Some (mkTimer (KillEscalation child) (JS.Num 5000)) /\
    signals (fire a' (timerSeq w) (fire a id w))
    = (child, SIGKILL) :: (child, SIGTERM) :: signals w /\
    timers (fire a' (timerSeq w) (fire a id w)) !! timerSeq w = None /\
    jobs (fire a' (timerSeq w) (fire a id w)) = jobs (fire a id w)
  else
    signals (fire a id w) = signals w /\ timers (fire a id w) = delete id (timers w).
Proof.
  intros Ht Hl Hrun Hc.
  pose proof (fire_job_timeout_effect a w id jobId tool budget d lg child job Ht Hl Hrun) as H.
  rewrite Hc in H. destruct (hasKill c).
  - destruct H as (Hs & Htm & _).
    assert (timers (fire a id w) !! timerSeq w
            = Some (mkTimer (KillEscalation child) (JS.Num 5000))) as Hk
      by (rewrite Htm; apply lookup_insert_eq).
    split; [exact Hs|]. split; [exact Hk|].
    unfold fire at 1 3 5. rewrite Hk. cbn [callback kill signals timers jobs with_timers].
    rewrite Hs. split; [reflexivity|]. split; [apply lookup_delete_eq | reflexivity].
  - destruct H as (Hs & Htm & _). auto.
Qed.

(** X7. Along every run, a subprocess is sent [SIGKILL] only after it was
    sent [SIGTERM], and every pending kill timer has a delay of 5000 ms and
    follows a [SIGTERM] to its subprocess. *)
Theorem sigkill_only_after_sigterm (es : list Event) :
  (forall child, In (child, SIGKILL) (signals (run initial es)) ->
     In (child, SIGTERM) (signals (run initial es))) /\
  (forall id child d,
     timers (run initial es) !! id = Some (mkTimer (KillEscalation child) d) ->
     In (child, SIGTERM) (signals (run initial es)) /\ d = JS.Num 5000).
Proof. apply run_graceful_first, graceful_first_initial. Qed.

(** ** What a record keeps *)

Lemma change_descriptor w w' k job :
  Change w w' -> issued w -> (jobIdCounter w' < JS.MAX_SAFE)%Z ->
  jobs w !! k = Some job ->
  exists job', jobs w' !! k = Some job' /\
    toolName job' = toolName job /\ startedAt job' = startedAt job /\
    timeoutMs job' = timeoutMs job.
Proof.
  intros Hch Hiss Hlt Hl.
  pose proof (change_counter_big _ _ Hch) as Hbig.
  destruct Hch as [Hj Hc | id job0 st res at_ flag Hjob Hrun Hst Hj Hc | now job0 _ _ Hj Hc];
    rewrite Hj.
  - eauto.
  - destruct (decide (id = k)) as [->|Hne].
    + rewrite Hl in Hjob. injection Hjob as <-. rewrite lookup_insert_eq. eauto.
    + rewrite lookup_insert_ne by assumption. eauto.
  - assert (jobIdCounter w < JS.MAX_SAFE)%Z as Hsafe by lia.
    destruct (decide (jobIdOf now (JS.incr (jobIdCounter w)) = k)) as [<-|Hne].
    + rewrite issued_fresh in Hl by assumption. discriminate.
    + rewrite lookup_insert_ne by assumption. eauto.
Qed.

Lemma run_descriptor es : forall w k job,
  issued w -> (jobIdCounter (run w es) < JS.MAX_SAFE)%Z ->
  jobs w !! k = Some job ->
  exists job', jobs (run w es) !! k = Some job' /\
    toolName job' = toolName job /\ startedAt job' = startedAt job /\
    timeoutMs job' = timeoutMs job.
Proof.
  induction es as [|e es IH]; intros w k job Hiss Hlt Hl; [eauto|].
  rewrite run_cons in *.
  pose proof (run_counter_safe es _ Hlt) as Hstep.
  destruct (change_descriptor _ _ k job (step_change w e) Hiss Hstep Hl)
    as (job1 & Hl1 & Ht1 & Hs1 & Hb1).
  destruct (IH (step w e) k job1 (change_issued _ _ (step_change w e) Hiss) Hlt Hl1)
    as (job2 & Hl2 & Ht2 & Hs2 & Hb2).
  exists job2. repeat split; congruence.
Qed.

(** X8. Every record of a reachable registry was created by one asynchronous
    invocation of the run. Its key is the identifier made of that
    invocation's clock and of the counter at that point, and the record
    still carries the name of the invoked tool, the start time and the
    timeout budget resolved then, whatever happened to the job since. Stated
    for the runs in which the counter stays below [2^53]. *)
Theorem job_provenance (es : list Event) (jobId : string) (job : Job) :
  (jobIdCounter (run initial es) < JS.MAX_SAFE)%Z ->
  jobs (run initial es) !! jobId = Some job ->
  exists es1 a cfg tool lg fullTask cwd outcome es2,
    es = (es1 ++ Invoke a cfg (AsyncTool tool lg) fullTask cwd outcome :: es2)%list /\
    jobId = jobIdOf (dateNow a) (jobIdCounter (run initial es1) + 1) /\
    toolName job = name tool /\
    startedAt job = isoNow a /\
    timeoutMs job = resolveJobTimeoutMs a.
Proof.
  intros Hsafe Hl.
  destruct (run_inserted es initial jobId)
    as (es1 & a & cfg & tool & lg & ft & cwd & o & es2 & -> & Hnone & Hin).
  { cbn. apply lookup_empty. }
  { rewrite Hl. eauto. }
  exists es1, a, cfg, tool, lg, ft, cwd, o, es2. split; [reflexivity|].
  rewrite run_app, run_cons in Hl, Hsafe.
  set (w1 := run initial es1) in *.
  assert (issued w1) as Hiss by (apply run_issued, issued_initial).
  pose proof (run_counter_safe es2 _ Hsafe) as Hsafe1.
  pose proof (step_counter_safe _ _ Hsafe1) as Hsafe0.
  cbn [step invoke] in *.
  destruct (asyncToolHandler_state a cfg tool lg ft cwd w1) as (_ & Hj & _).
  set (w2 := snd (asyncToolHandler a cfg tool lg ft cwd w1)) in *.
  assert (jobId = jobIdOf (dateNow a) (JS.incr (jobIdCounter w1))) as Hid.
  { destruct (decide (jobIdOf (dateNow a) (JS.incr (jobIdCounter w1)) = jobId)) as [E|Hne];
      [now symmetry|].
    rewrite Hj, lookup_insert_ne, Hnone in Hin by assumption. now destruct Hin. }
  split.
  { rewrite Hid. f_equal. apply incr_exact. destruct Hiss. lia. }
  destruct (run_descriptor es2 w2 jobId
              (mkJob running (name tool) (isoNow a) None (resolveJobTimeoutMs a) None None))
    as (job' & Hl' & Ht & Hs & Hb).
  - change w2 with (step w1 (Invoke a cfg (AsyncTool tool lg) ft cwd o)).
    eapply change_issued; eauto using step_change.
  - exact Hsafe.
  - rewrite Hj, Hid. apply lookup_insert_eq.
  - rewrite Hl in Hl'. injection Hl' as <-. auto.
Qed.

(** ** Census of the registry *)

Lemma asyncToolHandler_counter a cfg tool lg fullTask cwd w :
  jobIdCounter (snd (asyncToolHandler a cfg tool lg fullTask cwd w)) = JS.incr (jobIdCounter w).
Proof.
  unfold asyncToolHandler.
  destruct (startTaskAsync_effect a (model cfg) (modelId cfg) fullTask cwd (name tool) lg
              (log lg log_info "requests" "tool_request" w)) as (_ & _ & Hc).
  destruct (startTaskAsync _ _ _ _ _ _ _ _) as [jobId w1]. cbn [snd] in *.
  now rewrite log_counter, Hc, log_counter.
Qed.

Lemma step_census w e :
  issued w -> (jobIdCounter (step w e) < JS.MAX_SAFE)%Z ->
  size (jobs (step w e)) = (size (jobs w) + (if is_async_invocation e then 1 else 0))%nat /\
  jobIdCounter (step w e) = (jobIdCounter w + (if is_async_invocation e then 1 else 0))%Z.
Proof.
  intros Hiss Hlt. pose proof (step_counter_safe _ _ Hlt) as Hsafe.
  destruct (is_async_invocation e) eqn:Ea.
  - destruct e as [a cfg [tool lg | tool lg] fullTask cwd outcome | | |]; try discriminate.
    cbn [step invoke].
    destruct (asyncToolHandler_state a cfg tool lg fullTask cwd w) as (_ & Hj & _).
    rewrite Hj, asyncToolHandler_counter. split.
    + rewrite map_size_insert_None by (apply issued_fresh; assumption). lia.
    + apply incr_exact. destruct Hiss. lia.
  - destruct (step_change w e) as [Hj Hc | id job st res at_ flag Hjob _ _ Hj Hc | now job _ _ Hj Hc].
    + rewrite Hj, Hc. lia.
    + rewrite Hj, Hc. rewrite map_size_insert_Some by eauto. lia.
    + exfalso.
      destruct (step_creates w e (jobIdOf now (JS.incr (jobIdCounter w))))
        as (a & cfg & tool & lg & ft & cwd & o & ->).
      * apply issued_fresh; assumption.
      * rewrite Hj, lookup_insert_eq. eauto.
      * discriminate.
Qed.

Lemma run_census es : forall w,
  issued w -> (jobIdCounter (run w es) < JS.MAX_SAFE)%Z ->
  size (jobs (run w es)) = (size (jobs w) + length (List.filter is_async_invocation es))%nat /\
  jobIdCounter (run w es)
  = (jobIdCounter w + Z.of_nat (length (List.filter is_async_invocation es)))%Z.
Proof.
  induction es as [|e es IH]; intros w Hiss Hlt;
    [cbn [run fold_left List.filter length]; split; lia|].
  rewrite run_cons in *.
  pose proof (run_counter_safe es _ Hlt) as Hstep.
  destruct (step_census w e Hiss Hstep) as (Hs1 & Hc1).
  destruct (IH (step w e) (change_issued _ _ (step_change w e) Hiss) Hlt) as (Hs2 & Hc2).
  rewrite Hs2, Hc2, Hs1, Hc1. cbn [List.filter].
  destruct (is_async_invocation e); cbn [length]; split; lia.
Qed.

(** X9. Nothing is ever removed from the registry: after a run it holds
    exactly as many jobs as the run has asynchronous invocations, and the
    counter of identifiers has that value. Stated for the runs in which the
    counter stays below [2^53]. *)
Theorem registry_census (es : list Event) :
  (jobIdCounter (run initial es) < JS.MAX_SAFE)%Z ->
  size (jobs (run initial es)) = length (List.filter is_async_invocation es) /\
  jobIdCounter (run initial es) = Z.of_nat (length (List.filter is_async_invocation es)).
Proof.
  intros Hsafe. destruct (run_census es initial issued_initial Hsafe) as (Hs & Hc).
  rewrite Hs, Hc. cbn. split; [|lia]. now rewrite map_size_empty.
Qed.

(** ** Subprocesses *)

Lemma finalizeJob_children a f st res w : children (finalizeJob a f st res w) = children w.
Proof.
  unfold finalizeJob. destruct (jobs w !! f_jobId f) as [job|]; [|reflexivity].
  destruct (is_running (status job)); [|reflexivity].
  destruct (f_logger f), (f_timeoutId f); reflexivity.
Qed.

Lemma onJobTimeout_children a jobId tool budget lg child w :
  children (onJobTimeout a jobId tool budget lg child w) = children w.
Proof.
  unfold onJobTimeout. destruct (jobs w !! jobId) as [job|]; [|reflexivity].
  destruct (is_running (status job)); [|reflexivity]. cbn [negb].
  destruct lg; cbn; destruct (children w !! child) as [c|]; try reflexivity;
    destruct (hasKill c); reflexivity.
Qed.

Lemma step_children w e : children (step w e) = (children w ++ spawned e)%list.
Proof.
  destruct e as [a cfg [tool lg | tool lg] fullTask cwd outcome | lg jobId | a child s | a id];
    cbn [step invoke spawned]; rewrite ?app_nil_r.
  - now destruct (asyncToolHandler_state a cfg tool lg fullTask cwd w)
      as (_ & _ & _ & _ & _ & _ & ->).
  - unfold syncToolHandler, executeTask, execa. destruct outcome, lg; reflexivity.
  - unfold checkJobStatus. rewrite log_jobs. destruct (jobs w !! jobId), lg; reflexivity.
  - unfold settle. destruct (settling w !! child) as [f|]; [|reflexivity].
    destruct s; unfold onFulfilled, onRejected; now rewrite finalizeJob_children.
  - unfold fire. destruct (timers w !! id) as [t|]; [|reflexivity].
    destruct (callback t); [now rewrite onJobTimeout_children | reflexivity].
Qed.

Lemma run_children es : forall w,
  children (run w es) = (children w ++ flat_map spawned es)%list.
Proof.
  induction es as [|e es IH]; intros w; cbn [flat_map]; [now rewrite app_nil_r|].
  now rewrite run_cons, IH, step_children, <- app_assoc.
Qed.

(** X10. The subprocesses spawned along a run are, in order, one for each
    tool invocation, synchronous or asynchronous alike, and none for any
    other callback. Each runs the command of the configured model, with
    [--model <id>] in front when a non-empty model id is configured, then the
    base arguments of the model, and the prompt as the last argument. *)
Theorem one_subprocess_per_invocation (es : list Event) :
  children (run initial es) = flat_map spawned es /\
  forall c, In c (children (run initial es)) ->
    exists m mid task,
      file c = command (CLI_CONFIG m) /\
      arguments c
      = ((if truthy mid then ["--model"; default "" mid] else [])
         ++ baseArgs (CLI_CONFIG m) ++ [task])%list /\
      List.last (arguments c) "" = task.
Proof.
  rewrite run_children. cbn [children initial app]. split; [reflexivity|].
  intros c Hin. apply in_flat_map in Hin as (e & _ & Hc).
  destruct e as [a cfg h fullTask cwd outcome | | |]; cbn in Hc; try contradiction.
  destruct Hc as [<-|[]]. exists (model cfg), (modelId cfg), fullTask. cbn [file arguments].
  split; [reflexivity|]. unfold cliArgs.
  destruct (truthy (modelId cfg)); (split; [reflexivity|]).
  - now rewrite !app_comm_cons, last_last.
  - now rewrite last_last.
Qed.

(** ** Supervision of the running jobs *)

Lemma supervised_initial : supervised initial.
Proof.
  split; [|split]; cbn.
  - intros id t H. now rewrite lookup_empty in H.
  - intros child f H. now rewrite lookup_empty in H.
  - intros jobId job H. now rewrite lookup_empty in H.
Qed.

(** A callback that leaves the registry, the timers and the pending
    callbacks alone. *)
Lemma supervised_frame w w' :
  jobs w' = jobs w -> timers w' = timers w -> timerSeq w' = timerSeq w ->
  settling w' = settling w -> (length (children w) <= length (children w'))%nat ->
  supervised w -> supervised w'.
Proof.
  intros Hj Ht Hs Hc Hl (H1 & H2 & H3). unfold supervised. rewrite Hj, Ht, Hs, Hc.
  split; [exact H1|]. split; [|exact H3].
  intros child f Hf. destruct (H2 child f Hf) as (Hlt & Hid). split; [lia | exact Hid].
Qed.

Lemma supervised_started a cfg tool lg fullTask cwd w :
  supervised w -> supervised (snd (asyncToolHandler a cfg tool lg fullTask cwd w)).
Proof.
  intros (H1 & H2 & H3).
  destruct (asyncToolHandler_state a cfg tool lg fullTask cwd w)
    as (_ & Hj & Hs & Ht & Hq & _ & Hc).
  set (w' := snd (asyncToolHandler a cfg tool lg fullTask cwd w)) in *.
  set (jobId := jobIdOf (dateNow a) (JS.incr (jobIdCounter w))) in *.
  unfold supervised. rewrite Hj, Hs, Ht, Hq, Hc, length_app. cbn [length].
  split; [|split].
  - intros id t Hl. destruct (decide (timerSeq w = id)) as [<-|Hne]; [lia|].
    rewrite lookup_insert_ne in Hl by assumption. apply H1 in Hl. lia.
  - intros child f Hl. destruct (decide (length (children w) = child)) as [<-|Hne].
    + rewrite lookup_insert_eq in Hl. injection Hl as <-. split; [lia|].
      intros id [= <-]. split; [lia|]. intros t Ht'. rewrite lookup_insert_eq in Ht'.
      injection Ht' as <-. cbn. eauto.
    + rewrite lookup_insert_ne in Hl by assumption.
      destruct (H2 child f Hl) as (Hlt & Hid). split; [lia|].
      intros id Hf. destruct (Hid id Hf) as (Hlt' & Hcb). split; [lia|].
      intros t Ht'. rewrite lookup_insert_ne in Ht' by lia. eauto.
  - intros k job Hl Hrun. destruct (decide (jobId = k)) as [<-|Hne].
    + rewrite lookup_insert_eq in Hl. injection Hl as <-. cbn [timeoutMs].
      exists (timerSeq w), (name tool), lg, (length (children w)).
      now rewrite !lookup_insert_eq.
    + rewrite lookup_insert_ne in Hl by assumption.
      destruct (H3 k job Hl Hrun) as (id & tl & l & child & Hti & Hse).
      exists id, tl, l, child.
      pose proof (H1 _ _ Hti). destruct (H2 _ _ Hse) as (Hlt & _).
      rewrite !lookup_insert_ne by lia. auto.
Qed.

Lemma supervised_settled a child s w : supervised w -> supervised (settle a child s w).
Proof.
  intros (H1 & H2 & H3).
  destruct (settling w !! child) as [f|] eqn:Hf.
  2:{ unfold settle. rewrite Hf. exact (conj H1 (conj H2 H3)). }
  destruct (H2 child f Hf) as (Hchild & Hid).
  assert (forall w', jobs w' = jobs w -> timers w' = timers w -> timerSeq w' = timerSeq w ->
            settling w' = delete child (settling w) -> children w' = children w ->
            (forall job, jobs w !! f_jobId f = Some job -> status job <> running) ->
            supervised w') as Hidle.
  { intros w' Hj Ht Hq Hs Hc Hnot. unfold supervised. rewrite Hj, Ht, Hq, Hs, Hc.
    split; [exact H1|]. split.
    - intros c f' Hl. apply lookup_delete_Some in Hl as [_ Hl]. eauto.
    - intros k job Hl Hrun. destruct (H3 k job Hl Hrun) as (id & tl & l & c & Hti & Hse).
      exists id, tl, l, c. split; [exact Hti|].
      rewrite lookup_delete_ne; [exact Hse|]. intros <-.
      rewrite Hf in Hse. injection Hse as ->. cbn in Hnot. eapply Hnot; eauto. }
  destruct (jobs w !! f_jobId f) as [job|] eqn:Hjob.
  2:{ apply Hidle; try discriminate;
        unfold settle; rewrite Hf; destruct s; unfold onFulfilled, onRejected, finalizeJob;
        cbn [jobs with_settling]; rewrite Hjob; reflexivity. }
  destruct (is_running (status job)) eqn:Hrun.
  2:{ apply Hidle;
        try (unfold settle; rewrite Hf; destruct s; unfold onFulfilled, onRejected;
             erewrite finalizeJob_skip by eauto; reflexivity).
      intros job' [= <-] E. rewrite E in Hrun. discriminate. }
  assert (status job = running) as Hst by (destruct (status job); [reflexivity | discriminate ..]).
  destruct (settle_running a child s w f job Hf Hjob Hst)
    as (st & res & Hsr & Hj & Ht & Hq & Hs & _ & Hc).
  assert (st <> running) as Hterm.
  { destruct s; destruct Hsr as [-> _]; [destruct (_ =? _)%Z|]; discriminate. }
  assert (forall id t, timers (settle a child s w) !! id = Some t -> timers w !! id = Some t)
    as Hsub.
  { intros id t. rewrite Ht. destruct (f_timeoutId f); [|auto].
    intros Hl. now apply lookup_delete_Some in Hl as [_ Hl]. }
  unfold supervised. rewrite Hq, Hc. split; [eauto|]. split.
  - intros c f' Hl. rewrite Hs in Hl. apply lookup_delete_Some in Hl as [_ Hl].
    destruct (H2 c f' Hl) as (Hlt & Hid'). split; [exact Hlt|].
    intros id Hfid. destruct (Hid' id Hfid) as (Hlt' & Hcb). split; [exact Hlt'|]. eauto.
  - intros k job' Hl Hrun'. rewrite Hj in Hl.
    destruct (decide (f_jobId f = k)) as [<-|Hne].
    { rewrite lookup_insert_eq in Hl. injection Hl as <-. contradiction. }
    rewrite lookup_insert_ne in Hl by assumption.
    destruct (H3 k job' Hl Hrun') as (id & tl & l & c & Hti & Hse).
    exists id, tl, l, c. split.
    + rewrite Ht. destruct (f_timeoutId f) as [tid|] eqn:Hft; [|exact Hti].
      rewrite lookup_delete_ne; [exact Hti|]. intros <-.
      destruct (Hid tid eq_refl) as (_ & Hcb).
      destruct (Hcb _ Hti) as (tl' & b' & l' & E). cbn in E. congruence.
    + rewrite Hs, lookup_delete_ne; [exact Hse|]. intros <-.
      rewrite Hf in Hse. injection Hse as ->. now cbn in Hne.
Qed.

Lemma onJobTimeout_settling a jobId tool budget lg child w :
  settling (onJobTimeout a jobId tool budget lg child w) = settling w.
Proof.
  unfold onJobTimeout. destruct (jobs w !! jobId) as [job|]; [|reflexivity].
  destruct (is_running (status job)); [|reflexivity]. cbn [negb].
  destruct lg; cbn; destruct (children w !! child) as [c|]; try reflexivity;
    destruct (hasKill c); reflexivity.
Qed.

Lemma supervised_fired a id w : supervised w -> supervised (fire a id w).
Proof.
  intros (H1 & H2 & H3).
  destruct (timers w !! id) as [t|] eqn:Hti.
  2:{ unfold fire. rewrite Hti. exact (conj H1 (conj H2 H3)). }
  assert (forall w', jobs w' = jobs w -> timers w' = delete id (timers w) ->
            timerSeq w' = timerSeq w -> settling w' = settling w -> children w' = children w ->
            (forall jobId tool budget lg child job,
               callback t = JobTimeout jobId tool budget lg child ->
               jobs w !! jobId = Some job -> status job <> running) ->
            supervised w') as Hidle.
  { intros w' Hj Ht Hq Hs Hc Hnot. unfold supervised. rewrite Hj, Ht, Hq, Hs, Hc.
    split; [|split].
    - intros i t' Hl. apply lookup_delete_Some in Hl as [_ Hl]. eauto.
    - intros c f Hl. destruct (H2 c f Hl) as (Hlt & Hid). split; [exact Hlt|].
      intros i Hfi. destruct (Hid i Hfi) as (Hlt' & Hcb). split; [exact Hlt'|].
      intros t' Hl'. apply lookup_delete_Some in Hl' as [_ Hl']. eauto.
    - intros k job Hl Hrun. destruct (H3 k job Hl Hrun) as (i & tl & l & c & Hi & Hse).
      exists i, tl, l, c. split; [|exact Hse].
      rewrite lookup_delete_ne; [exact Hi|]. intros <-.
      rewrite Hti in Hi. injection Hi as ->. eapply Hnot; eauto; reflexivity. }
  destruct t as [[jobId tool budget lg child | child] d].
  2:{ apply Hidle; try (unfold fire; rewrite Hti; reflexivity). discriminate. }
  destruct (jobs w !! jobId) as [job|] eqn:Hjob.
  2:{ apply Hidle;
        try (unfold fire; rewrite Hti; cbn [callback]; unfold onJobTimeout;
             cbn [jobs with_timers]; rewrite Hjob; reflexivity).
      intros ? ? ? ? ? job' [= <- _ _ _ _] E. congruence. }
  destruct (is_running (status job)) eqn:Hrun.
  2:{ apply Hidle;
        try (unfold fire; rewrite Hti; cbn [callback];
             erewrite onJobTimeout_skip by (cbn [jobs with_timers]; eauto); reflexivity).
      intros ? ? ? ? ? job' [= <- _ _ _ _] E Hr. rewrite Hjob in E. injection E as <-.
      rewrite Hr in Hrun. discriminate. }
  assert (jobs (fire a id w)
          = <[jobId := mkJob failed (toolName job) (startedAt job)
                         (Some (mkTaskResult (-1) ""
                                  ("Timed out after " ++ JS.toString budget ++ "ms")))
                         (timeoutMs job) (Some (isoNow a)) (Some true)]> (jobs w) /\
          ((timers (fire a id w) = delete id (timers w) /\ timerSeq (fire a id w) = timerSeq w) \/
           (timers (fire a id w)
            = <[timerSeq w := mkTimer (KillEscalation child) (JS.Num 5000)]>
                (delete id (timers w)) /\
            timerSeq (fire a id w) = S (timerSeq w))) /\
          settling (fire a id w) = settling w /\
          children (fire a id w) = children w) as (Hj & Ht & Hs & Hc).
  { unfold fire. rewrite Hti. cbn [callback].
    rewrite onJobTimeout_settling, onJobTimeout_children.
    destruct (onJobTimeout_effect a jobId tool budget lg child (with_timers (delete id) w) job
                Hjob Hrun) as (-> & Ht).
    auto. }
  unfold supervised. rewrite Hj, Hs, Hc.
  assert (forall i t', timers (fire a id w) !! i = Some t' ->
            (i = timerSeq w /\ timerSeq (fire a id w) = S (timerSeq w)) \/
            (id <> i /\ timers w !! i = Some t')) as Hsub.
  { intros i t' Hl. destruct Ht as [[Ht Hq] | [Ht Hq]]; rewrite Ht in Hl.
    - apply lookup_delete_Some in Hl. auto.
    - destruct (decide (timerSeq w = i)) as [<-|Hne]; [auto|].
      rewrite lookup_insert_ne in Hl by assumption. apply lookup_delete_Some in Hl. auto. }
  assert (timerSeq w <= timerSeq (fire a id w))%nat as Hmono
    by (destruct Ht as [[_ ->] | [_ ->]]; lia).
  split; [|split].
  - intros i t' Hl. destruct (Hsub i t' Hl) as [[-> ->] | [_ Hl']]; [lia|].
    apply H1 in Hl'. lia.
  - intros c f Hl. destruct (H2 c f Hl) as (Hlt & Hid). split; [exact Hlt|].
    intros i Hfi. destruct (Hid i Hfi) as (Hlt' & Hcb). split; [lia|].
    intros t' Hl'. destruct (Hsub i t' Hl') as [[-> _] | [_ Hl'']]; [lia | eauto].
  - intros k job' Hl Hrun'. destruct (decide (jobId = k)) as [<-|Hne].
    { rewrite lookup_insert_eq in Hl. injection Hl as <-. discriminate. }
    rewrite lookup_insert_ne in Hl by assumption.
    destruct (H3 k job' Hl Hrun') as (i & tl & l & c & Hi & Hse).
    exists i, tl, l, c. split; [|exact Hse].
    assert (i <> id) as Hne' by (intros ->; rewrite Hti in Hi; congruence).
    pose proof (H1 _ _ Hi) as Hlt.
    destruct Ht as [[-> _] | [-> _]].
    + now rewrite lookup_delete_ne.
    + rewrite lookup_insert_ne by lia. now rewrite lookup_delete_ne.
Qed.

Lemma step_supervised w e : supervised w -> supervised (step w e).
Proof.
  intros H.
  destruct e as [a cfg [tool lg | tool lg] fullTask cwd outcome | lg jobId | a child s | a id];
    cbn [step invoke].
  - now apply supervised_started.
  - eapply supervised_frame; [| | | | |exact H];
      unfold syncToolHandler, executeTask, execa; destruct outcome, lg; cbn;
      rewrite ?length_app; try reflexivity; lia.
  - eapply supervised_frame; [| | | | |exact H];
      unfold checkJobStatus; rewrite log_jobs; destruct (jobs w !! jobId), lg; cbn;
      try reflexivity; lia.
  - now apply supervised_settled.
  - now apply supervised_fired.
Qed.

Lemma run_supervised es : forall w, supervised w -> supervised (run w es).
Proof.
  induction es as [|e es IH]; intros w H; [exact H|].
  rewrite run_cons. apply IH, step_supervised, H.
Qed.

(** X11. In every state the program reaches, a running job is watched from
    both sides: its timeout timer is pending, and the completion callback of
    its subprocess is pending and holds that timer. The timer's callback
    carries the budget stored in the record; the timer's delay is what Node
    arms for that budget, [armed (timeoutMs job)]: the budget itself from 1
    to [2^31 - 1] ms, and 1 ms otherwise. Whichever comes first
    finalizes the job: the timer makes it [failed] with [timedOut] true, a
    settlement makes it [completed] or [failed] and removes the timer. *)
Theorem running_jobs_are_supervised (es : list Event) (jobId : string) (job : Job) :
  jobs (run initial es) !! jobId = Some job ->
  status job = running ->
  exists id tool lg child,
    timers (run initial es) !! id
    = Some (mkTimer (JobTimeout jobId tool (timeoutMs job) lg child)
              (armed (timeoutMs job))) /\
    settling (run initial es) !! child = Some (mkFinalizer jobId (Some id) tool lg) /\
    (forall a, exists job',
       jobs (fire a id (run initial es)) !! jobId = Some job' /\
       status job' = failed /\ timedOut job' = Some true) /\
    (forall a s, exists job',
       jobs (settle a child s (run initial es)) !! jobId = Some job' /\
       terminal (status job') /\
       timers (settle a child s (run initial es)) !! id = None).
Proof.
  intros Hl Hrun.
  destruct (run_supervised es initial supervised_initial) as (_ & _ & H3).
  destruct (H3 jobId job Hl Hrun) as (id & tool & lg & child & Hti & Hse).
  exists id, tool, lg, child. split; [exact Hti|]. split; [exact Hse|]. split.
  - intros a. eexists. split; [eapply fire_job_timeout; eauto|]. auto.
  - intros a s.
    destruct (settle_running a child s (run initial es) (mkFinalizer jobId (Some id) tool lg)
                job Hse Hl Hrun) as (st & res & Hsr & Hj & Ht & _).
    cbn [f_jobId f_timeoutId] in *. eexists. rewrite Hj, Ht.
    split; [apply lookup_insert_eq|]. split; [|apply lookup_delete_eq].
    cbn [status]. destruct s; destruct Hsr as [-> _]; [destruct (_ =? _)%Z|];
      unfold terminal; auto.
Qed.

(** ** Prompts *)

Lemma span_key_spec (s : string) :
  s = fst (span_key s) ++ snd (span_key s) /\
  free_of "}" (fst (span_key s)) = true /\
  (String.length (snd (span_key s)) <= String.length s)%nat.
Proof.
  induction s as [|c s IH]; cbn [span_key]; [cbn [fst snd]; rewrite append_nil_l; auto|].
  destruct (Ascii.eqb c "}") eqn:E.
  - cbn [fst snd free_of]. rewrite append_nil_l. auto.
  - destruct (span_key s) as [key rest]. cbn [fst snd] in *.
    destruct IH as (IH1 & IH2 & IH3). rewrite append_cons, <- IH1. cbn [free_of String.length].
    rewrite E, IH2. split; [reflexivity|]. split; [reflexivity | lia].
Qed.

Lemma length_append (s t : string) :
  String.length (s ++ t) = (String.length s + String.length t)%nat.
Proof.
  induction s as [|c s IH]; [now rewrite append_nil_l|].
  rewrite append_cons. cbn [String.length]. now rewrite IH.
Qed.

Lemma append_nil_r (s : string) : s ++ "" = s.
Proof. induction s as [|c s IH]; [reflexivity|]. now rewrite append_cons, IH. Qed.

Lemma append_assoc (s t u : string) : (s ++ t) ++ u = s ++ t ++ u.
Proof. induction s as [|c s IH]; [now rewrite !append_nil_l|]. now rewrite !append_cons, IH. Qed.

Lemma span_key_app (key rest : string) :
  free_of "}" key = true ->
  span_key (key ++ String "}" rest) = (key, String "}" rest).
Proof.
  induction key as [|c key IH]; intros Hfree.
  - rewrite append_nil_l. reflexivity.
  - cbn [free_of] in Hfree. apply andb_true_iff in Hfree as [Hc Hfree].
    rewrite append_cons. cbn [span_key].
    apply negb_true_iff in Hc. rewrite Hc, IH by assumption. reflexivity.
Qed.

Lemma span_key_free (s : string) : free_of "}" s = true -> span_key s = (s, "").
Proof.
  induction s as [|c s IH]; intros Hfree; [reflexivity|].
  cbn [free_of] in Hfree. apply andb_true_iff in Hfree as [Hc Hfree].
  cbn [span_key]. apply negb_true_iff in Hc. now rewrite Hc, IH.
Qed.

Lemma match_placeholder_shorter (s key rest : string) :
  match_placeholder s = Some (key, rest) -> (String.length rest < String.length s)%nat.
Proof.
  destruct s as [|a [|b s']]; cbn [match_placeholder]; try discriminate.
  destruct (_ && _); [|discriminate].
  pose proof (span_key_spec s') as (_ & _ & Hlen).
  destruct (span_key s') as [[|c k] [|d [|e r]]]; try discriminate.
  destruct (_ && _); [|discriminate].
  intros [= _ <-]. cbn [snd String.length] in *. lia.
Qed.

Lemma match_placeholder_plain (c : ascii) (s : string) :
  Ascii.eqb c "{" = false -> match_placeholder (String c s) = None.
Proof. intros E. destruct s; cbn [match_placeholder]; [reflexivity|]. now rewrite E. Qed.

Lemma doubled_tail (c a : ascii) (s : string) :
  doubled c (String a s) = false -> doubled c s = false.
Proof. destruct s; [reflexivity|]. cbn [doubled]. now intros [_ H]%orb_false_iff. Qed.

Lemma doubled_suffix (c : ascii) (pre s : string) :
  doubled c (pre ++ s) = false -> doubled c s = false.
Proof.
  induction pre as [|a pre IH]; [now rewrite append_nil_l|].
  rewrite append_cons. intros H. eapply IH, doubled_tail, H.
Qed.

Lemma match_placeholder_unopened (s : string) :
  doubled "{" s = false -> match_placeholder s = None.
Proof.
  destruct s as [|a [|b s']]; cbn [match_placeholder doubled]; try reflexivity.
  now intros [-> _]%orb_false_iff.
Qed.

(** No match begins at a [{] that the next character does not double. *)
Lemma match_placeholder_single (c : ascii) (pre s : string) :
  doubled "{" (String c pre ++ "{") = false -> match_placeholder (String c (pre ++ s)) = None.
Proof.
  destruct pre as [|b pre]; rewrite !append_cons, ?append_nil_l; cbn [doubled].
  - intros [Hc _]%orb_false_iff. change (Ascii.eqb "{" "{") with true in Hc.
    rewrite andb_true_r in Hc. now apply match_placeholder_plain.
  - intros [Hc _]%orb_false_iff. cbn [match_placeholder]. now rewrite Hc.
Qed.

Lemma match_placeholder_unclosed (s : string) :
  doubled "}" s = false -> match_placeholder s = None.
Proof.
  intros Hd. destruct s as [|a [|b s']]; cbn [match_placeholder]; try reflexivity.
  destruct (_ && _); [|reflexivity].
  apply doubled_tail, doubled_tail in Hd.
  pose proof (span_key_spec s') as (Hs & _).
  destruct (span_key s') as [[|c k] [|d [|e r]]]; try reflexivity.
  cbn [fst snd] in Hs. rewrite Hs in Hd. apply doubled_suffix in Hd.
  cbn [doubled] in Hd. apply orb_false_iff in Hd as [-> _]. reflexivity.
Qed.

Lemma match_placeholder_found (key post : string) :
  key <> "" -> free_of "}" key = true ->
  match_placeholder ("{{" ++ key ++ "}}" ++ post) = Some (key, post).
Proof.
  intros Hne Hfree. rewrite !append_cons, !append_nil_l. cbn [match_placeholder].
  change (Ascii.eqb "{" "{") with true. cbn [andb].
  rewrite span_key_app by assumption.
  destruct key as [|c key]; [contradiction|].
  change (Ascii.eqb "}" "}") with true. reflexivity.
Qed.

Section Replacement.

Context {V : Type} (render : V -> string) (params : gmap string V).

Lemma replace_fuel : forall (n m : nat) (s : string),
  (String.length s <= n)%nat -> (String.length s <= m)%nat ->
  replace_placeholders render n params s = replace_placeholders render m params s.
Proof.
  induction n as [|n IH]; intros m s Hn Hm.
  - destruct s; [|cbn in Hn; lia]. destruct m; reflexivity.
  - destruct m as [|m].
    + destruct s; [reflexivity | cbn in Hm; lia].
    + cbn [replace_placeholders].
      destruct (match_placeholder s) as [[key rest]|] eqn:E.
      * apply match_placeholder_shorter in E. f_equal. apply IH; lia.
      * destruct s as [|c s]; [reflexivity|]. cbn [String.length] in *. f_equal. apply IH; lia.
Qed.

Lemma substitute_Some (s : string) :
  substitutePromptVariables render (Some s) params
  = replace_placeholders render (String.length s) params s.
Proof. destruct s; reflexivity. Qed.

Lemma substitute_match (s key rest : string) :
  match_placeholder s = Some (key, rest) ->
  substitutePromptVariables render (Some s) params
  = placeholder_value render params key ++ substitutePromptVariables render (Some rest) params.
Proof.
  intros E. rewrite !substitute_Some.
  pose proof (match_placeholder_shorter _ _ _ E) as Hlen.
  destruct (String.length s) as [|n] eqn:El; [lia|].
  cbn [replace_placeholders]. rewrite E. f_equal. apply replace_fuel; lia.
Qed.

Lemma substitute_char (c : ascii) (s : string) :
  match_placeholder (String c s) = None ->
  substitutePromptVariables render (Some (String c s)) params
  = String c (substitutePromptVariables render (Some s) params).
Proof.
  intros E. rewrite !substitute_Some. cbn [String.length replace_placeholders]. now rewrite E.
Qed.

(** A text whose braces [{] stand alone, and which does not end in one, is
    copied, whatever comes after it. *)
Lemma substitute_prefix (pre s : string) :
  doubled "{" (pre ++ "{") = false ->
  substitutePromptVariables render (Some (pre ++ s)) params
  = pre ++ substitutePromptVariables render (Some s) params.
Proof.
  induction pre as [|c pre IH]; intros Hd; [now rewrite !append_nil_l|].
  rewrite !append_cons, substitute_char by now apply match_placeholder_single.
  rewrite append_cons in Hd. now rewrite IH by exact (doubled_tail _ _ _ Hd).
Qed.

Lemma substitute_no_match (s : string) :
  doubled "{" s = false \/ doubled "}" s = false ->
  substitutePromptVariables render (Some s) params = s.
Proof.
  induction s as [|c s IH]; intros Hd; [reflexivity|].
  rewrite substitute_char.
  - rewrite IH; [reflexivity|]. destruct Hd as [Hd|Hd]; eauto using doubled_tail.
  - destruct Hd; auto using match_placeholder_unopened, match_placeholder_unclosed.
Qed.

End Replacement.

(** X12. A template in which [{] never occurs twice in a row, or in which [}]
    never does, comes out of the substitution as it is, whatever the
    parameters: single braces are not placeholders. *)
Theorem template_without_placeholder_is_kept {V : Type} (render : V -> string)
    (params : gmap string V) (template : string) :
  doubled "{" template = false \/ doubled "}" template = false ->
  substitutePromptVariables render (Some template) params = template.
Proof. apply substitute_no_match. Qed.

(** X13. Take a template [pre ++ "{{" ++ key ++ "}}" ++ post] in which [pre]
    has no two [{] in a row and does not end in [{] (it may hold single
    braces), and [key] is any non-empty text without [}]. Then [pre] is
    copied and the placeholder [{{key}}] is replaced by the text of the
    parameter named exactly [key], spaces included, and by nothing when the
    parameters have no such name. The text put in is not scanned again: the
    substitution goes on behind the placeholder. *)
Theorem placeholder_replaced_literally {V : Type} (render : V -> string)
    (params : gmap string V) (pre key post : string) :
  doubled "{" (pre ++ "{") = false ->
  key <> "" ->
  free_of "}" key = true ->
  substitutePromptVariables render (Some (pre ++ "{{" ++ key ++ "}}" ++ post)) params
  = pre ++ match params !! key with Some v => render v | None => "" end
        ++ substitutePromptVariables render (Some post) params.
Proof.
  intros Hpre Hne Hkey.
  rewrite substitute_prefix by assumption.
  now rewrite (substitute_match render params _ key post) by now apply match_placeholder_found.
Qed.

Example placeholders_of_test_template :
  placeholders "Hello, {{name}}! You are {{age}} years old." = ["name"; "age"].
Proof. reflexivity. Qed.

Lemma replace_agree {V : Type} (render : V -> string) (params params' : gmap string V) :
  forall (fuel : nat) (s : string),
  (forall key, In key (placeholder_keys fuel s) -> params !! key = params' !! key) ->
  replace_placeholders render fuel params s = replace_placeholders render fuel params' s.
Proof.
  induction fuel as [|fuel IH]; intros s Hkeys; [reflexivity|].
  cbn [replace_placeholders placeholder_keys] in *.
  destruct (match_placeholder s) as [[key rest]|].
  - unfold placeholder_value. rewrite (Hkeys key) by now left.
    f_equal. apply IH. intros k Hk. apply Hkeys. now right.
  - destruct s as [|c s]; [reflexivity|]. f_equal. now apply IH.
Qed.


(** ** The command line *)

Lemma truthy_Some (s : string) : truthy (Some s) = true <-> s <> "".
Proof. destruct s; cbn; split; intros; congruence. Qed.

Lemma requireValue_returns {A} rest message (k : string -> list string -> Outcome A) r :
  requireValue rest message k = Returns r ->
  exists value rest', rest = value :: rest' /\ value <> "" /\ k value rest' = Returns r.
Proof.
  destruct rest as [|value rest']; cbn [requireValue]; [discriminate|].
  destruct (truthy (Some value)) eqn:E; [|discriminate].
  apply truthy_Some in E. eauto.
Qed.

Lemma requireValue_exits {A} rest message (k : string -> list string -> Outcome A) code errors :
  requireValue rest message k = Exits code errors ->
  (code = 1%Z /\ errors = [message]) \/
  exists value rest', rest = value :: rest' /\ k value rest' = Exits code errors.
Proof.
  destruct rest as [|value rest']; cbn [requireValue]; [intros [= <- <-]; auto|].
  destruct (truthy (Some value)); [eauto|intros [= <- <-]; auto].
Qed.

Ltac flag_cases arg :=
  repeat (match goal with
          | |- context [String.eqb arg ?f] => destruct (String.eqb_spec arg f)
          | H : context [String.eqb arg ?f] |- _ => destruct (String.eqb_spec arg f)
          end; cbn [orb] in *).

Ltac from_argv_step :=
  unfold from_argv; cbn;
  repeat match goal with |- _ /\ _ => split end; intros;
  repeat match goal with
         | E : Some _ = Some _ |- _ => injection E as <-
         | H : forall p, ?f = Some p -> _, E : ?f = Some _ |- _ => specialize (H _ E)
         | H : ?f = true -> _, E : ?f = true |- _ => specialize (H E)
         | H : _ /\ _ |- _ => destruct H
         end;
  eauto.

Lemma parseArgv_sound (all : list string) : forall (n : nat) (argv : list string) (st r : CliArgs),
  (length argv <= n)%nat -> incl argv all -> from_argv all st ->
  parseArgv argv st = Returns r -> from_argv all r.
Proof.
  induction n as [|n IH]; intros argv st r Hlen Hincl Hst Hr.
  - destruct argv; [|cbn in Hlen; lia]. now injection Hr as <-.
  - destruct argv as [|arg rest]; [now injection Hr as <-|].
    cbn [length] in Hlen. cbn [parseArgv] in Hr.
    assert (In arg all) as Harg by (apply Hincl; now left).
    assert (incl rest all) as Hrest by (intros x Hx; apply Hincl; now right).
    assert (forall v rest', rest = v :: rest' ->
              In v all /\ incl rest' all /\ (length rest' <= n)%nat) as Hval.
    { intros v rest' ->. cbn [length] in Hlen. split; [apply Hrest; now left|].
      split; [|lia]. intros x Hx. apply Hrest. now right. }
    destruct Hst as (H1 & H2 & H3 & H4 & H5 & H6 & H7 & H8 & H9 & H10 & H11).
    flag_cases arg; subst;
      try (apply requireValue_returns in Hr as (v & rest' & -> & Hne & Hr);
           destruct (Hval _ _ eq_refl) as (Hin & Hincl' & Hlen')).
    all: try (refine (IH _ _ r _ _ _ Hr); [lia || assumption | assumption |];
              clear IH Hr Hval; from_argv_step).
    destruct rest as [|v rest']; [discriminate|].
    destruct (Hval v rest' eq_refl) as (Hin & Hincl' & Hlen').
    destruct (JS.parseInt v) as [| |z] eqn:Ep; cbn in Hr; try discriminate.
    destruct (Z.ltb_spec 0 z); cbn in Hr; [|discriminate].
    refine (IH _ _ r _ _ _ Hr); [assumption | assumption |].
    clear IH Hr Hval. from_argv_step.
Qed.

Lemma parseArgv_exits : forall (n : nat) (argv : list string) (st : CliArgs) code errors,
  (length argv <= n)%nat -> parseArgv argv st = Exits code errors ->
  code = 1%Z /\ errors <> [].
Proof.
  induction n as [|n IH]; intros argv st code errors Hlen Hr.
  - destruct argv; [discriminate | cbn in Hlen; lia].
  - destruct argv as [|arg rest]; [discriminate|].
    cbn [length] in Hlen. cbn [parseArgv] in Hr.
    flag_cases arg;
      try (apply requireValue_exits in Hr as [[-> ->] | (v & rest' & -> & Hr)];
           [split; [reflexivity | discriminate]|]; cbn [length] in Hlen).
    all: try (eapply IH; [|exact Hr]; lia).
    destruct rest as [|v rest']; [injection Hr as <- <-; split; [reflexivity | discriminate]|].
    cbn [length] in Hlen.
    destruct (_ || _); [injection Hr as <- <-; split; [reflexivity | discriminate]|].
    eapply IH; [|exact Hr]. lia.
Qed.

Lemma parseArgv_keeps_config : forall (n : nat) (argv : list string) (st r : CliArgs),
  (length argv <= n)%nat -> ~ In "--config" argv ->
  parseArgv argv st = Returns r -> configPath r = configPath st.
Proof.
  induction n as [|n IH]; intros argv st r Hlen Hno Hr.
  - destruct argv; [now injection Hr as <- | cbn in Hlen; lia].
  - destruct argv as [|arg rest]; [now injection Hr as <-|].
    cbn [length] in Hlen. cbn [parseArgv] in Hr.
    assert (arg <> "--config") as Harg by (intros ->; apply Hno; now left).
    assert (~ In "--config" rest) as Hrest by (intros H; apply Hno; now right).
    assert (forall v rest', rest = v :: rest' ->
              ~ In "--config" rest' /\ (length rest' <= n)%nat) as Hval.
    { intros v rest' ->. cbn [length] in Hlen. split; [|lia].
      intros H. apply Hrest. now right. }
    flag_cases arg; try contradiction;
      try (apply requireValue_returns in Hr as (v & rest' & -> & Hne & Hr);
           destruct (Hval _ _ eq_refl) as (Hno' & Hlen')).
    all: try (rewrite (IH _ _ r ltac:(eassumption) ltac:(eassumption) Hr); reflexivity).
    all: try (rewrite (IH rest _ r ltac:(lia) ltac:(eassumption) Hr); reflexivity).
    destruct rest as [|v rest']; [discriminate|].
    destruct (Hval _ _ eq_refl) as (Hno' & Hlen').
    destruct (_ || _); [discriminate|].
    now rewrite (IH _ _ r Hlen' Hno' Hr).
Qed.

Lemma takes_value_false (arg : string) :
  takes_value arg = false ->
  String.eqb arg "--config" = false /\ String.eqb arg "--prompt" = false /\
  String.eqb arg "-p" = false /\ String.eqb arg "--log-level" = false /\
  String.eqb arg "--log-format" = false /\ String.eqb arg "--log-destination" = false /\
  String.eqb arg "--log-categories" = false /\
  String.eqb arg "--log-payload-max-chars" = false.
Proof.
  unfold takes_value. cbn [existsb]. rewrite !orb_false_iff. tauto.
Qed.

Lemma parseArgv_switches (rest : list string) : forall st : CliArgs,
  Forall (fun arg => takes_value arg = false) rest ->
  parseArgv rest st
  = Returns
      (mkCliArgs (configPath st) (promptArg st)
         (asyncArg st || existsb (String.eqb "--async") rest)
         (handshakeAndExitArg st || existsb (String.eqb "--handshake-and-exit") rest)
         (mkLoggingArgs (arg_level (loggingArgs st)) (arg_format (loggingArgs st))
            (arg_destination (loggingArgs st)) (arg_categories (loggingArgs st))
            (arg_logPayloads (loggingArgs st) || existsb (String.eqb "--log-payloads") rest)
            (arg_payloadMaxChars (loggingArgs st)))
         (logDisabled st || existsb (String.eqb "--no-logging") rest)).
Proof.
  induction rest as [|arg rest IH]; intros st Hall.
  - destruct st as [? ? ? ? [] ?]. cbn. now rewrite !orb_false_r.
  - inversion Hall as [|? ? Harg Hrest]; subst.
    apply takes_value_false in Harg as (E1 & E2 & E3 & E4 & E5 & E6 & E7 & E8).
    cbn [parseArgv existsb]. rewrite E1, E2, E3, E4, E5, E6, E7, E8. cbn [orb].
    rewrite !(String.eqb_sym _ arg).
    destruct st as [cp pa aa ha [l1 l2 l3 l4 l5 l6] ld].
    destruct (String.eqb_spec arg "--async") as [->|];
      [|destruct (String.eqb_spec arg "--handshake-and-exit") as [->|];
        [|destruct (String.eqb_spec arg "--log-payloads") as [->|];
          [|destruct (String.eqb_spec arg "--no-logging") as [->|]]]];
      rewrite IH by assumption; cbn; rewrite ?orb_true_r, ?orb_false_r; reflexivity.
Qed.

(** X15. When [parseCliArgs] returns, the configuration path is a non-empty
    argument and [--config] is among the arguments; every value it has set is
    a non-empty argument, every switch it reports is among the arguments,
    and the payload limit, if set, is a positive number. *)
Theorem parsed_arguments_come_from_argv (argv : list string) (r : CliArgs) :
  parseCliArgs argv = Returns r ->
  from_argv argv r /\ exists path, configPath r = Some path /\ path <> "".
Proof.
  unfold parseCliArgs. destruct (parseArgv argv no_args) as [st|] eqn:E; [|discriminate].
  destruct (truthy (configPath st)) eqn:Ht; [|discriminate]. intros [= <-]. split.
  - apply (parseArgv_sound argv (length argv) argv no_args st); auto using incl_refl.
    unfold from_argv. cbn. repeat split; intros; discriminate.
  - destruct (configPath st) as [path|]; [|discriminate]. exists path.
    split; [reflexivity | now apply truthy_Some].
Qed.

(** X16. [parseCliArgs] never gives up silently: when it exits, the exit code
    is 1 and a message was written. Without [--config] among the arguments it
    always exits. *)
Theorem cli_errors_exit_with_1 (argv : list string) :
  (forall code errors, parseCliArgs argv = Exits code errors -> code = 1%Z /\ errors <> []) /\
  (~ In "--config" argv -> exists errors, parseCliArgs argv = Exits 1 errors).
Proof.
  unfold parseCliArgs. split.
  - intros code errors. destruct (parseArgv argv no_args) as [st|c e] eqn:E.
    + destruct (truthy (configPath st)); [discriminate|].
      intros [= <- <-]. split; [reflexivity | discriminate].
    + intros [= <- <-]. eapply parseArgv_exits; eauto.
  - intros Hno. destruct (parseArgv argv no_args) as [st|c e] eqn:E.
    + rewrite (parseArgv_keeps_config (length argv) argv no_args st); auto. cbn. eauto.
    + destruct (parseArgv_exits (length argv) argv no_args c e) as [-> _]; eauto.
Qed.

(** X17. After [--config <path>], arguments that are not options with a value
    are read one by one: [--async], [--handshake-and-exit], [--log-payloads]
    and [--no-logging] are switched on by their presence, in any order and
    however often they occur, and every other word is skipped. *)
Theorem switches_in_any_order (path : string) (rest : list string) :
  path <> "" ->
  Forall (fun arg => takes_value arg = false) rest ->
  parseCliArgs ("--config" :: path :: rest)
  = Returns
      (mkCliArgs (Some path) None
         (existsb (String.eqb "--async") rest)
         (existsb (String.eqb "--handshake-and-exit") rest)
         (mkLoggingArgs None None None None (existsb (String.eqb "--log-payloads") rest) None)
         (existsb (String.eqb "--no-logging") rest)).
Proof.
  intros Hne Hall. unfold parseCliArgs. cbn [parseArgv].
  change (String.eqb "--config" "--config") with true. cbn [requireValue].
  apply truthy_Some in Hne. rewrite Hne, parseArgv_switches by assumption.
  cbn [configPath]. rewrite Hne. reflexivity.
Qed.

(** ** Logging *)

Section LoggingProperties.

Variable toLowerCase : string -> string.
Variable inherited_property : string -> bool.


Lemma shouldLog_disabled (c : Logging.LoggingConfig) l category :
  Logging.enabled c = false -> Logging.shouldLog (Logging.createLogger (Some c)) l category = false.
Proof. intros H. unfold Logging.shouldLog. cbn. now rewrite H. Qed.

Lemma resolveLoggingConfig_fields configLogging cliLogging logDisabled env :
  let normalize := Logging.normalizeLoggingOverrides toLowerCase inherited_property in
  let c := normalize configLogging in
  let e := normalize (Some (Logging.envOverrides toLowerCase env)) in
  let k := normalize cliLogging in
  let r := Logging.resolveLoggingConfig toLowerCase inherited_property configLogging cliLogging
             logDisabled env in
  Logging.level r
  = default (default (default (Logging.Level log_info) (Logging.o_level c)) (Logging.o_level e))
      (Logging.o_level k) /\
  Logging.format r
  = default (default (default Logging.json (Logging.o_format c)) (Logging.o_format e))
      (Logging.o_format k) /\
  Logging.destination r
  = default (default (default "stderr" (Logging.o_destination c)) (Logging.o_destination e))
      (Logging.o_destination k) /\
  Logging.categories r
  = default (default (default Logging.LOG_CATEGORY_VALUES (Logging.o_categories c))
               (Logging.o_categories e))
      (Logging.o_categories k) /\
  Logging.logPayloads r
  = default (default (default false (Logging.o_logPayloads c)) (Logging.o_logPayloads e))
      (Logging.o_logPayloads k) /\
  Logging.enabled r
  = (if logDisabled || Logging.is_off (Logging.level r) then false
     else default (default (default true (Logging.o_enabled c)) (Logging.o_enabled e))
            (Logging.o_enabled k)) /\
  Logging.disabledByCli r = logDisabled.
Proof.
  cbv zeta. unfold Logging.resolveLoggingConfig.
  destruct (Logging.normalizeLoggingOverrides _ _ configLogging) as [e1 p1 l1 f1 d1 c1 m1],
           (Logging.normalizeLoggingOverrides _ _ (Some _)) as [e2 p2 l2 f2 d2 c2 m2],
           (Logging.normalizeLoggingOverrides _ _ cliLogging) as [e3 p3 l3 f3 d3 c3 m3].
  cbn.
  destruct (logDisabled || Logging.is_off (default (default (default _ l1) l2) l3)) eqn:Hb;
    cbn; rewrite ?Hb; auto 10.
Qed.

Lemma resolveToolLoggingConfig_fields base tl :
  Logging.disabledByCli base = false ->
  let overrides := Logging.normalizeLoggingOverrides toLowerCase inherited_property tl in
  exists merged,
    Logging.resolveToolLoggingConfig toLowerCase inherited_property (Some base) tl
    = Some merged /\
    Logging.level merged = default (Logging.level base) (Logging.o_level overrides) /\
    Logging.categories merged
    = default (Logging.categories base) (Logging.o_categories overrides) /\
    Logging.enabled merged
    = match Logging.o_level overrides with
      | Some Logging.off => false
      | _ => default (Logging.enabled base) (Logging.o_enabled overrides)
      end.
Proof.
  intros Hcli. cbv zeta. unfold Logging.resolveToolLoggingConfig. rewrite Hcli.
  destruct (Logging.normalizeLoggingOverrides _ _ tl) as [e lp [[]|] f d c p]; destruct e;
    cbn; eauto.
Qed.

End LoggingProperties.

(** The cases of [__tests__/main.test.js]. *)

Example resolveLoggingConfig_defaults :
  Logging.resolveLoggingConfig ascii_toLowerCase standard_inherited None
    (Some (Logging.mkLoggingInput None None None None None None None)) false
    (Logging.mkEnv None None None None None None None)
  = Logging.DEFAULT_LOGGING.
Proof. reflexivity. Qed.

Example resolveLoggingConfig_cli_env_config :
  Logging.level
    (Logging.resolveLoggingConfig ascii_toLowerCase standard_inherited
       (Some (Logging.mkLoggingInput None (Some "info") None None None None None))
       (Some (Logging.mkLoggingInput None (Some "debug") None None None None None)) false
       (Logging.mkEnv None (Some "warn") None None None None None))
  = Logging.Level log_debug.
Proof. reflexivity. Qed.

Example resolveToolLoggingConfig_overrides :
  Logging.resolveToolLoggingConfig ascii_toLowerCase standard_inherited
    (Some Logging.DEFAULT_LOGGING)
    (Some (Logging.mkLoggingInput None (Some "debug") None None
             (Some (Logging.array ["steps"])) None None))
  = Some (Logging.mkLoggingConfig true (Logging.Level log_debug) Logging.json "stderr"
            [Logging.steps] false None false).
Proof. reflexivity. Qed.

Example normalizeLogCategories_list :
  Logging.normalizeLogCategories ascii_toLowerCase (Some (Logging.text "requests, steps"))
  = Some [Logging.requests; Logging.steps].
Proof. reflexivity. Qed.

Example normalizeLogCategories_all :
  Logging.normalizeLogCategories ascii_toLowerCase (Some (Logging.text "all"))
  = Some Logging.LOG_CATEGORY_VALUES.
Proof. reflexivity. Qed.

Example normalizeLogLevel_text :
  Logging.normalizeLogLevel ascii_toLowerCase standard_inherited (Some " DEBUG ")
  = Some (Logging.Level log_debug) /\
  Logging.normalizeLogLevel ascii_toLowerCase standard_inherited (Some "verbose") = None /\
  Logging.normalizeLogLevel ascii_toLowerCase standard_inherited (Some "constructor")
  = Some (Logging.inherited "constructor").
Proof. repeat split; reflexivity. Qed.

(** X18. [--no-logging] is final: when the command line disables logging,
    neither the logger of the server nor the logger of any tool writes
    anything, at any level and in any category, whatever the configuration
    file, the environment and the [logging] block of the tool say. The
    logger of a tool is silent too when that block sets a level that
    normalizes to ["off"], even if it sets [enabled: true] as well. *)
Theorem logging_switched_off_stays_off (toLowerCase : string -> string)
    (inherited_property : string -> bool) (configLogging : option Logging.LoggingInput)
    (args : CliArgs) (env : Logging.Env) (toolLogging : option Logging.LoggingInput) :
  (logDisabled args = true ->
   forall l category,
     Logging.shouldLog (serverLogger toLowerCase inherited_property configLogging args env)
       l category = false /\
     Logging.shouldLog
       (toolLogger toLowerCase inherited_property configLogging args env toolLogging)
       l category = false) /\
  (Logging.o_level (Logging.normalizeLoggingOverrides toLowerCase inherited_property toolLogging)
   = Some Logging.off ->
   forall l category,
     Logging.shouldLog
       (toolLogger toLowerCase inherited_property configLogging args env toolLogging)
       l category = false).
Proof.
  unfold serverLogger, toolLogger.
  set (base := Logging.resolveLoggingConfig toLowerCase inherited_property configLogging
                 (Some (Logging.cliLogging (loggingArgs args))) (logDisabled args) env).
  destruct (resolveLoggingConfig_fields toLowerCase inherited_property configLogging
              (Some (Logging.cliLogging (loggingArgs args))) (logDisabled args) env)
    as (_ & _ & _ & _ & _ & Hen & Hcli).
  fold base in Hen, Hcli.
  assert (logDisabled args = true ->
          forall l category,
            Logging.shouldLog
              (Logging.createLogger
                 (Logging.resolveToolLoggingConfig toLowerCase inherited_property (Some base)
                    toolLogging)) l category = false) as Htool.
  { intros Hd l category. unfold Logging.resolveToolLoggingConfig. rewrite Hcli, Hd.
    now apply shouldLog_disabled. }
  split.
  - intros Hd l category. split; [|now apply Htool].
    apply shouldLog_disabled. rewrite Hen, Hd. reflexivity.
  - intros Hoff l category. destruct (logDisabled args) eqn:Hd; [now apply Htool|].
    destruct (resolveToolLoggingConfig_fields toLowerCase inherited_property base toolLogging
                Hcli) as (merged & -> & _ & _ & Hm).
    apply shouldLog_disabled. now rewrite Hm, Hoff.
Qed.

(** X19. A tool's [enabled: true] brings logging back when the level of the
    server is ["off"] and logging was not disabled on the command line: the
    merged level is still ["off"], which the logger reads as [info], so the
    tool logs [error], [warn] and [info] entries in the categories of the
    server. *)
Theorem tool_enabled_overrides_server_off (toLowerCase : string -> string)
    (inherited_property : string -> bool) (base : Logging.LoggingConfig)
    (input : Logging.LoggingInput) :
  Logging.disabledByCli base = false ->
  Logging.level base = Logging.off ->
  Logging.in_enabled input = Some true ->
  Logging.in_level input = None ->
  Logging.in_categories input = None ->
  exists merged,
    Logging.resolveToolLoggingConfig toLowerCase inherited_property (Some base) (Some input)
    = Some merged /\
    Logging.level merged = Logging.off /\
    forall l category,
      Logging.shouldLog (Logging.createLogger (Some merged)) l category
      = (Logging.LOG_LEVELS l <=? Logging.LOG_LEVELS log_info)%Z
        && existsb (Logging.category_eqb category) (Logging.categories base).
Proof.
  intros Hcli Hoff He Hl Hc.
  destruct (resolveToolLoggingConfig_fields toLowerCase inherited_property base (Some input) Hcli)
    as (m & Hm & Hlevel & Hcat & Hen).
  cbn in Hlevel, Hcat, Hen. rewrite Hl in *. rewrite He in Hen. rewrite Hc in Hcat.
  cbn in Hlevel, Hcat, Hen.
  exists m. split; [exact Hm|]. split; [congruence|].
  intros l category. unfold Logging.shouldLog, Logging.createLogger. cbn.
  rewrite Hen, Hlevel, Hoff, Hcat. cbn.
  destruct l; cbn; destruct (Logging.categories base) as [|c cs]; cbn; try reflexivity;
    now destruct (_ || _).
Qed.

(** X20. A logger that writes the entries of one level in a category also
    writes those of every level at least as severe in that category; it is
    enabled and the category is one of its categories. When its level is not
    an inherited name and it writes [debug] or [trace] entries, it logs
    payloads too. *)
Theorem severity_threshold (loggingConfig : option Logging.LoggingConfig)
    (l l' : LogLevel) (category : Logging.Category) :
  Logging.shouldLog (Logging.createLogger loggingConfig) l category = true ->
  (Logging.LOG_LEVELS l' <= Logging.LOG_LEVELS l)%Z ->
  Logging.shouldLog (Logging.createLogger loggingConfig) l' category = true /\
  Logging.enabled (default Logging.DEFAULT_LOGGING loggingConfig) = true /\
  In category (Logging.categories (default Logging.DEFAULT_LOGGING loggingConfig)) /\
  ((forall name,
      Logging.level (default Logging.DEFAULT_LOGGING loggingConfig) <> Logging.inherited name) ->
   (Logging.LOG_LEVELS log_debug <= Logging.LOG_LEVELS l)%Z ->
   Logging.shouldLogPayloads (Logging.createLogger loggingConfig) = true).
Proof.
  unfold Logging.shouldLog, Logging.shouldLogPayloads, Logging.createLogger. cbn.
  set (cfg := default Logging.DEFAULT_LOGGING loggingConfig).
  destruct (Logging.enabled cfg); cbn; [|discriminate].
  intros Hlog Hle.
  assert (existsb (Logging.category_eqb category) (Logging.categories cfg) = true /\
          Logging.categories cfg <> [] /\
          match Logging.level cfg with
          | Logging.Level l0 => (Logging.LOG_LEVELS l <= Logging.LOG_LEVELS l0)%Z
          | Logging.off => (Logging.LOG_LEVELS l <= 2)%Z
          | Logging.inherited _ => True
          end) as (Hin & Hne & Hlv).
  { destruct (Logging.level cfg) as [l0| |name]; cbn in Hlog;
      try destruct (Z.ltb_spec (Logging.LOG_LEVELS l0) (Logging.LOG_LEVELS l));
      try destruct (Z.ltb_spec 2 (Logging.LOG_LEVELS l)); try discriminate;
      (destruct (Logging.categories cfg) as [|c cs]; [discriminate|]);
      cbn [length Nat.eqb] in Hlog;
      (destruct (existsb _ (c :: cs)); [|discriminate]); repeat split; auto; discriminate. }
  split; [|split; [reflexivity|split]].
  - destruct (Logging.categories cfg) as [|c cs]; [contradiction|]. cbn [length Nat.eqb].
    rewrite Hin. cbn.
    destruct (Logging.level cfg) as [l0| |name]; cbn; try reflexivity.
    + destruct (Z.ltb_spec (Logging.LOG_LEVELS l0) (Logging.LOG_LEVELS l')); [lia | reflexivity].
    + destruct (Z.ltb_spec 2 (Logging.LOG_LEVELS l')); [lia | reflexivity].
  - apply existsb_exists in Hin as (c & Hc & E). now destruct category, c.
  - intros Hschema Hd. apply orb_true_iff. right.
    destruct (Logging.level cfg) as [l0| |name]; [| |now destruct (Hschema name)];
      apply Z.leb_le; cbn in *; lia.
Qed.

(** X21. Every setting of the resolved configuration is the one given on
    the command line if it normalizes, else the one of the environment, else
    the one of the configuration file, else the default: a value that does
    not normalize counts as not given. [enabled] is forced to [false] by
    [--no-logging] and by a resolved level ["off"]. A level normalizes only
    to ["off"], to one of the five levels, or to a non-empty name that
    [LOG_LEVELS] inherits. *)
Theorem logging_precedence (toLowerCase : string -> string)
    (inherited_property : string -> bool) (configLogging cliLogging : option Logging.LoggingInput)
    (logDisabled : bool) (env : Logging.Env) :
  let normalize := Logging.normalizeLoggingOverrides toLowerCase inherited_property in
  let c := normalize configLogging in
  let e := normalize (Some (Logging.envOverrides toLowerCase env)) in
  let k := normalize cliLogging in
  let r := Logging.resolveLoggingConfig toLowerCase inherited_property configLogging cliLogging
             logDisabled env in
  Logging.level r
  = default (default (default (Logging.Level log_info) (Logging.o_level c)) (Logging.o_level e))
      (Logging.o_level k) /\
  Logging.format r
  = default (default (default Logging.json (Logging.o_format c)) (Logging.o_format e))
      (Logging.o_format k) /\
  Logging.destination r
  = default (default (default "stderr" (Logging.o_destination c)) (Logging.o_destination e))
      (Logging.o_destination k) /\
  Logging.categories r
  = default (default (default Logging.LOG_CATEGORY_VALUES (Logging.o_categories c))
               (Logging.o_categories e))
      (Logging.o_categories k) /\
  Logging.logPayloads r
  = default (default (default false (Logging.o_logPayloads c)) (Logging.o_logPayloads e))
      (Logging.o_logPayloads k) /\
  Logging.enabled r
  = (if logDisabled || Logging.is_off (Logging.level r) then false
     else default (default (default true (Logging.o_enabled c)) (Logging.o_enabled e))
            (Logging.o_enabled k)) /\
  Logging.disabledByCli r = logDisabled /\
  (forall value,
     Logging.o_level (normalize (Some value)) = None \/
     exists l, Logging.o_level (normalize (Some value)) = Some l /\
       (l = Logging.off \/
        (exists name, l = Logging.Level name) \/
        exists name, l = Logging.inherited name /\ inherited_property name = true /\ name <> "")).
Proof.
  cbv zeta. split; [|split; [|split; [|split; [|split; [|split; [|split]]]]]];
    try apply (resolveLoggingConfig_fields toLowerCase inherited_property configLogging
                 cliLogging logDisabled env).
  intros value. cbn. unfold Logging.normalizeLogLevel.
  destruct (Logging.in_level value) as [v|]; [|now left].
  destruct (String.eqb _ "off"); [right; eauto|].
  destruct (Logging.level_named _) as [l|]; [right; destruct l; cbn; eauto 10|].
  destruct (inherited_property _) eqn:Hi; [|now left].
  cbn [Logging.level_text]. destruct (toLowerCase (Logging.trim v)) eqn:E; cbn; [now left|].
  right. eexists. split; [reflexivity|]. right. right. eexists. split; [reflexivity|].
  split; [assumption | discriminate].
Qed.

(** ** The properties on concrete inputs *)

(** X1 on the scenario: the subprocess of the started job exits with code 0. *)
Lemma natural_completion_witness :
  jobs (settle (demo_ambient None) 0 (Fulfilled (mkExeca (Some 0%Z) (Some "done") None))
          (run initial demo_started)) !! demo_jobId
  = Some (mkJob completed "test-tool" "2023-11-14T22:13:20.000Z"
            (Some (mkTaskResult 0 "done" "")) (JS.Num 10)
            (Some "2023-11-14T22:13:20.000Z") None).
Proof.
  destruct (natural_completion (demo_ambient None) 0 (run initial demo_started) demo_finalizer
              demo_running_job) as (H & _).
  - vm_compute. reflexivity.
  - vm_compute. reflexivity.
  - reflexivity.
  - destruct (H (mkExeca (Some 0%Z) (Some "done") None)) as (H1 & _). exact H1.
Defined.

(** X4 on the scenario, after the timeout of the job. *)
Lemma exit_code_decides_status_witness :
  (status demo_failed_job = completed <-> (-1)%Z = 0%Z) /\
  (status demo_failed_job = failed <-> (-1)%Z <> 0%Z).
Proof.
  apply (exit_code_decides_status demo_timed_out demo_jobId demo_failed_job
           (mkTaskResult (-1) "" "Timed out after 10ms")).
  - vm_compute. reflexivity.
  - reflexivity.
Defined.

(** X5 on the scenario, after the timeout of the job. *)
Lemma timed_out_only_by_supervisor_witness :
  (completedAt demo_failed_job = None <-> status demo_failed_job = running) /\
  timedOut demo_failed_job <> Some false /\
  (timedOut demo_failed_job = Some true ->
   status demo_failed_job = failed /\
   exists budget,
     result demo_failed_job
     = Some (mkTaskResult (-1) "" ("Timed out after " ++ JS.toString budget ++ "ms"))).
Proof.
  apply (timed_out_only_by_supervisor demo_timed_out demo_jobId demo_failed_job).
  vm_compute. reflexivity.
Defined.

(** X6 on the scenario: the timer of the job fires, then the kill timer. *)
Lemma timeout_escalation_witness :
  signals (fire (demo_ambient None) 1 (run initial demo_timed_out))
  = [(0%nat, SIGKILL); (0%nat, SIGTERM)].
Proof.
  pose proof (timeout_escalation (demo_ambient (Some "10")) (demo_ambient None)
                (run initial demo_started) 0 demo_jobId "test-tool" (JS.Num 10) (JS.Num 10)
                None 0 demo_running_job demo_child) as H.
  destruct H as (_ & _ & H & _).
  - vm_compute. reflexivity.
  - vm_compute. reflexivity.
  - reflexivity.
  - vm_compute. reflexivity.
  - exact H.
Defined.

(** X8 on the scenario. *)
Lemma job_provenance_witness :
  exists es1 a cfg tool lg fullTask cwd outcome es2,
    demo_timed_out = (es1 ++ Invoke a cfg (AsyncTool tool lg) fullTask cwd outcome :: es2)%list /\
    demo_jobId = jobIdOf (dateNow a) (jobIdCounter (run initial es1) + 1) /\
    toolName demo_failed_job = name tool /\
    startedAt demo_failed_job = isoNow a /\
    timeoutMs demo_failed_job = resolveJobTimeoutMs a.
Proof.
  apply (job_provenance demo_timed_out demo_jobId demo_failed_job).
  - vm_compute. reflexivity.
  - vm_compute. reflexivity.
Defined.

(** X9 on the scenario: one job, and the counter at 1. *)
Lemma registry_census_witness :
  size (jobs (run initial demo_timed_out)) = 1%nat /\
  jobIdCounter (run initial demo_timed_out) = 1%Z.
Proof.
  apply (registry_census demo_timed_out). vm_compute. reflexivity.
Defined.

(** X11 on the scenario, right after the job was started. *)
Lemma running_jobs_are_supervised_witness :
  exists id tool lg child,
    timers (run initial demo_started) !! id
    = Some (mkTimer (JobTimeout demo_jobId tool (timeoutMs demo_running_job) lg child)
              (armed (timeoutMs demo_running_job))) /\
    settling (run initial demo_started) !! child
    = Some (mkFinalizer demo_jobId (Some id) tool lg) /\
    (forall a, exists job',
       jobs (fire a id (run initial demo_started)) !! demo_jobId = Some job' /\
       status job' = failed /\ timedOut job' = Some true) /\
    (forall a s, exists job',
       jobs (settle a child s (run initial demo_started)) !! demo_jobId = Some job' /\
       terminal (status job') /\
       timers (settle a child s (run initial demo_started)) !! id = None).
Proof.
  apply (running_jobs_are_supervised demo_started demo_jobId demo_running_job).
  - vm_compute. reflexivity.
  - reflexivity.
Defined.

(** X12 on a template without two opening braces in a row. *)
Lemma template_without_placeholder_is_kept_witness :
  substitutePromptVariables id (Some "Reply with {ok: true}}") demo_params
  = "Reply with {ok: true}}".
Proof.
  apply (template_without_placeholder_is_kept id demo_params). left. reflexivity.
Defined.

(** X13 on a template with single braces before its first placeholder and a
    parameter whose text is itself a placeholder; the second placeholder,
    with spaces around the name, names no parameter. *)
Lemma placeholder_replaced_literally_witness :
  substitutePromptVariables id (Some "{a:1} Hello, {{name}}! Bye, {{ name }}.") demo_params
  = "{a:1} Hello, {{age}}! Bye, .".
Proof.
  etransitivity.
  - exact (placeholder_replaced_literally id demo_params "{a:1} Hello, " "name"
             "! Bye, {{ name }}." eq_refl ltac:(discriminate) eq_refl).
  - vm_compute. reflexivity.
Defined.

(** X15 on a command line of the tests. *)
Lemma parsed_arguments_come_from_argv_witness :
  from_argv ["--config"; "config.json"; "-p"; "My prompt"; "--log-payload-max-chars"; "2048"]
    (mkCliArgs (Some "config.json") (Some "My prompt") false false
       (mkLoggingArgs None None None None false (Some (JS.Num 2048))) false) /\
  exists path,
    configPath
      (mkCliArgs (Some "config.json") (Some "My prompt") false false
         (mkLoggingArgs None None None None false (Some (JS.Num 2048))) false)
    = Some path /\ path <> "".
Proof.
  apply (parsed_arguments_come_from_argv
           ["--config"; "config.json"; "-p"; "My prompt"; "--log-payload-max-chars"; "2048"]).
  vm_compute. reflexivity.
Defined.

(** X17 on a command line with an unknown word between two switches. *)
Lemma switches_in_any_order_witness :
  parseCliArgs ["--config"; "config.json"; "--no-logging"; "extra"; "--async"]
  = Returns
      (mkCliArgs (Some "config.json") None true false
         (mkLoggingArgs None None None None false None) true).
Proof.
  apply (switches_in_any_order "config.json" ["--no-logging"; "extra"; "--async"]).
  - discriminate.
  - repeat constructor.
Defined.

(** X19 for a server with level ["off"] and the default categories. *)
Lemma tool_enabled_overrides_server_off_witness :
  exists merged,
    Logging.resolveToolLoggingConfig ascii_toLowerCase standard_inherited
      (Some (Logging.mkLoggingConfig false Logging.off Logging.json "stderr"
               Logging.LOG_CATEGORY_VALUES false None false))
      (Some (Logging.mkLoggingInput (Some true) None None None None None None))
    = Some merged /\
    Logging.level merged = Logging.off /\
    forall l category,
      Logging.shouldLog (Logging.createLogger (Some merged)) l category
      = (Logging.LOG_LEVELS l <=? Logging.LOG_LEVELS log_info)%Z
        && existsb (Logging.category_eqb category) Logging.LOG_CATEGORY_VALUES.
Proof.
  apply (tool_enabled_overrides_server_off ascii_toLowerCase standard_inherited
           (Logging.mkLoggingConfig false Logging.off Logging.json "stderr"
              Logging.LOG_CATEGORY_VALUES false None false)
           (Logging.mkLoggingInput (Some true) None None None None None None));
    reflexivity.
Defined.

(** X20 for the default logger: it writes [info], hence [error]. *)
Lemma severity_threshold_witness :
  Logging.shouldLog (Logging.createLogger None) log_error Logging.steps = true.
Proof.
  destruct (severity_threshold None log_info log_error Logging.steps) as (H & _).
  - reflexivity.
  - vm_compute. discriminate.
  - exact H.
Defined.
